(** * GlobalDependencyMap: the dependency-tracking engine of the build

    A shallow embedding of [src/GlobalDependencyMap.js] and of the parts of
    its collaborators it relies on, followed by the properties of the
    specification that were checked against it.

    Conventions of the embedding:
    - a JavaScript function that can throw returns a [result];
    - a node name is a JavaScript string or [undefined] (what [normalizeNode]
      returns for a falsy argument): [name := option string];
    - a JavaScript [Map] is an association list in insertion order, a plain
      object an association list in property order, an array a list. *)

From Stdlib Require Import List String Ascii Bool Arith NArith ZArith Lia.
From Stdlib Require Import DecimalString.
Import ListNotations.
Local Open Scope string_scope.
Local Open Scope list_scope.

(** ** Exceptions and results *)

Inductive exn : Type :=
| TypeError (msg : string)      (* thrown by the language itself *)
| Error (msg : string)          (* [throw new Error(msg)] *)
| OutOfFuel                     (* the bound of a modelled [while] loop was hit *)
| Unsupported (msg : string).   (* input outside the fragment that is modelled *)

Inductive result (A : Type) : Type :=
| Ok (a : A)
| Throw (e : exn).

Arguments Ok {A} a.
Arguments Throw {A} e.

Definition bind {A B : Type} (r : result A) (k : A -> result B) : result B :=
  match r with
  | Ok a => k a
  | Throw e => Throw e
  end.

Declare Scope js_scope.
Delimit Scope js_scope with js.
Notation "x <- c1 ;; c2" := (bind c1 (fun x => c2))
  (at level 100, c1 at next level, right associativity) : js_scope.
Notation "' pat <- c1 ;; c2" := (bind c1 (fun x => match x with pat => c2 end))
  (at level 100, pat pattern, c1 at next level, right associativity) : js_scope.
Local Open Scope js_scope.

(** [for (let x of l) { acc = f(acc, x) }] where the body may throw. *)
Fixpoint forOf {A S : Type} (l : list A) (f : S -> A -> result S) (s : S) : result S :=
  match l with
  | [] => Ok s
  | x :: r => s' <- f s x ;; forOf r f s'
  end.

(** [l.map(f)] where [f] may throw. *)
Fixpoint mapM {A B : Type} (f : A -> result B) (l : list A) : result (list B) :=
  match l with
  | [] => Ok []
  | x :: r => y <- f x ;; ys <- mapM f r ;; Ok (y :: ys)
  end.

(** ** Node names *)

(** [None] is the JavaScript value [undefined]. *)
Abbreviation name := (option string) (only parsing).

Definition name_eqb (a b : name) : bool :=
  match a, b with
  | Some x, Some y => String.eqb x y
  | None, None => true
  | _, _ => false
  end.

(** Conversion of a name to a property key or to text ([String(undefined)]). *)
Definition name_to_string (n : name) : string :=
  match n with
  | Some s => s
  | None => "undefined"
  end.

(** ** Arrays *)

Module JsArray.
Section Ops.
Context {A : Type} (eqb : A -> A -> bool).

(** [l.indexOf(x) !== -1] *)
Definition includes (x : A) (l : list A) : bool := existsb (eqb x) l.

(** [idx = l.indexOf(x); if (idx >= 0) l.splice(idx, 1)] *)
Fixpoint remove_first (x : A) (l : list A) : list A :=
  match l with
  | [] => []
  | y :: r => if eqb x y then r else y :: remove_first x r
  end.

(** [if (l.indexOf(x) === -1) l.push(x)], also [Set.prototype.add]. *)
Definition push_unique (x : A) (l : list A) : list A :=
  if includes x l then l else l ++ [x].

(** [Set.prototype.delete] on a list without repetition. *)
Definition remove_all (x : A) (l : list A) : list A :=
  filter (fun y => negb (eqb x y)) l.

(** [new Set(l)]: the elements in order of first occurrence. *)
Definition to_set (l : list A) : list A :=
  fold_left (fun acc x => push_unique x acc) l [].

(** [l.slice(-n)] *)
Definition slice_last (n : nat) (l : list A) : list A :=
  skipn (List.length l - n) l.

(** [l.slice(0, -n)] *)
Definition slice_but_last (n : nat) (l : list A) : list A :=
  firstn (List.length l - n) l.
End Ops.
End JsArray.

(** ** [Map]: keyed by node name, iterated in insertion order *)

Module JsMap.
Section Ops.
Context {V : Type}.

Definition t : Type := list (name * V).

Fixpoint get (k : name) (m : list (name * V)) : option V :=
  match m with
  | [] => None
  | (k', v) :: r => if name_eqb k k' then Some v else get k r
  end.

Definition has (k : name) (m : list (name * V)) : bool :=
  match get k m with
  | Some _ => true
  | None => false
  end.

(** An existing key keeps its position, a new key goes last. *)
Fixpoint set (k : name) (v : V) (m : list (name * V)) : list (name * V) :=
  match m with
  | [] => [(k, v)]
  | (k', v') :: r =>
      if name_eqb k k' then (k, v) :: r else (k', v') :: set k v r
  end.

Fixpoint delete (k : name) (m : list (name * V)) : list (name * V) :=
  match m with
  | [] => []
  | (k', v') :: r =>
      if name_eqb k k' then r else (k', v') :: delete k r
  end.

Definition keys (m : list (name * V)) : list name := List.map fst m.
End Ops.
End JsMap.

(** ** Plain objects: string keys in property order

    Own properties are enumerated with the array-index keys first, in
    ascending numeric order, then the other string keys in the order they
    were created. *)

Module JsObject.

Definition is_digit (c : ascii) : bool :=
  ((48 <=? N_of_ascii c)%N && (N_of_ascii c <=? 57)%N)%bool.

Fixpoint digits_value (s : string) (acc : N) : option N :=
  match s with
  | EmptyString => Some acc
  | String c r =>
      if is_digit c
      then digits_value r (acc * 10 + (N_of_ascii c - 48))%N
      else None
  end.

(** A canonical numeric string below 2^32 - 1 is an array index. *)
Definition array_index (s : string) : option N :=
  match s with
  | EmptyString => None
  | String c r =>
      if Ascii.eqb c "0"%char
      then match r with EmptyString => Some 0%N | _ => None end
      else match digits_value s 0%N with
           | Some n => if (n <? 4294967295)%N then Some n else None
           | None => None
           end
  end.

Section Ops.
Context {V : Type}.

Definition t : Type := list (string * V).

Fixpoint get (k : string) (o : list (string * V)) : option V :=
  match o with
  | [] => None
  | (k', v) :: r => if String.eqb k k' then Some v else get k r
  end.

Definition has (k : string) (o : list (string * V)) : bool :=
  match get k o with
  | Some _ => true
  | None => false
  end.

Fixpoint replace (k : string) (v : V) (o : list (string * V)) : list (string * V) :=
  match o with
  | [] => []
  | (k', v') :: r =>
      if String.eqb k k' then (k, v) :: r else (k', v') :: replace k v r
  end.

Fixpoint insert_index (i : N) (k : string) (v : V) (o : list (string * V))
  : list (string * V) :=
  match o with
  | [] => [(k, v)]
  | (k', v') :: r =>
      match array_index k' with
      | Some j => if (j <? i)%N then (k', v') :: insert_index i k v r
                  else (k, v) :: o
      | None => (k, v) :: o
      end
  end.

(** [o[k] = v] *)
Definition set (k : string) (v : V) (o : list (string * V)) : list (string * V) :=
  if has k o then replace k v o
  else match array_index k with
       | Some i => insert_index i k v o
       | None => o ++ [(k, v)]
       end.

(** The object a literal or a parsed document with these members denotes. *)
Definition of_list (kvs : list (string * V)) : list (string * V) :=
  fold_left (fun o kv => set (fst kv) (snd kv) o) kvs [].

Definition keys (o : list (string * V)) : list string := List.map fst o.
End Ops.

(** The keys every plain object inherits from [Object.prototype]; all of
    them hold truthy values. *)
Definition prototype_keys : list string :=
  [ "constructor"; "__defineGetter__"; "__defineSetter__"; "hasOwnProperty";
    "__lookupGetter__"; "__lookupSetter__"; "isPrototypeOf";
    "propertyIsEnumerable"; "toString"; "valueOf"; "__proto__";
    "toLocaleString" ].

End JsObject.

(** ** Node data

    The value a graph node carries: the node's own name when it was added
    without data ([DString], or [DUndefined] for the name [undefined]), an
    object literal such as [{ type: "layout" }] ([DObject]), or the [String]
    wrapper object that [Object.assign] makes of a primitive string
    ([DStringObject]). Property values are strings. *)

Inductive nodedata : Type :=
| DUndefined
| DString (s : string)
| DStringObject (s : string) (props : list (string * string))
| DObject (props : list (string * string)).

(** [data?.key], for a key that is not a built-in property of strings;
    [None] is [undefined]. *)
Definition data_prop (key : string) (d : nodedata) : option string :=
  match d with
  | DUndefined => None
  | DString _ => None
  | DStringObject _ props => JsObject.get key props
  | DObject props => JsObject.get key props
  end.

Definition assign_props (source target : list (string * string)) : list (string * string) :=
  fold_left (fun o kv => JsObject.set (fst kv) (snd kv) o) source target.

(** [Object.assign(target, source)]: the target is converted to an object
    (a primitive string is wrapped) and receives the source's properties. *)
Definition Object_assign (target : nodedata) (source : list (string * string))
  : result nodedata :=
  match target with
  | DUndefined => Throw (TypeError "Cannot convert undefined or null to object")
  | DString s => Ok (DStringObject s (assign_props source []))
  | DStringObject s props => Ok (DStringObject s (assign_props source props))
  | DObject props => Ok (DObject (assign_props source props))
  end.

(** ** The directed graph store *)

Module DepGraph.

(** Modelled from the spec: the Directed Graph Store of section 4.1. It is
    the [DepGraph] class of the [dependency-graph] package, which the source
    imports and which is not among the source files. The three maps are
    the fields the persistence code of the source reads and writes by name;
    edge lists are arrays. *)
Record t : Type := mk {
  nodes : list (name * nodedata);
  outgoingEdges : list (name * list name);
  incomingEdges : list (name * list name);
  circular : bool
}.

(** Modelled from the spec: [new DepGraph({ circular })], the empty graph. *)
Definition create (circ : bool) : t :=
  {| nodes := []; outgoingEdges := []; incomingEdges := []; circular := circ |}.

(** Modelled from the spec: [hasNode(node)] of the graph store. *)
Definition hasNode (g : t) (node : name) : bool := JsMap.has node (nodes g).

(** Modelled from the spec: [addNode(node, data?)] of the graph store.
    [addNode(node)] stores the node itself as data, [addNode(node, data)] the
    data; an existing node is left alone. *)
Definition addNode (g : t) (node : name) (data : option nodedata) : t :=
  if hasNode g node then g
  else
    let d := match data with
             | Some d => d
             | None => match node with Some s => DString s | None => DUndefined end
             end in
    {| nodes := JsMap.set node d (nodes g);
       outgoingEdges := JsMap.set node [] (outgoingEdges g);
       incomingEdges := JsMap.set node [] (incomingEdges g);
       circular := circular g |}.

(** [idx = v.indexOf(node); if (idx >= 0) v.splice(idx, 1)] on every edge
    list [v] of a map. *)
Definition remove_from_lists (node : name) (m : list (name * list name))
  : list (name * list name) :=
  List.map (fun kv => (fst kv, JsArray.remove_first name_eqb node (snd kv))) m.

(** Modelled from the spec: [removeNode(node)] of the graph store. The node
    leaves the three maps and every edge list. *)
Definition removeNode (g : t) (node : name) : t :=
  if hasNode g node then
    {| nodes := JsMap.delete node (nodes g);
       outgoingEdges := remove_from_lists node (JsMap.delete node (outgoingEdges g));
       incomingEdges := remove_from_lists node (JsMap.delete node (incomingEdges g));
       circular := circular g |}
  else g.

(** The error of the graph store for a node it does not hold. *)
Definition node_missing {A : Type} (node : name) : result A :=
  Throw (Error (String.append "Node does not exist: " (name_to_string node))).

(** Modelled from the spec: [getNodeData(node)] of the graph store. *)
Definition getNodeData (g : t) (node : name) : result nodedata :=
  match JsMap.get node (nodes g) with
  | Some d => Ok d
  | None => node_missing node
  end.

(** Modelled from the spec: [setNodeData(node, data)] of the graph store. *)
Definition setNodeData (g : t) (node : name) (data : nodedata) : result t :=
  if hasNode g node then
    Ok {| nodes := JsMap.set node data (nodes g);
          outgoingEdges := outgoingEdges g;
          incomingEdges := incomingEdges g;
          circular := circular g |}
  else node_missing node.

(** [edges.get(node)], whose result the callers use as an array. *)
Definition edges_of (node : name) (edges : list (name * list name))
  : result (list name) :=
  match JsMap.get node edges with
  | Some l => Ok l
  | None => Throw (TypeError "Cannot read properties of undefined")
  end.

(** Modelled from the spec: [addDependency(from, to)] of the graph store.
    Both nodes must exist; the edge is recorded once in each direction. *)
Definition addDependency (g : t) (from to : name) : result t :=
  if negb (hasNode g from) then node_missing from
  else if negb (hasNode g to) then node_missing to
  else
    out <- edges_of from (outgoingEdges g) ;;
    let outgoing := JsMap.set from (JsArray.push_unique name_eqb to out) (outgoingEdges g) in
    inc <- edges_of to (incomingEdges g) ;;
    let incoming := JsMap.set to (JsArray.push_unique name_eqb from inc) (incomingEdges g) in
    Ok {| nodes := nodes g; outgoingEdges := outgoing;
          incomingEdges := incoming; circular := circular g |}.

(** Modelled from the spec: [removeDependency(from, to)] of the graph
    store. *)
Definition removeDependency (g : t) (from to : name) : result t :=
  outgoing <-
    (if hasNode g from then
       out <- edges_of from (outgoingEdges g) ;;
       Ok (JsMap.set from (JsArray.remove_first name_eqb to out) (outgoingEdges g))
     else Ok (outgoingEdges g)) ;;
  incoming <-
    (if hasNode g to then
       inc <- edges_of to (incomingEdges g) ;;
       Ok (JsMap.set to (JsArray.remove_first name_eqb from inc) (incomingEdges g))
     else Ok (incomingEdges g)) ;;
  Ok {| nodes := nodes g; outgoingEdges := outgoing;
        incomingEdges := incoming; circular := circular g |}.

(** Modelled from the spec: [directDependenciesOf(node)], a copy of the
    outgoing edges of the node. *)
Definition directDependenciesOf (g : t) (node : name) : result (list name) :=
  if hasNode g node then edges_of node (outgoingEdges g) else node_missing node.

(** Modelled from the spec: [directDependantsOf(node)], a copy of the
    incoming edges of the node. *)
Definition directDependantsOf (g : t) (node : name) : result (list name) :=
  if hasNode g node then edges_of node (incomingEdges g) else node_missing node.

(** *** Depth-first search

    Modelled from the spec: the ordering helper of the graph store, an
    iterative depth-first search with an explicit stack. [todo] is the
    stack, top first, of pairs of a node and its [processed] flag;
    [inCurrentPath] the nodes being visited; [visited] and [result] are
    shared by all searches started from one [createDFS]. The edges of a
    node are pushed so that the first edge is on top. With [circular] set,
    a node met again on the current path is skipped. *)
Fixpoint dfs_loop (fuel : nat) (edges : list (name * list name)) (circ : bool)
         (todo : list (name * bool)) (inCurrentPath visited res : list name)
  : result (list name * list name) :=
  match fuel with
  | O => Throw OutOfFuel
  | S fuel' =>
      match todo with
      | [] => Ok (visited, res)
      | (node, false) :: rest =>
          if JsArray.includes name_eqb node visited then
            dfs_loop fuel' edges circ rest inCurrentPath visited res
          else if JsArray.includes name_eqb node inCurrentPath then
            if circ then dfs_loop fuel' edges circ rest inCurrentPath visited res
            else Throw (Error "Dependency Cycle Found")
          else
            match JsMap.get node edges with
            | None => Throw (TypeError "Cannot read properties of undefined")
            | Some nodeEdges =>
                dfs_loop fuel' edges circ
                  (List.map (fun n => (n, false)) nodeEdges ++ (node, true) :: rest)
                  (node :: inCurrentPath) visited res
            end
      | (node, true) :: rest =>
          dfs_loop fuel' edges circ rest
            (JsArray.remove_all name_eqb node inCurrentPath)
            (node :: visited) (res ++ [node])
      end
  end.

(** The number of entries in all edge lists. *)
Definition edge_count (edges : list (name * list name)) : nat :=
  list_sum (List.map (fun kv => List.length (snd kv)) edges).

(** Iterations that one search can need: every stack entry is looked at
    at most twice and at most one entry per edge is pushed.
    [dfs_loop_terminates] shows the bound is never hit. *)
Definition dfs_fuel (edges : list (name * list name)) : nat :=
  3 + 2 * edge_count edges.

(** Modelled from the spec: one call of the function [createDFS] returns,
    on the shared [(visited, result)]. *)
Definition DFS (edges : list (name * list name)) (circ : bool)
           (st : list name * list name) (start : name)
  : result (list name * list name) :=
  let '(visited, res) := st in
  if JsArray.includes name_eqb start visited then Ok st
  else dfs_loop (dfs_fuel edges) edges circ [(start, false)] [] visited res.

(** What one search from a node reaches, the node itself removed. *)
Definition closure_of (g : t) (edges : list (name * list name)) (node : name)
  : result (list name) :=
  if hasNode g node then
    '(_, res) <- DFS edges (circular g) ([], []) node ;;
    Ok (JsArray.remove_first name_eqb node res)
  else node_missing node.

(** Modelled from the spec: [dependenciesOf(node)], the transitive closure
    of "depends on". *)
Definition dependenciesOf (g : t) (node : name) : result (list name) :=
  closure_of g (outgoingEdges g) node.

(** Modelled from the spec: [dependantsOf(node)], the transitive closure of
    the reverse relation. *)
Definition dependantsOf (g : t) (node : name) : result (list name) :=
  closure_of g (incomingEdges g) node.

(** Modelled from the spec: [overallOrder()] of the graph store. Searches
    start from the nodes nothing depends on, in insertion order; with
    [circular] set, the nodes not reached that way are searched next. A
    graph that does not allow cycles is first checked for them. *)
Definition overallOrder (g : t) : result (list name) :=
  let keys := JsMap.keys (nodes g) in
  match keys with
  | [] => Ok []
  | _ =>
      _ <- (if circular g then Ok ([], [])
            else forOf keys (DFS (outgoingEdges g) false) ([], [])) ;;
      starts <- forOf keys
                  (fun acc node =>
                     inc <- edges_of node (incomingEdges g) ;;
                     Ok (match inc with [] => acc ++ [node] | _ => acc end))
                  [] ;;
      st <- forOf starts (DFS (outgoingEdges g) (circular g)) ([], []) ;;
      if circular g then
        let remaining :=
          filter (fun node => negb (JsArray.includes name_eqb node (snd st))) keys in
        '(_, res) <- forOf remaining (DFS (outgoingEdges g) true) st ;;
        Ok res
      else Ok (snd st)
  end.

(** *** Reading a graph state *)

(** The edge list a map holds for a node, empty when it holds none. *)
Definition edge_list (edges : list (name * list name)) (node : name) : list name :=
  match JsMap.get node edges with
  | Some l => l
  | None => []
  end.

(** The edge [from -> to] is recorded, in both directions. *)
Definition has_edge (g : t) (from to : name) : bool :=
  JsArray.includes name_eqb to (edge_list (outgoingEdges g) from)
  && JsArray.includes name_eqb from (edge_list (incomingEdges g) to).

Fixpoint names_eqb (l1 l2 : list name) : bool :=
  match l1, l2 with
  | [], [] => true
  | x :: r1, y :: r2 => name_eqb x y && names_eqb r1 r2
  | _, _ => false
  end.

Definition data_ok (kv : name * nodedata) : bool :=
  match kv with
  | (Some _, DUndefined) => false
  | _ => true
  end.

(** The state every operation of the store keeps: the three maps have the
    same keys in the same order, and only the node [undefined] can carry
    the data [undefined]. *)
Definition consistent (g : t) : bool :=
  names_eqb (JsMap.keys (nodes g)) (JsMap.keys (outgoingEdges g))
  && names_eqb (JsMap.keys (nodes g)) (JsMap.keys (incomingEdges g))
  && forallb data_ok (nodes g).

End DepGraph.

(** ** JavaScript values handed to the public operations *)

(** The values a caller can pass where a node is expected. Numbers are the
    integral ones (only their truthiness and text matter here). An object is
    described by what the code can observe of it: [toString] is [None] when
    ["toString" in node] is false, [Some (Ok r)] when [node.toString()]
    returns [r] and [Some (Throw e)] when that call throws [e]; [text] is
    the string that [("" + node)] evaluates to, or [None] when that
    conversion throws. *)
#[warnings="-register-all"]
Inductive jsval : Type :=
| JSUndefined
| JSNull
| JSBoolean (b : bool)
| JSNumber (z : Z)
| JSNaN
| JSBigInt (z : Z)
| JSSymbol
| JSString (s : string)
| JSObject (toString : option (result jsval)) (text : option string).

Definition truthy (v : jsval) : bool :=
  match v with
  | JSUndefined | JSNull | JSNaN => false
  | JSBoolean b => b
  | JSNumber z | JSBigInt z => negb (Z.eqb z 0)
  | JSSymbol => true
  | JSString s => negb (String.eqb s "")
  | JSObject _ _ => true
  end.

Definition string_of_Z (z : Z) : string := NilZero.string_of_int (Z.to_int z).

(** The text that string concatenation makes of a value. *)
Definition to_text (v : jsval) : result string :=
  match v with
  | JSUndefined => Ok "undefined"
  | JSNull => Ok "null"
  | JSBoolean true => Ok "true"
  | JSBoolean false => Ok "false"
  | JSNumber z => Ok (string_of_Z z)
  | JSNaN => Ok "NaN"
  | JSBigInt z => Ok (string_of_Z z)
  | JSSymbol => Throw (TypeError "Cannot convert a Symbol value to a string")
  | JSString s => Ok s
  | JSObject _ (Some s) => Ok s
  | JSObject _ None => Throw (TypeError "Cannot convert object to primitive value")
  end.

(** [typeof v === "string"] *)
Definition is_string (v : jsval) : bool :=
  match v with
  | JSString _ => true
  | _ => false
  end.

(** A value is string-convertible when it has a [toString] that gives a
    string. *)
Definition string_convertible (v : jsval) : bool :=
  match v with
  | JSObject (Some (Ok (JSString _))) _ => true
  | _ => false
  end.

Definition of_name (n : name) : jsval :=
  match n with
  | Some s => JSString s
  | None => JSUndefined
  end.

(** ** The collaborators of the map *)

(** The path normalizer and the import spider are other modules of the
    repository ([Util/PathNormalizer.js], [Util/JavaScriptDependencies.js]);
    the map is verified for any behaviour of theirs. *)
Class Host : Type := {
  (** [PathNormalizer.fullNormalization], on strings *)
  fullNormalization : string -> string;
  (** [JavaScriptDependencies.getDependencies(files, isEsm)], awaited *)
  JavaScriptDependencies_getDependencies : list string -> option bool -> list jsval
}.

(** What the map reads of the template configuration it was given. *)
Record TemplateConfig : Type := {
  (** [Object.keys(userConfig.getCollections())] *)
  userConfig_getCollections_keys : list string;
  shouldSpiderJavaScriptDependencies : bool
}.

(** The result of [getDependantsFor]: a [Set] on the early returns, the
    array of the graph store otherwise. *)
Inductive dependants : Type :=
| AsSet (l : list name)
| AsArray (l : list name).

Definition dependants_list (d : dependants) : list name :=
  match d with
  | AsSet l => l
  | AsArray l => l
  end.

(** ** JSON documents *)

(** The text [JSON.stringify] returns is represented by the document it
    denotes, members in the order they are written. *)
#[warnings="-register-all"]
Inductive json : Type :=
| JNull
| JBool (b : bool)
| JStr (s : string)
| JArr (items : list json)
| JObj (members : list (string * json)).

(** ** The dependency map: [class GlobalDependencyMap] *)

Module GlobalDependencyMap.

Definition LAYOUT_KEY : string := "layout".
Definition COLLECTION_PREFIX : string := "__collection:".
Definition CONFIGAPI_DATA_KEY : string := "[configapi]".
Definition SPECIAL_ALL_COLLECTION_NAME : string := "all".
Definition SPECIAL_KEYS_COLLECTION_NAME : string := "[keys]".

(** The fields of an instance. [_map] is [None] until the [map] getter
    first creates the graph. *)
Record t : Type := mk {
  _map : option DepGraph.t;
  isEsm : option bool;
  templateConfig : option TemplateConfig;
  cachedUserConfigurationCollectionApiNames : option (list string)
}.

(** [new GlobalDependencyMap()] *)
Definition create : t :=
  {| _map := None; isEsm := None; templateConfig := None;
     cachedUserConfigurationCollectionApiNames := None |}.

(** [get map()]: the graph, created with [{ circular: true }] on first use. *)
Definition map (s : t) : DepGraph.t :=
  match _map s with
  | Some g => g
  | None => DepGraph.create true
  end.

(** [set map(graph)] *)
Definition set_map (s : t) (graph : DepGraph.t) : t :=
  {| _map := Some graph; isEsm := isEsm s; templateConfig := templateConfig s;
     cachedUserConfigurationCollectionApiNames :=
       cachedUserConfigurationCollectionApiNames s |}.

Definition reset (s : t) : t :=
  {| _map := None; isEsm := isEsm s; templateConfig := templateConfig s;
     cachedUserConfigurationCollectionApiNames :=
       cachedUserConfigurationCollectionApiNames s |}.

Definition setIsEsm (s : t) (b : bool) : t :=
  {| _map := _map s; isEsm := Some b; templateConfig := templateConfig s;
     cachedUserConfigurationCollectionApiNames :=
       cachedUserConfigurationCollectionApiNames s |}.

(** The assignment of [setTemplateConfig]; its event subscription is the
    call of [addLayoutsToMap] by the host. *)
Definition setTemplateConfig (s : t) (c : TemplateConfig) : t :=
  {| _map := _map s; isEsm := isEsm s; templateConfig := Some c;
     cachedUserConfigurationCollectionApiNames :=
       cachedUserConfigurationCollectionApiNames s |}.

Definition setCollectionApiNames (s : t) (names : list string) : t :=
  {| _map := _map s; isEsm := isEsm s; templateConfig := templateConfig s;
     cachedUserConfigurationCollectionApiNames := Some names |}.

(** [get userConfigurationCollectionApiNames()] *)
Definition userConfigurationCollectionApiNames (s : t) : result (list string) :=
  match cachedUserConfigurationCollectionApiNames s with
  | Some names => Ok names
  | None =>
      match templateConfig s with
      | Some c => Ok (userConfig_getCollections_keys c)
      | None => Throw (TypeError "Cannot read properties of undefined (reading 'userConfig')")
      end
  end.

(** [this.#templateConfig?.shouldSpiderJavaScriptDependencies()] *)
Definition spidersJavaScriptDependencies (s : t) : bool :=
  match templateConfig s with
  | Some c => shouldSpiderJavaScriptDependencies c
  | None => false
  end.

Definition isTag (entry : name) : result bool :=
  match entry with
  | Some e => Ok (String.prefix COLLECTION_PREFIX e)
  | None => Throw (TypeError "Cannot read properties of undefined (reading 'startsWith')")
  end.

(** [s.slice(n)] *)
Definition string_slice (n : nat) (s : string) : string :=
  String.substring n (String.length s - n) s.

(** [None] is the [undefined] a non-tag entry gives. *)
Definition getTagName (entry : name) : result (option string) :=
  tag <- isTag entry ;;
  if tag
  then Ok (Some (string_slice (String.length COLLECTION_PREFIX) (name_to_string entry)))
  else Ok None.

Definition getCollectionKeyForEntry (entry : string) : string :=
  String.append COLLECTION_PREFIX entry.

(** [data?.type === LAYOUT_KEY] *)
Definition is_layout_data (data : nodedata) : bool :=
  match data_prop "type" data with
  | Some ty => String.eqb ty LAYOUT_KEY
  | None => false
  end.

(** [Boolean(x)] for a node name, as in [.filter(Boolean)]. *)
Definition name_truthy (n : name) : bool :=
  match n with
  | Some s => negb (String.eqb s "")
  | None => false
  end.

(** [static removeLayoutNodes(graph, nodeList)] *)
Fixpoint removeLayoutNodes_static (graph : DepGraph.t) (nodeList : list name)
  : result (list name) :=
  match nodeList with
  | [] => Ok []
  | node :: rest =>
      data <- DepGraph.getNodeData graph node ;;
      kept <- removeLayoutNodes_static graph rest ;;
      Ok (if is_layout_data data then kept else node :: kept)
  end.

(** [normalizedLayouts[node]] is truthy: an own key (every value is an
    array) or a key inherited from [Object.prototype]. *)
Definition layouts_lookup_truthy (normalizedLayouts : list (string * list name))
           (node : name) : bool :=
  JsObject.has (name_to_string node) normalizedLayouts
  || existsb (String.eqb (name_to_string node)) JsObject.prototype_keys.

(** [removeLayoutNodes(normalizedLayouts)] *)
Definition removeLayoutNodes (s : t) (normalizedLayouts : list (string * list name))
  : result t :=
  nodes <- DepGraph.overallOrder (map s) ;;
  graph <- forOf nodes
             (fun g node =>
                data <- DepGraph.getNodeData g node ;;
                if negb (is_layout_data data) then Ok g
                else if negb (layouts_lookup_truthy normalizedLayouts node)
                     then Ok (DepGraph.removeNode g node)
                     else Ok g)
             (map s) ;;
  Ok (set_map s graph).

(** [filterOutLayouts(nodes)] *)
Fixpoint filterOutLayouts (s : t) (nodes : list name) : result (list name) :=
  match nodes with
  | [] => Ok []
  | node :: rest =>
      data <- DepGraph.getNodeData (map s) node ;;
      kept <- filterOutLayouts s rest ;;
      Ok (if is_layout_data data then kept else node :: kept)
  end.

(** [filterOutCollections(nodes)] *)
Fixpoint filterOutCollections (nodes : list name) : result (list name) :=
  match nodes with
  | [] => Ok []
  | node :: rest =>
      collection <- isTag node ;;
      kept <- filterOutCollections rest ;;
      Ok (if collection then kept else node :: kept)
  end.

(** [relevantLookup[node] = true] on a plain object: assigning a primitive
    to [__proto__] leaves the object as it is. *)
Definition relevantLookup_set (relevantLookup : list (string * bool)) (node : name)
  : list (string * bool) :=
  if String.eqb (name_to_string node) "__proto__" then relevantLookup
  else JsObject.set (name_to_string node) true relevantLookup.

(** [relevantLookup[node]] is truthy: an own key (every value is [true]) or
    a key inherited from [Object.prototype]. *)
Definition relevantLookup_truthy (relevantLookup : list (string * bool)) (node : name)
  : bool :=
  JsObject.has (name_to_string node) relevantLookup
  || existsb (String.eqb (name_to_string node)) JsObject.prototype_keys.

Section WithHost.
Context {host : Host}.

Definition normalizeNode (node : jsval) : result name :=
  if negb (truthy node) then Ok None
  else
    node <- match node with
            | JSString _ => Ok node
            | JSObject (Some r) _ => r
            | JSObject None _ => Ok node
            | _ => Throw (TypeError "Cannot use 'in' operator to search for 'toString'")
            end ;;
    match node with
    | JSString s => Ok (Some (fullNormalization s))
    | _ =>
        received <- to_text node ;;
        Throw (Error (String.append
                        "`addDependencies` files must be strings. Received:" received))
    end.

(** [#addNode(name, type)] *)
Definition addNode_ (s : t) (n : name) (type : option string) : t :=
  if DepGraph.hasNode (map s) n then s
  else
    match type with
    | Some ty =>
        if negb (String.eqb ty "")
        then set_map s (DepGraph.addNode (map s) n (Some (DObject [("type", ty)])))
        else set_map s (DepGraph.addNode (map s) n None)
    | None => set_map s (DepGraph.addNode (map s) n None)
    end.

(** [#addDependency(from, toArray)]; the arguments are normalized names and
    [toArray] is an array. *)
Definition addDependency_ (s : t) (from : name) (toArray : list name) : result t :=
  let s := addNode_ s from None in
  forOf toArray
    (fun s to =>
       let s := addNode_ s to None in
       if negb (name_eqb from to)
       then g <- DepGraph.addDependency (map s) from to ;; Ok (set_map s g)
       else Ok s)
    s.

Definition addDependency (s : t) (from : jsval) (toArray : list jsval) : result t :=
  from' <- normalizeNode from ;;
  toArray' <- mapM normalizeNode toArray ;;
  addDependency_ s from' toArray'.

Definition addCollectionApiNames (s : t) (names : list string) : result t :=
  match names with
  | [] => Ok s
  | _ =>
      let allKey := getCollectionKeyForEntry SPECIAL_ALL_COLLECTION_NAME in
      forOf names
        (fun s nm =>
           let collectionKey := getCollectionKeyForEntry nm in
           addDependency s (JSString collectionKey) [JSString allKey])
        s
  end.

Definition initializeUserConfigurationApiCollections (s : t) : result t :=
  names <- userConfigurationCollectionApiNames s ;;
  addCollectionApiNames s names.

Definition normalizeLayoutsObject (layouts : list (string * list jsval))
  : result (list (string * list name)) :=
  forOf (JsObject.of_list layouts)
    (fun o kv =>
       let '(rawLayout, entries) := kv in
       layout <- normalizeNode (JSString rawLayout) ;;
       normalized <- mapM normalizeNode entries ;;
       if String.eqb (name_to_string layout) "__proto__"
       then Throw (Unsupported "a layout key that sets the prototype")
       else Ok (JsObject.set (name_to_string layout) normalized o))
    [].

(** [addLayoutsToMap(layouts)], its one suspension point awaited in place. *)
Definition addLayoutsToMap (s : t) (layouts : list (string * list jsval)) : result t :=
  normalizedLayouts <- normalizeLayoutsObject layouts ;;
  s <- removeLayoutNodes s normalizedLayouts ;;
  forOf normalizedLayouts
    (fun s kv =>
       let '(layout, pageTemplates) := kv in
       let data := DObject [("type", LAYOUT_KEY)] in
       g <- (if negb (DepGraph.hasNode (map s) (Some layout))
             then Ok (DepGraph.addNode (map s) (Some layout) (Some data))
             else DepGraph.setNodeData (map s) (Some layout) data) ;;
       s <- forOf pageTemplates
              (fun s pageTemplate =>
                 addDependency s (of_name pageTemplate) [JSString layout])
              (set_map s g) ;;
       if spidersJavaScriptDependencies s
       then addDependency s (JSString layout)
              (JavaScriptDependencies_getDependencies [layout] (isEsm s))
       else Ok s)
    s.

Definition getDependantsFor (s : t) (node : jsval) : result dependants :=
  if negb (truthy node) then Ok (AsSet [])
  else
    node <- normalizeNode node ;;
    if negb (DepGraph.hasNode (map s) node) then Ok (AsSet [])
    else l <- DepGraph.directDependantsOf (map s) node ;; Ok (AsArray l).

Definition hasNode (s : t) (node : jsval) : result bool :=
  node <- normalizeNode node ;;
  Ok (DepGraph.hasNode (map s) node).

(** [findCollectionsRemovedFrom(node, collectionNames)]; the collection
    names are a [Set], given by its elements. A [Set] has no [map] method. *)
Definition findCollectionsRemovedFrom (s : t) (node : jsval) (collectionNames : list string)
  : result (list string) :=
  known <- hasNode s node ;;
  if negb known then Ok []
  else
    deps <- getDependantsFor s node ;;
    match deps with
    | AsSet _ => Throw (TypeError "getDependantsFor(...).map is not a function")
    | AsArray entries =>
        tags <- mapM getTagName entries ;;
        let prevDeps :=
          flat_map (fun tag => match tag with
                               | Some nm => if String.eqb nm "" then [] else [nm]
                               | None => []
                               end) tags in
        let prevDepsSet := JsArray.to_set String.eqb prevDeps in
        Ok (fold_left
              (fun deleted dep =>
                 if negb (JsArray.includes String.eqb dep collectionNames)
                 then JsArray.push_unique String.eqb dep deleted
                 else deleted)
              prevDepsSet [])
    end.

Definition resetNode (s : t) (node : jsval) : result t :=
  node <- normalizeNode node ;;
  if negb (DepGraph.hasNode (map s) node) then Ok s
  else
    deps <- DepGraph.directDependenciesOf (map s) node ;;
    forOf deps
      (fun s dep => g <- DepGraph.removeDependency (map s) node dep ;; Ok (set_map s g))
      s.

(** [getTemplatesThatConsumeCollections(collectionNames)]; the result is a
    [Set], given by its elements in insertion order. *)
Definition getTemplatesThatConsumeCollections (s : t) (collectionNames : list string)
  : result (list name) :=
  forOf collectionNames
    (fun templates nm =>
       let collectionKey := Some (getCollectionKeyForEntry nm) in
       if negb (DepGraph.hasNode (map s) collectionKey) then Ok templates
       else
         nodes <- DepGraph.dependantsOf (map s) collectionKey ;;
         forOf nodes
           (fun templates node =>
              collection <- isTag node ;;
              if collection then Ok templates
              else
                data <- DepGraph.getNodeData (map s) node ;;
                if negb (is_layout_data data)
                then Ok (JsArray.push_unique name_eqb node templates)
                else Ok templates)
           templates)
    [].

Definition getLayoutsUsedBy (s : t) (node : jsval) : result (list name) :=
  node <- normalizeNode node ;;
  if negb (DepGraph.hasNode (map s) node) then Ok []
  else
    data <- DepGraph.getNodeData (map s) node ;;
    let layouts := if is_layout_data data then [node] else [] in
    dependantNodes <- DepGraph.dependantsOf (map s) node ;;
    forOf dependantNodes
      (fun layouts node =>
         data <- DepGraph.getNodeData (map s) node ;;
         Ok (if is_layout_data data then layouts ++ [node] else layouts))
      layouts.

(** [getDependencies(node, includeLayouts)]; [None] is the [false] returned
    for an unknown node. *)
Definition getDependencies (s : t) (node : jsval) (includeLayouts : bool)
  : result (option (list name)) :=
  node <- normalizeNode node ;;
  if negb (DepGraph.hasNode (map s) node) then Ok None
  else if includeLayouts then
    deps <- DepGraph.dependenciesOf (map s) node ;;
    Ok (Some (filter name_truthy deps))
  else
    deps <- DepGraph.dependenciesOf (map s) node ;;
    kept <- removeLayoutNodes_static (map s) deps ;;
    Ok (Some kept).

Definition isUserConfigCollectionName (s : t) (nm : string) : result bool :=
  names <- userConfigurationCollectionApiNames s ;;
  Ok (JsArray.includes String.eqb nm names).

(** [#mergeNodeData(name, newData)] *)
Definition mergeNodeData_ (s : t) (n : name) (newData : list (string * string)) : result t :=
  if DepGraph.hasNode (map s) n then
    old <- DepGraph.getNodeData (map s) n ;;
    merged <- Object_assign old newData ;;
    g <- DepGraph.setNodeData (map s) n merged ;;
    Ok (set_map s g)
  else
    g <- DepGraph.setNodeData (map s) n (DObject newData) ;;
    Ok (set_map s g).

Definition isConfigurationApiConsumer (s : t) (nodeName : name) : result bool :=
  if negb (DepGraph.hasNode (map s) nodeName) then Ok false
  else
    data <- DepGraph.getNodeData (map s) nodeName ;;
    Ok (match data_prop "consumes" data with
        | Some c => String.eqb c CONFIGAPI_DATA_KEY
        | None => false
        end).

Definition addDependencyConsumesCollection (s : t) (from : jsval) (collectionName : string)
  : result t :=
  nodeName <- normalizeNode from ;;
  let collectionKey := getCollectionKeyForEntry collectionName in
  s <- addDependency_ s nodeName [Some collectionKey] ;;
  isApi <- isUserConfigCollectionName s collectionName ;;
  s <- (if isApi
        then mergeNodeData_ s nodeName [("consumes", CONFIGAPI_DATA_KEY)]
        else Ok s) ;;
  let allKey := getCollectionKeyForEntry SPECIAL_ALL_COLLECTION_NAME in
  if String.eqb collectionName SPECIAL_KEYS_COLLECTION_NAME then
    addDependency_ s (Some collectionKey) [Some allKey]
  else if String.eqb collectionName SPECIAL_ALL_COLLECTION_NAME then
    let keysKey := getCollectionKeyForEntry SPECIAL_KEYS_COLLECTION_NAME in
    addDependency_ s (Some collectionKey) [Some keysKey]
  else
    isApi <- isUserConfigCollectionName s collectionName ;;
    if isApi then addDependency_ s (Some collectionKey) [Some allKey] else Ok s.

Definition addDependencyPublishesToCollection (s : t) (from : jsval) (collectionName : string)
  : result t :=
  normalizedFrom <- normalizeNode from ;;
  let key := getCollectionKeyForEntry collectionName in
  s <- (if String.eqb collectionName SPECIAL_ALL_COLLECTION_NAME
        then
          consumer <- isConfigurationApiConsumer s normalizedFrom ;;
          if consumer then Ok s else addDependency_ s (Some key) [normalizedFrom]
        else addDependency_ s (Some key) [normalizedFrom]) ;;
  isApi <- isUserConfigCollectionName s collectionName ;;
  if negb isApi then
    let keysKey := getCollectionKeyForEntry SPECIAL_KEYS_COLLECTION_NAME in
    addDependency_ s (Some keysKey) [Some key]
  else Ok s.

(** The text [Array.prototype.join] makes of an element. *)
Definition join_text (n : name) : string :=
  match n with
  | Some s => s
  | None => ""
  end.

Definition getTemplateOrder (s : t) : result (list name) :=
  order <- DepGraph.overallOrder (map s) ;;
  let allKey := Some (getCollectionKeyForEntry SPECIAL_ALL_COLLECTION_NAME) in
  let order := if negb (name_eqb (List.last order None) allKey)
               then order ++ [allKey] else order in
  if String.eqb (String.concat "," (List.map join_text (JsArray.slice_last 3 order)))
                "__collection:all,__collection:[keys],__collection:all"
  then Ok (JsArray.slice_but_last 2 order)
  else Ok order.

(** [hasDependency(from, to, includeLayouts)]; [includeLayouts] is [None]
    when the caller leaves it out, and [getDependencies] then takes its
    default, [true]. *)
Definition hasDependency (s : t) (from to : jsval) (includeLayouts : option bool)
  : result bool :=
  to <- normalizeNode to ;;
  deps <- getDependencies s from (match includeLayouts with
                                  | Some b => b
                                  | None => true
                                  end) ;;
  match deps with
  | None => Ok false
  | Some deps => Ok (JsArray.includes name_eqb to deps)
  end.

Definition isFileRelevantTo (s : t) (fullTemplateInputPath comparisonFile : jsval)
           (includeLayouts : option bool) : result bool :=
  fullTemplateInputPath <- normalizeNode fullTemplateInputPath ;;
  comparisonFile <- normalizeNode comparisonFile ;;
  if negb (name_truthy comparisonFile) then Ok false
  else if name_eqb fullTemplateInputPath comparisonFile then Ok true
  else hasDependency s (of_name fullTemplateInputPath) (of_name comparisonFile)
         includeLayouts.

Definition isFileUsedBy (s : t) (parent child : jsval) (includeLayouts : option bool)
  : result bool :=
  hasDependency s parent child includeLayouts.

(** [getTemplatesRelevantToTemplateList(templatePaths)].
    [TemplatePath_stripLeadingDotSlash] is the function of that name of the
    package [@11ty/eleventy-utils]; the operation is verified for any
    behaviour of it. *)
Definition getTemplatesRelevantToTemplateList
           (TemplatePath_stripLeadingDotSlash : jsval -> result jsval)
           (s : t) (templatePaths : list jsval) : result (list name) :=
  overallOrder <- DepGraph.overallOrder (map s) ;;
  overallOrder <- filterOutLayouts s overallOrder ;;
  overallOrder <- filterOutCollections overallOrder ;;
  relevantLookup <-
    forOf templatePaths
      (fun relevantLookup inputPath =>
         inputPath <- TemplatePath_stripLeadingDotSlash inputPath ;;
         deps <- getDependencies s inputPath false ;;
         match deps with
         | None => Ok relevantLookup
         | Some deps =>
             paths <- filterOutCollections deps ;;
             Ok (fold_left relevantLookup_set paths relevantLookup)
         end)
      [] ;;
  Ok (filter (relevantLookup_truthy relevantLookup) overallOrder).

End WithHost.

(** *** Persistence *)

(** What [JSON.stringify] writes for a node's data: nothing for
    [undefined], and the primitive string for a [String] object, whose own
    properties are not written. *)
Definition data_to_json (d : nodedata) : option json :=
  match d with
  | DUndefined => None
  | DString s => Some (JStr s)
  | DStringObject s _ => Some (JStr s)
  | DObject props => Some (JObj (List.map (fun kv => (fst kv, JStr (snd kv))) props))
  end.

Definition name_to_json (n : name) : json :=
  match n with
  | Some s => JStr s
  | None => JNull
  end.

(** The replacer of [stringify]: a [Map] becomes the plain object that
    [obj[k] = v] builds from its entries. *)
Definition replacer {V : Type} (value : list (name * V)) : result (list (string * V)) :=
  forOf value
    (fun obj kv =>
       if String.eqb (name_to_string (fst kv)) "__proto__"
       then Throw (Unsupported "a node name that sets the prototype")
       else Ok (JsObject.set (name_to_string (fst kv)) (snd kv) obj))
    [].

(** The members [JSON.stringify] writes for an object: those whose value
    is not [undefined], in property order. *)
Definition json_members {V : Type} (enc : V -> option json) (obj : list (string * V))
  : list (string * json) :=
  flat_map (fun kv => match enc (snd kv) with
                      | Some j => [(fst kv, j)]
                      | None => []
                      end) obj.

Definition stringify (s : t) : result json :=
  let g := map s in
  nodes <- replacer (DepGraph.nodes g) ;;
  outgoing <- replacer (DepGraph.outgoingEdges g) ;;
  incoming <- replacer (DepGraph.incomingEdges g) ;;
  let edges := fun l => Some (JArr (List.map name_to_json l)) in
  Ok (JObj [ ("nodes", JObj (json_members data_to_json nodes));
             ("outgoingEdges", JObj (json_members edges outgoing));
             ("incomingEdges", JObj (json_members edges incoming));
             ("circular", JBool (DepGraph.circular g)) ]).

(** The values [restore] is modelled for: node data that is a string or an
    object of strings, edge lists that are arrays of strings. *)
Definition json_to_data (j : json) : result nodedata :=
  match j with
  | JStr s => Ok (DString s)
  | JObj members =>
      props <- mapM (fun kv => match snd kv with
                               | JStr v => Ok (fst kv, v)
                               | _ => Throw (Unsupported "node data with a member that is not a string")
                               end) members ;;
      Ok (DObject (JsObject.of_list props))
  | _ => Throw (Unsupported "node data that is neither a string nor an object")
  end.

Definition json_to_edges (j : json) : result (list name) :=
  match j with
  | JArr items =>
      mapM (fun i => match i with
                     | JStr n => Ok (Some n)
                     | _ => Throw (Unsupported "an edge that is not a string")
                     end) items
  | _ => Throw (Unsupported "edges that are not an array")
  end.

(** The enumerable properties [for (let k in value)] visits. *)
Definition for_in_members (value : json) : result (list (string * json)) :=
  match value with
  | JObj members => Ok (JsObject.of_list members)
  | JNull | JBool _ => Ok []
  | JStr s => if String.eqb s "" then Ok [] else Throw (Unsupported "members of a string")
  | JArr [] => Ok []
  | JArr _ => Throw (Unsupported "members of an array")
  end.

(** [for (let k in obj[key]) { map.set(k, v) }] on the map [graph[key]]. *)
Definition restore_map {V : Type} (dec : json -> result V) (members : list (string * json))
           (m : list (name * V)) : result (list (name * V)) :=
  forOf members
    (fun m kv => v <- dec (snd kv) ;; Ok (JsMap.set (Some (fst kv)) v m))
    m.

Definition restore (s : t) (persisted : json) : result t :=
  match persisted with
  | JObj top =>
      graph <- forOf (JsObject.of_list top)
                 (fun graph kv =>
                    let '(key, value) := kv in
                    members <- for_in_members value ;;
                    match members with
                    | [] => Ok graph
                    | _ =>
                        if String.eqb key "nodes" then
                          m <- restore_map json_to_data members (DepGraph.nodes graph) ;;
                          Ok (DepGraph.mk m (DepGraph.outgoingEdges graph)
                                (DepGraph.incomingEdges graph) (DepGraph.circular graph))
                        else if String.eqb key "outgoingEdges" then
                          m <- restore_map json_to_edges members (DepGraph.outgoingEdges graph) ;;
                          Ok (DepGraph.mk (DepGraph.nodes graph) m
                                (DepGraph.incomingEdges graph) (DepGraph.circular graph))
                        else if String.eqb key "incomingEdges" then
                          m <- restore_map json_to_edges members (DepGraph.incomingEdges graph) ;;
                          Ok (DepGraph.mk (DepGraph.nodes graph) (DepGraph.outgoingEdges graph)
                                m (DepGraph.circular graph))
                        else Throw (TypeError "map.set is not a function")
                    end)
                 (DepGraph.create true) ;;
      Ok (set_map s graph)
  | _ => Throw (Unsupported "a document that is not an object")
  end.

End GlobalDependencyMap.

(** ** A host for the examples *)

(** [path.replace(/^\.\//, "")], what the normalizer does to a path that is
    already relative and written with forward slashes. *)
Definition stripLeadingDotSlash (path : string) : string :=
  if String.prefix "./" path then GlobalDependencyMap.string_slice 2 path else path.

(** The host of the examples: paths are relative and written with forward
    slashes, and layouts import nothing. *)
Definition exampleHost : Host :=
  {| fullNormalization := stripLeadingDotSlash;
     JavaScriptDependencies_getDependencies := fun _ _ => [] |}.

(** * The vocabulary of the properties *)

(** ** What the operations keep and change *)

Module Invariants.
Import DepGraph GlobalDependencyMap.

(** The three maps of a graph have the same keys in the same order. *)
Definition same_keys (g : DepGraph.t) : Prop :=
  JsMap.keys (nodes g) = JsMap.keys (outgoingEdges g)
  /\ JsMap.keys (nodes g) = JsMap.keys (incomingEdges g).

Definition data_defined (g : DepGraph.t) : Prop :=
  forall s d, In (Some s, d) (nodes g) -> d <> DUndefined.

(** The fields of an instance other than the graph. *)
Definition config (s : GlobalDependencyMap.t) : option bool * option TemplateConfig * option (list string) :=
  (isEsm s, templateConfig s, cachedUserConfigurationCollectionApiNames s).

Definition outs (s : GlobalDependencyMap.t) (k : name) : list name :=
  edge_list (outgoingEdges (map s)) k.

Definition ins (s : GlobalDependencyMap.t) (k : name) : list name :=
  edge_list (incomingEdges (map s)) k.

(** The data [addNode(name)] gives a new node. *)
Definition default_data (k : name) : nodedata :=
  match k with
  | Some s => DString s
  | None => DUndefined
  end.

(** What every edge-creating step keeps of the state it starts from. *)
Record extends (s s' : GlobalDependencyMap.t) : Prop := {
  ext_consistent : consistent (map s') = true;
  ext_config : config s' = config s;
  ext_circular : circular (map s') = circular (map s);
  ext_nodes : forall k, DepGraph.hasNode (map s) k = true -> DepGraph.hasNode (map s') k = true;
  ext_data : forall k d, JsMap.get k (nodes (map s)) = Some d ->
                         JsMap.get k (nodes (map s')) = Some d;
  ext_new : forall k, DepGraph.hasNode (map s) k = false -> DepGraph.hasNode (map s') k = true ->
                      JsMap.get k (nodes (map s')) = Some (default_data k)
}.

(** The effect of [#addDependency(from, [to])]. *)
Record added (s s' : GlobalDependencyMap.t) (from to : name) : Prop := {
  add_extends : extends s s';
  add_has : forall k, DepGraph.hasNode (map s') k
                      = DepGraph.hasNode (map s) k || name_eqb k from || name_eqb k to;
  add_out : forall k, outs s' k
                      = if name_eqb k from && negb (name_eqb from to)
                        then JsArray.push_unique name_eqb to (outs s from)
                        else outs s k;
  add_in : forall k, ins s' k
                     = if name_eqb k to && negb (name_eqb from to)
                       then JsArray.push_unique name_eqb from (ins s to)
                       else ins s k
}.

(** The body of the loop of [#addDependency]. *)
Definition add_one (from : name) (s : GlobalDependencyMap.t) (to : name)
  : result GlobalDependencyMap.t :=
  let s := addNode_ s to None in
  if negb (name_eqb from to)
  then g <- DepGraph.addDependency (map s) from to ;; Ok (set_map s g)
  else Ok s.

(** The effect of [#mergeNodeData(name, newData)] on a node of the graph. *)
Record merged (s s' : GlobalDependencyMap.t) (n : name) (d d' : nodedata) : Prop := {
  mrg_consistent : DepGraph.consistent (map s') = true;
  mrg_config : config s' = config s;
  mrg_outgoing : DepGraph.outgoingEdges (map s') = DepGraph.outgoingEdges (map s);
  mrg_incoming : DepGraph.incomingEdges (map s') = DepGraph.incomingEdges (map s);
  mrg_has : forall k, DepGraph.hasNode (map s') k = DepGraph.hasNode (map s) k;
  mrg_node : JsMap.get n (DepGraph.nodes (map s')) = Some d';
  mrg_others : forall k, k <> n ->
      JsMap.get k (DepGraph.nodes (map s')) = JsMap.get k (DepGraph.nodes (map s))
}.

(** The body of the loop of [resetNode]. *)
Definition remove_one (n : name) (s : GlobalDependencyMap.t) (dep : name)
  : result GlobalDependencyMap.t :=
  g <- DepGraph.removeDependency (map s) n dep ;; Ok (set_map s g).

(** A dependant that is a string and not a collection node. *)
Definition plain_node (e : name) : bool :=
  match e with
  | Some str => negb (String.prefix COLLECTION_PREFIX str)
  | None => false
  end.

End Invariants.

(** ** The measure of a search *)

Module SearchMeasure.

(** A node is marked once a search has met it. *)
Definition marked (inCurrentPath visited : list name) (k : name) : bool :=
  JsArray.includes name_eqb k visited || JsArray.includes name_eqb k inCurrentPath.

(** The edges of the nodes that are not marked yet. *)
Fixpoint unvisited_edges (m : name -> bool) (edges : list (name * list name)) : nat :=
  match edges with
  | [] => 0
  | (k, l) :: r => (if m k then 0 else List.length l) + unvisited_edges m r
  end.

(** An entry of the stack is looked at twice before it is [processed], once
    after. *)
Fixpoint stack_weight (todo : list (name * bool)) : nat :=
  match todo with
  | [] => 0
  | (_, true) :: r => 1 + stack_weight r
  | (_, false) :: r => 2 + stack_weight r
  end.

(** The iterations a search still needs, at most. *)
Definition potential (edges : list (name * list name)) (todo : list (name * bool))
           (inCurrentPath visited : list name) : nat :=
  stack_weight todo + 2 * unvisited_edges (marked inCurrentPath visited) edges.

(** Every edge leads to a node the map has an edge list for. *)
Definition closed (edges : list (name * list name)) : bool :=
  forallb (fun kv => forallb (fun x => JsMap.has x edges) (snd kv)) edges.

(** The ways to cut a string in two. *)
Fixpoint splits (p : string) : list (string * string) :=
  (EmptyString, p)
  :: match p with
     | EmptyString => []
     | String c r => List.map (fun ab => (String c (fst ab), snd ab)) (splits r)
     end.

End SearchMeasure.

(** ** States for the examples *)

Module Examples.
Import GlobalDependencyMap.

(** A fresh map for which the configuration API defines the collection
    "posts". *)
Definition withPosts : GlobalDependencyMap.t := setCollectionApiNames create ["posts"].

(** A fresh map for which the configuration API defines no collection. *)
Definition noApiNames : GlobalDependencyMap.t := setCollectionApiNames create [].

(** The state after [addLayoutsToMap({"base.html": []})] on [withPosts]:
    the graph holds the layout base.html. *)
Definition withLayout : GlobalDependencyMap.t :=
  set_map withPosts
    (DepGraph.addNode (DepGraph.create true) (Some "base.html")
       (Some (DObject [("type", LAYOUT_KEY)]))).

End Examples.


(** ** Reachability and the stack of a search *)

Module Reachability.
Import DepGraph.

(** [b] is reached from [a] along one or more edges. *)
Inductive reaches (edges : list (name * list name)) (a : name) : name -> Prop :=
| reaches_edge b : In b (edge_list edges a) -> reaches edges a b
| reaches_step b c : reaches edges a b -> In c (edge_list edges b) -> reaches edges a c.

(** A search has met the node: it is finished or on the current path. *)
Definition seen (inCurrentPath visited : list name) (x : name) : Prop :=
  In x visited \/ In x inCurrentPath.

(** Every edge of a node whose [processed] entry is on the stack leads to a
    node that is seen or that waits above that entry. *)
Fixpoint covered (edges : list (name * list name)) (V Q : name -> Prop)
         (todo : list (name * bool)) : Prop :=
  match todo with
  | [] => True
  | (m, false) :: rest => covered edges V (fun x => Q x \/ x = m) rest
  | (n, true) :: rest =>
      (forall m, In m (edge_list edges n) -> V m \/ Q m) /\ covered edges V Q rest
  end.

(** Everything above a [processed] entry on the stack is the node of that
    entry or is reached from it. [above] are the nodes of the entries
    already passed, from the top. *)
Fixpoint descends (edges : list (name * list name)) (above : list name)
         (todo : list (name * bool)) : Prop :=
  match todo with
  | [] => True
  | (q, false) :: rest => descends edges (q :: above) rest
  | (p, true) :: rest =>
      (forall q, In q above -> q = p \/ reaches edges p q)
      /\ descends edges (p :: above) rest
  end.

(** What holds of the stack, the current path and the visited nodes before
    every iteration of a search. *)
Definition search_inv (edges : list (name * list name)) (todo : list (name * bool))
           (inCurrentPath visited : list name) : Prop :=
  (forall n m, In n visited -> In m (edge_list edges n) -> seen inCurrentPath visited m)
  /\ (forall n, In n inCurrentPath -> In (n, true) todo)
  /\ covered edges (seen inCurrentPath visited) (fun _ => False) todo
  /\ descends edges [] todo.

(** In a result every node comes after the nodes it has an edge to, unless
    the edge lies on a cycle. *)
Definition dependencies_first (edges : list (name * list name)) (res : list name) : Prop :=
  forall l1 n l2 m,
    res = l1 ++ n :: l2 -> In m (edge_list edges n) -> ~ reaches edges m n -> In m l1.

(** The nodes whose [processed] entry is on the stack. *)
Fixpoint finishing (todo : list (name * bool)) : list name :=
  match todo with
  | [] => []
  | (n, true) :: rest => n :: finishing rest
  | (_, false) :: rest => finishing rest
  end.

End Reachability.

(** ** Well-formed graphs *)

Module WellFormed.
Import DepGraph.

(** No name occurs twice. *)
Fixpoint nodup_names (l : list name) : bool :=
  match l with
  | [] => true
  | x :: r => negb (JsArray.includes name_eqb x r) && nodup_names r
  end.

(** Every edge is recorded in both directions: [b] is among the outgoing
    edges of [a] exactly when [a] is among the incoming edges of [b]. *)
Definition mirrored (g : t) : bool :=
  forallb (fun a =>
             forallb (fun b => JsArray.includes name_eqb a (edge_list (incomingEdges g) b))
                     (edge_list (outgoingEdges g) a))
          (JsMap.keys (outgoingEdges g))
  && forallb (fun b =>
                forallb (fun a => JsArray.includes name_eqb b (edge_list (outgoingEdges g) a))
                        (edge_list (incomingEdges g) b))
             (JsMap.keys (incomingEdges g)).

(** No edge list names a node twice. *)
Definition simple_edges (edges : list (name * list name)) : bool :=
  forallb (fun k => nodup_names (edge_list edges k)) (JsMap.keys edges).

(** The states the operations of the graph store produce: the maps agree
    on their keys, a key occurs once, edges are recorded once and in both
    directions. *)
Definition wellFormed (g : t) : bool :=
  consistent g && nodup_names (JsMap.keys (nodes g)) && mirrored g
  && simple_edges (outgoingEdges g) && simple_edges (incomingEdges g).

(** [wellFormed], property by property. *)
Record WF (g : t) : Prop := {
  wf_consistent : consistent g = true;
  wf_keys : NoDup (JsMap.keys (nodes g));
  wf_mirror : forall a b, In b (edge_list (outgoingEdges g) a)
                          <-> In a (edge_list (incomingEdges g) b);
  wf_out : forall k, NoDup (edge_list (outgoingEdges g) k);
  wf_in : forall k, NoDup (edge_list (incomingEdges g) k)
}.

End WellFormed.

(** ** What the queries select *)

Module Queries.
Import DepGraph GlobalDependencyMap.

(** The node is in the graph with data of type "layout". *)
Definition layout_node (g : DepGraph.t) (x : name) : bool :=
  match JsMap.get x (nodes g) with
  | Some d => is_layout_data d
  | None => false
  end.

(** What [getDependencies] keeps of the dependencies of a node: with
    layouts, the names that are truthy; without, the nodes that are no
    layouts. *)
Definition kept_dependency (g : DepGraph.t) (includeLayouts : bool) (x : name) : bool :=
  if includeLayouts then name_truthy x else negb (layout_node g x).

(** The default of [getDependencies] for a missing [includeLayouts]. *)
Definition with_layouts (includeLayouts : option bool) : bool :=
  match includeLayouts with
  | Some b => b
  | None => true
  end.

(** The name is a string, not [undefined]. *)
Definition is_some (n : name) : bool :=
  match n with
  | Some _ => true
  | None => false
  end.

End Queries.

(** ** Graphs that a document holds in full *)

Module Persisted.
Import DepGraph Queries.

(** A key that a plain object keeps where it was created: not an array
    index (those are enumerated first) and not the name of the prototype
    slot. *)
Definition plain_key (k : string) : bool :=
  match JsObject.array_index k with
  | Some _ => false
  | None => negb (String.eqb k "__proto__")
  end.

Fixpoint nodup_keys (l : list string) : bool :=
  match l with
  | [] => true
  | x :: r => negb (JsArray.includes String.eqb x r) && nodup_keys r
  end.

(** The keys of an object that is enumerated in the order it was built. *)
Definition plain_keys (l : list string) : bool :=
  forallb plain_key l && nodup_keys l.

(** Node data that a JSON document holds in full: a string, or an object
    of strings with plain keys. *)
Definition persistable_data (d : nodedata) : bool :=
  match d with
  | DString _ => true
  | DObject props => plain_keys (List.map fst props)
  | DUndefined | DStringObject _ _ => false
  end.

(** A graph that a JSON document holds in full: it allows cycles, its
    nodes are strings that are plain keys, every node carries persistable
    data and every edge leads to a string. *)
Definition persistable (g : t) : bool :=
  circular g
  && forallb is_some (JsMap.keys (nodes g))
  && plain_keys (List.map name_to_string (JsMap.keys (nodes g)))
  && forallb (fun kv => persistable_data (snd kv)) (nodes g)
  && forallb (fun kv => forallb is_some (snd kv)) (outgoingEdges g)
  && forallb (fun kv => forallb is_some (snd kv)) (incomingEdges g).

(** What [stringify] writes for the data of a node. *)
Definition data_json (d : nodedata) : json :=
  match GlobalDependencyMap.data_to_json d with
  | Some j => j
  | None => JNull
  end.

End Persisted.

(** ** More states for the examples *)

Module MoreExamples.
Import GlobalDependencyMap Examples.

(** The graph of the templates a.md and b.md with the edge a.md -> b.md. *)
Definition linkedGraph : DepGraph.t :=
  DepGraph.mk
    [(Some "a.md", DString "a.md"); (Some "b.md", DString "b.md")]
    [(Some "a.md", [Some "b.md"]); (Some "b.md", [])]
    [(Some "a.md", []); (Some "b.md", [Some "a.md"])]
    true.

(** A map with that graph, for which the configuration API defines no
    collection: the state after [addDependency("a.md", ["b.md"])]. *)
Definition linked : GlobalDependencyMap.t := set_map noApiNames linkedGraph.

(** The function [stripLeadingDotSlash] on paths that have no leading
    dot-slash. *)
Definition keepPath (path : jsval) : result jsval := Ok path.

End MoreExamples.

(** * Properties *)

(** ** Names, arrays and maps *)

Lemma name_eqb_spec (a b : name) : reflect (a = b) (name_eqb a b).
Proof.
  destruct a as [x|], b as [y|]; simpl; try (constructor; congruence).
  destruct (String.eqb_spec x y); constructor; congruence.
Qed.

Lemma name_eqb_refl (a : name) : name_eqb a a = true.
Proof. destruct (name_eqb_spec a a); congruence. Qed.

Lemma name_eqb_neq (a b : name) : a <> b -> name_eqb a b = false.
Proof. destruct (name_eqb_spec a b); congruence. Qed.

Lemma name_eqb_sym (a b : name) : name_eqb a b = name_eqb b a.
Proof.
  destruct (name_eqb_spec a b), (name_eqb_spec b a); congruence.
Qed.

Ltac name_cases a b :=
  let E := fresh "E" in
  destruct (name_eqb_spec a b) as [E|E]; [try subst | idtac].

Module JsArrayFacts.

Lemma includes_In (x : name) (l : list name) :
  JsArray.includes name_eqb x l = true <-> In x l.
Proof.
  unfold JsArray.includes. rewrite existsb_exists. split.
  - intros [y [Hy Hxy]]. destruct (name_eqb_spec x y); congruence.
  - intros H. exists x. split; [assumption | apply name_eqb_refl].
Qed.

Lemma includes_push_unique (x y : name) (l : list name) :
  JsArray.includes name_eqb x (JsArray.push_unique name_eqb y l)
  = JsArray.includes name_eqb x l || name_eqb x y.
Proof.
  unfold JsArray.push_unique.
  destruct (JsArray.includes name_eqb y l) eqn:Hy.
  - name_cases x y.
    + rewrite Hy. reflexivity.
    + rewrite orb_false_r. reflexivity.
  - unfold JsArray.includes. rewrite existsb_app. simpl.
    rewrite orb_false_r. reflexivity.
Qed.

Lemma In_push_unique (x y : name) (l : list name) :
  In x (JsArray.push_unique name_eqb y l) <-> In x l \/ x = y.
Proof.
  rewrite <- !includes_In, includes_push_unique, orb_true_iff.
  destruct (name_eqb_spec x y); intuition congruence.
Qed.

Lemma In_remove_first_neq (x y : name) (l : list name) :
  x <> y -> In x l -> In x (JsArray.remove_first name_eqb y l).
Proof.
  intros Hxy. induction l as [|z l IH]; simpl; [tauto|].
  intros [Hz|Hin].
  - subst z. rewrite name_eqb_neq by congruence. left; reflexivity.
  - destruct (name_eqb y z); [assumption | right; auto].
Qed.

(** Removing, one after the other, every element of a copy of a list
    empties the list. *)
Lemma remove_each (l : list name) :
  fold_left (fun m b => JsArray.remove_first name_eqb b m) l l = [].
Proof.
  induction l as [|x l IH]; simpl; [reflexivity|].
  rewrite name_eqb_refl. exact IH.
Qed.

End JsArrayFacts.

Module JsMapFacts.
Section Facts.
Context {V : Type}.
Implicit Types (m : list (name * V)) (k : name) (v : V).

Lemma get_set_same m k v : JsMap.get k (JsMap.set k v m) = Some v.
Proof.
  induction m as [|[k' v'] m IH]; simpl.
  - rewrite name_eqb_refl. reflexivity.
  - destruct (name_eqb k k') eqn:E; simpl; rewrite ?name_eqb_refl, ?E; auto.
Qed.

Lemma get_set_other m k k' v :
  k' <> k -> JsMap.get k' (JsMap.set k v m) = JsMap.get k' m.
Proof.
  intros Hk. induction m as [|[k0 v0] m IH]; simpl.
  - rewrite name_eqb_neq by assumption. reflexivity.
  - destruct (name_eqb_spec k k0) as [->|E]; simpl.
    + rewrite name_eqb_neq by assumption. reflexivity.
    + destruct (name_eqb k' k0); auto.
Qed.

Lemma has_In_keys m k : JsMap.has k m = true <-> In k (JsMap.keys m).
Proof.
  unfold JsMap.has. induction m as [|[k' v'] m IH]; simpl.
  - split; [discriminate | tauto].
  - destruct (name_eqb_spec k k') as [->|E].
    + split; auto.
    + rewrite IH. split; [auto | intros [H|H]; congruence].
Qed.

Lemma keys_set m k v :
  JsMap.keys (JsMap.set k v m)
  = if JsMap.has k m then JsMap.keys m else JsMap.keys m ++ [k].
Proof.
  unfold JsMap.has. induction m as [|[k' v'] m IH]; simpl; [reflexivity|].
  destruct (name_eqb_spec k k') as [->|E]; simpl; [reflexivity|].
  rewrite IH. destruct (JsMap.get k m); reflexivity.
Qed.

Lemma In_set m k v kv :
  In kv (JsMap.set k v m) -> In kv m \/ kv = (k, v).
Proof.
  induction m as [|[k' v'] m IH]; simpl.
  - intros [H|[]]; auto.
  - destruct (name_eqb k k'); simpl; intros [H|H]; auto.
    destruct (IH H); auto.
Qed.

Lemma get_In m k v : JsMap.get k m = Some v -> In (k, v) m.
Proof.
  induction m as [|[k' v'] m IH]; simpl; [discriminate|].
  destruct (name_eqb_spec k k') as [->|E].
  - intros [= ->]. auto.
  - auto.
Qed.

End Facts.

Lemma has_keys_eq {V W : Type} (m : list (name * V)) (m' : list (name * W)) (k : name) :
  JsMap.keys m = JsMap.keys m' -> JsMap.has k m = JsMap.has k m'.
Proof.
  intros H.
  destruct (JsMap.has k m) eqn:E1, (JsMap.has k m') eqn:E2; try reflexivity.
  - apply has_In_keys in E1. rewrite H in E1. apply has_In_keys in E1. congruence.
  - apply has_In_keys in E2. rewrite <- H in E2. apply has_In_keys in E2. congruence.
Qed.

End JsMapFacts.

(** ** The graph store keeps its maps consistent *)

Module DepGraphFacts.
Import DepGraph Invariants SearchMeasure.

Lemma names_eqb_eq (l1 l2 : list name) : names_eqb l1 l2 = true <-> l1 = l2.
Proof.
  revert l2. induction l1 as [|x l1 IH]; intros [|y l2]; simpl;
    try (split; congruence).
  rewrite andb_true_iff, IH. destruct (name_eqb_spec x y); split.
  - intros [_ ->]. congruence.
  - intros [= _ ->]. auto.
  - intros [? _]. discriminate.
  - congruence.
Qed.

Lemma consistent_iff (g : t) :
  consistent g = true <-> same_keys g /\ data_defined g.
Proof.
  unfold consistent, same_keys, data_defined.
  rewrite !andb_true_iff, !names_eqb_eq, forallb_forall. split.
  - intros [[H1 H2] H3]. repeat split; auto.
    intros s d Hin Hd. subst d. specialize (H3 _ Hin). discriminate.
  - intros [[H1 H2] H3]. repeat split; auto.
    intros [[s|] d] Hin; destruct d; simpl; auto.
    exfalso. eapply H3; eauto.
Qed.

Lemma has_outgoing (g : t) (n : name) :
  consistent g = true -> JsMap.has n (outgoingEdges g) = hasNode g n.
Proof.
  intros H. apply consistent_iff in H. destruct H as [[H _] _].
  symmetry. apply JsMapFacts.has_keys_eq. exact H.
Qed.

Lemma has_incoming (g : t) (n : name) :
  consistent g = true -> JsMap.has n (incomingEdges g) = hasNode g n.
Proof.
  intros H. apply consistent_iff in H. destruct H as [[_ H] _].
  symmetry. apply JsMapFacts.has_keys_eq. exact H.
Qed.

Lemma edges_of_has (edges : list (name * list name)) (n : name) :
  JsMap.has n edges = true -> edges_of n edges = Ok (edge_list edges n).
Proof.
  unfold JsMap.has, edges_of, edge_list. destruct (JsMap.get n edges); congruence.
Qed.

Lemma edge_list_set_same edges n l : edge_list (JsMap.set n l edges) n = l.
Proof. unfold edge_list. rewrite JsMapFacts.get_set_same. reflexivity. Qed.

Lemma edge_list_set_other edges n k l :
  k <> n -> edge_list (JsMap.set n l edges) k = edge_list edges k.
Proof. intros H. unfold edge_list. rewrite JsMapFacts.get_set_other; auto. Qed.

Lemma edge_list_set edges n k l :
  edge_list (JsMap.set n l edges) k = if name_eqb k n then l else edge_list edges k.
Proof.
  destruct (name_eqb_spec k n) as [->|E].
  - apply edge_list_set_same.
  - apply edge_list_set_other; assumption.
Qed.

Lemma edge_list_absent edges n : JsMap.has n edges = false -> edge_list edges n = [].
Proof. unfold JsMap.has, edge_list. destruct (JsMap.get n edges); congruence. Qed.

(** *** [addNode] *)

Lemma hasNode_addNode g n d k :
  hasNode (addNode g n d) k = hasNode g k || name_eqb k n.
Proof.
  unfold addNode. destruct (hasNode g n) eqn:Hn.
  - name_cases k n; [rewrite Hn | rewrite orb_false_r]; reflexivity.
  - unfold hasNode, JsMap.has in *. simpl.
    name_cases k n.
    + rewrite JsMapFacts.get_set_same, orb_true_r. reflexivity.
    + rewrite JsMapFacts.get_set_other, orb_false_r by assumption. reflexivity.
Qed.

Lemma nodes_addNode g n d k x :
  JsMap.get k (nodes g) = Some x -> JsMap.get k (nodes (addNode g n d)) = Some x.
Proof.
  intros H. unfold addNode. destruct (hasNode g n) eqn:Hn; [assumption|]. simpl.
  rewrite JsMapFacts.get_set_other; [assumption|].
  intros ->. unfold hasNode, JsMap.has in Hn. rewrite H in Hn. discriminate.
Qed.

Lemma circular_addNode g n d : circular (addNode g n d) = circular g.
Proof. unfold addNode. destruct (hasNode g n); reflexivity. Qed.

Lemma outgoing_addNode g n d k :
  consistent g = true ->
  edge_list (outgoingEdges (addNode g n d)) k = edge_list (outgoingEdges g) k.
Proof.
  intros Hc. unfold addNode. destruct (hasNode g n) eqn:Hn; [reflexivity|]. simpl.
  rewrite edge_list_set. name_cases k n; [|reflexivity].
  symmetry. apply edge_list_absent. rewrite has_outgoing; assumption.
Qed.

Lemma incoming_addNode g n d k :
  consistent g = true ->
  edge_list (incomingEdges (addNode g n d)) k = edge_list (incomingEdges g) k.
Proof.
  intros Hc. unfold addNode. destruct (hasNode g n) eqn:Hn; [reflexivity|]. simpl.
  rewrite edge_list_set. name_cases k n; [|reflexivity].
  symmetry. apply edge_list_absent. rewrite has_incoming; assumption.
Qed.

Lemma consistent_addNode g n d :
  consistent g = true ->
  match d with Some x => data_ok (n, x) = true | None => True end ->
  consistent (addNode g n d) = true.
Proof.
  intros Hc Hd. unfold addNode. destruct (hasNode g n) eqn:Hn; [assumption|].
  pose proof (has_outgoing g n Hc) as Ho. pose proof (has_incoming g n Hc) as Hi.
  apply consistent_iff in Hc. destruct Hc as [[K1 K2] K3].
  apply consistent_iff. unfold same_keys, data_defined. simpl.
  rewrite !JsMapFacts.keys_set, Ho, Hi. fold (hasNode g n). rewrite Hn.
  repeat split; try congruence.
  intros s x Hin. apply JsMapFacts.In_set in Hin. destruct Hin as [Hin|Heq].
  - eapply K3; eauto.
  - inversion Heq; subst. destruct d as [y|]; [|discriminate].
    intros ->. discriminate.
Qed.

(** *** [setNodeData] *)

Lemma setNodeData_ok g n d :
  consistent g = true -> hasNode g n = true -> d <> DUndefined ->
  exists g', setNodeData g n d = Ok g'
    /\ consistent g' = true
    /\ outgoingEdges g' = outgoingEdges g
    /\ incomingEdges g' = incomingEdges g
    /\ circular g' = circular g
    /\ (forall k, hasNode g' k = hasNode g k)
    /\ JsMap.get n (nodes g') = Some d
    /\ (forall k, k <> n -> JsMap.get k (nodes g') = JsMap.get k (nodes g)).
Proof.
  intros Hc Hn Hd. unfold setNodeData. rewrite Hn. eexists. split; [reflexivity|].
  simpl. repeat split.
  - apply consistent_iff in Hc. destruct Hc as [[K1 K2] K3].
    apply consistent_iff. unfold same_keys, data_defined. simpl.
    rewrite JsMapFacts.keys_set. fold (hasNode g n). rewrite Hn.
    repeat split; auto.
    intros s x Hin. apply JsMapFacts.In_set in Hin. destruct Hin as [Hin|Heq].
    + eapply K3; eauto.
    + inversion Heq; subst. assumption.
  - intros k. unfold hasNode, JsMap.has. simpl. name_cases k n.
    + rewrite JsMapFacts.get_set_same. unfold hasNode, JsMap.has in Hn.
      destruct (JsMap.get n (nodes g)); congruence.
    + rewrite JsMapFacts.get_set_other by assumption. reflexivity.
  - apply JsMapFacts.get_set_same.
  - intros k Hk. apply JsMapFacts.get_set_other. assumption.
Qed.

(** *** [addDependency] and [removeDependency] *)

Lemma consistent_set_edges g outgoing incoming :
  consistent g = true ->
  JsMap.keys outgoing = JsMap.keys (outgoingEdges g) ->
  JsMap.keys incoming = JsMap.keys (incomingEdges g) ->
  consistent (mk (nodes g) outgoing incoming (circular g)) = true.
Proof.
  intros Hc Ho Hi. apply consistent_iff in Hc. destruct Hc as [[K1 K2] K3].
  apply consistent_iff. unfold same_keys, data_defined. simpl.
  repeat split; try congruence. exact K3.
Qed.

Lemma keys_set_present {V : Type} (m : list (name * V)) k v :
  JsMap.has k m = true -> JsMap.keys (JsMap.set k v m) = JsMap.keys m.
Proof. intros H. rewrite JsMapFacts.keys_set, H. reflexivity. Qed.

Lemma addDependency_ok g from to :
  consistent g = true -> hasNode g from = true -> hasNode g to = true ->
  exists g', addDependency g from to = Ok g'
    /\ consistent g' = true
    /\ nodes g' = nodes g
    /\ circular g' = circular g
    /\ (forall k, edge_list (outgoingEdges g') k
                  = if name_eqb k from
                    then JsArray.push_unique name_eqb to (edge_list (outgoingEdges g) from)
                    else edge_list (outgoingEdges g) k)
    /\ (forall k, edge_list (incomingEdges g') k
                  = if name_eqb k to
                    then JsArray.push_unique name_eqb from (edge_list (incomingEdges g) to)
                    else edge_list (incomingEdges g) k).
Proof.
  intros Hc Hf Ht. unfold addDependency. rewrite Hf, Ht. simpl.
  pose proof (has_outgoing g from Hc) as Ho. rewrite Hf in Ho.
  pose proof (has_incoming g to Hc) as Hi. rewrite Ht in Hi.
  rewrite (edges_of_has _ _ Ho), (edges_of_has _ _ Hi). simpl.
  eexists. split; [reflexivity|]. simpl. repeat split.
  - apply consistent_set_edges; auto using keys_set_present.
  - intros k. apply edge_list_set.
  - intros k. apply edge_list_set.
Qed.

Lemma removeDependency_ok g from to :
  consistent g = true -> hasNode g from = true ->
  exists g', removeDependency g from to = Ok g'
    /\ consistent g' = true
    /\ nodes g' = nodes g
    /\ circular g' = circular g
    /\ (forall k, edge_list (outgoingEdges g') k
                  = if name_eqb k from
                    then JsArray.remove_first name_eqb to (edge_list (outgoingEdges g) from)
                    else edge_list (outgoingEdges g) k)
    /\ (forall k x, x <> from -> In x (edge_list (incomingEdges g) k) ->
                    In x (edge_list (incomingEdges g') k)).
Proof.
  intros Hc Hf. unfold removeDependency. rewrite Hf.
  pose proof (has_outgoing g from Hc) as Ho. rewrite Hf in Ho.
  rewrite (edges_of_has _ _ Ho). simpl.
  destruct (hasNode g to) eqn:Ht.
  - pose proof (has_incoming g to Hc) as Hi. rewrite Ht in Hi.
    rewrite (edges_of_has _ _ Hi). simpl.
    eexists. split; [reflexivity|]. simpl. repeat split.
    + apply consistent_set_edges; auto using keys_set_present.
    + intros k. apply edge_list_set.
    + intros k x Hx Hin. rewrite edge_list_set. name_cases k to; [|assumption].
      apply JsArrayFacts.In_remove_first_neq; assumption.
  - simpl. eexists. split; [reflexivity|]. simpl. repeat split.
    + apply consistent_set_edges; auto using keys_set_present.
    + intros k. apply edge_list_set.
    + auto.
Qed.

End DepGraphFacts.

(** ** Edge creation in the dependency map *)

Module GlobalDependencyMapFacts.
Import DepGraph DepGraphFacts GlobalDependencyMap Invariants SearchMeasure.

Lemma extends_refl s : consistent (map s) = true -> extends s s.
Proof.
  intros H. constructor; auto. intros k H0 H1. congruence.
Qed.

Lemma extends_trans s1 s2 s3 : extends s1 s2 -> extends s2 s3 -> extends s1 s3.
Proof.
  intros [A1 A2 A3 A4 A5 A6] [B1 B2 B3 B4 B5 B6]. constructor; auto; try congruence.
  intros k H1 H3. destruct (DepGraph.hasNode (map s2) k) eqn:H2.
  - apply B5. apply A6; assumption.
  - apply B6; assumption.
Qed.

Lemma map_set_map s g : map (set_map s g) = g.
Proof. reflexivity. Qed.

Lemma config_set_map s g : config (set_map s g) = config s.
Proof. reflexivity. Qed.

Lemma map_addNode_ s n :
  map (addNode_ s n None) = DepGraph.addNode (map s) n None.
Proof.
  unfold addNode_, DepGraph.addNode.
  destruct (DepGraph.hasNode (map s) n); reflexivity.
Qed.

Lemma config_addNode_ s n : config (addNode_ s n None) = config s.
Proof. unfold addNode_. destruct (DepGraph.hasNode (map s) n); reflexivity. Qed.

Lemma hasNode_get g k :
  DepGraph.hasNode g k = true <-> exists d, JsMap.get k (nodes g) = Some d.
Proof.
  unfold DepGraph.hasNode, JsMap.has. destruct (JsMap.get k (nodes g)) as [d|].
  - split; eauto.
  - split; [discriminate | intros [d H]; discriminate].
Qed.

Lemma new_node_data g n k :
  DepGraph.hasNode g k = false -> DepGraph.hasNode (DepGraph.addNode g n None) k = true ->
  JsMap.get k (nodes (DepGraph.addNode g n None)) = Some (default_data k).
Proof.
  intros H0 H1. rewrite hasNode_addNode, H0 in H1. simpl in H1.
  destruct (name_eqb_spec k n) as [->|]; [|discriminate].
  unfold DepGraph.addNode. rewrite H0. simpl.
  rewrite JsMapFacts.get_set_same. destruct n; reflexivity.
Qed.

Lemma extends_addNode_ s n :
  consistent (map s) = true -> extends s (addNode_ s n None).
Proof.
  intros Hc. constructor.
  - rewrite map_addNode_. apply consistent_addNode; auto.
  - apply config_addNode_.
  - rewrite map_addNode_. apply circular_addNode.
  - intros k Hk. rewrite map_addNode_, hasNode_addNode, Hk. reflexivity.
  - intros k d Hk. rewrite map_addNode_. apply nodes_addNode. assumption.
  - intros k. rewrite map_addNode_. apply new_node_data.
Qed.

Lemma addDependency__unfold s from toArray :
  addDependency_ s from toArray = forOf toArray (add_one from) (addNode_ s from None).
Proof. reflexivity. Qed.

Lemma add_one_ok s from to :
  consistent (map s) = true -> DepGraph.hasNode (map s) from = true ->
  exists s', add_one from s to = Ok s' /\ added s s' from to.
Proof.
  intros Hc Hf. unfold add_one.
  pose proof (extends_addNode_ s to Hc) as E1.
  set (s1 := addNode_ s to None) in *.
  assert (H1 : forall k, DepGraph.hasNode (map s1) k
                         = DepGraph.hasNode (map s) k || name_eqb k to).
  { intros k. unfold s1. rewrite map_addNode_. apply hasNode_addNode. }
  assert (O1 : forall k, outs s1 k = outs s k).
  { intros k. unfold outs, s1. rewrite map_addNode_. apply outgoing_addNode; auto. }
  assert (I1 : forall k, ins s1 k = ins s k).
  { intros k. unfold ins, s1. rewrite map_addNode_. apply incoming_addNode; auto. }
  destruct (name_eqb_spec from to) as [->|Hne]; simpl.
  - exists s1. split; [reflexivity|]. constructor; auto.
    + intros k. rewrite H1. destruct (name_eqb k to); rewrite ?orb_true_r, ?orb_false_r; auto.
    + intros k. rewrite name_eqb_refl. simpl. rewrite andb_false_r. apply O1.
    + intros k. rewrite name_eqb_refl. simpl. rewrite andb_false_r. apply I1.
  - destruct (addDependency_ok (map s1) from to) as (g' & Hg & C & N & Ci & O & I).
    + apply E1.
    + rewrite H1, Hf. reflexivity.
    + rewrite H1, name_eqb_refl, orb_true_r. reflexivity.
    + rewrite Hg. simpl. exists (set_map s1 g'). split; [reflexivity|].
      assert (Hh : forall k, DepGraph.hasNode g' k = DepGraph.hasNode (map s1) k).
      { intros k. unfold DepGraph.hasNode. rewrite N. reflexivity. }
      constructor.
      * apply extends_trans with s1; [assumption|].
        constructor; rewrite ?map_set_map, ?config_set_map; auto.
        -- intros k. rewrite Hh. auto.
        -- intros k d. rewrite N. auto.
        -- intros k K0 K1. rewrite Hh in K1. congruence.
      * intros k. rewrite map_set_map, Hh, H1.
        name_cases k from; [rewrite Hf|]; rewrite ?orb_false_r; reflexivity.
      * intros k. unfold outs. rewrite map_set_map, O. fold (outs s1 k) (outs s1 from).
        rewrite (name_eqb_neq _ _ Hne), andb_true_r, !O1. reflexivity.
      * intros k. unfold ins. rewrite map_set_map, I. fold (ins s1 k) (ins s1 to).
        rewrite (name_eqb_neq _ _ Hne), andb_true_r, !I1. reflexivity.
Qed.

(** [#addDependency(from, [to])] on a consistent state. *)
Lemma addDependency__single s from to :
  consistent (map s) = true ->
  exists s', addDependency_ s from [to] = Ok s' /\ added s s' from to.
Proof.
  intros Hc. rewrite addDependency__unfold. simpl.
  pose proof (extends_addNode_ s from Hc) as E0.
  set (s0 := addNode_ s from None) in *.
  assert (H0 : forall k, DepGraph.hasNode (map s0) k
                         = DepGraph.hasNode (map s) k || name_eqb k from).
  { intros k. unfold s0. rewrite map_addNode_. apply hasNode_addNode. }
  destruct (add_one_ok s0 from to) as (s' & Hs & A).
  - apply E0.
  - rewrite H0, name_eqb_refl, orb_true_r. reflexivity.
  - rewrite Hs. simpl. exists s'. split; [reflexivity|].
    destruct A as [AE AH AO AI]. constructor.
    + apply extends_trans with s0; assumption.
    + intros k. rewrite AH, H0.
      destruct (name_eqb k from); rewrite ?orb_true_r, ?orb_false_r; reflexivity.
    + intros k. rewrite AO. unfold outs, s0. rewrite map_addNode_, !outgoing_addNode by auto.
      reflexivity.
    + intros k. rewrite AI. unfold ins, s0. rewrite map_addNode_, !incoming_addNode by auto.
      reflexivity.
Qed.


End GlobalDependencyMapFacts.

(** ** Collections: consumption and publication *)

Module CollectionFacts.
Import DepGraphFacts GlobalDependencyMap GlobalDependencyMapFacts Invariants SearchMeasure.

Lemma getCollectionKeyForEntry_inj (a b : string) :
  getCollectionKeyForEntry a = getCollectionKeyForEntry b -> a = b.
Proof. unfold getCollectionKeyForEntry. simpl. congruence. Qed.

Lemma string_includes_In (x : string) (l : list string) :
  JsArray.includes String.eqb x l = true <-> In x l.
Proof.
  unfold JsArray.includes. rewrite existsb_exists. split.
  - intros [y [Hy Hxy]]. apply String.eqb_eq in Hxy. congruence.
  - intros H. exists x. split; [assumption | apply String.eqb_refl].
Qed.

Lemma names_of_config s s' :
  config s' = config s ->
  userConfigurationCollectionApiNames s' = userConfigurationCollectionApiNames s.
Proof.
  unfold config, userConfigurationCollectionApiNames. intros [= _ -> ->]. reflexivity.
Qed.

Lemma isUserConfigCollectionName_ok s names c :
  userConfigurationCollectionApiNames s = Ok names ->
  isUserConfigCollectionName s c = Ok (JsArray.includes String.eqb c names).
Proof. unfold isUserConfigCollectionName. intros ->. reflexivity. Qed.

Lemma has_edge_added s s' a b :
  added s s' a b -> a <> b -> DepGraph.has_edge (map s') a b = true.
Proof.
  intros A Hab. unfold DepGraph.has_edge.
  fold (outs s' a) (ins s' b). rewrite (add_out _ _ _ _ A), (add_in _ _ _ _ A).
  rewrite !name_eqb_refl, (name_eqb_neq _ _ Hab). simpl.
  rewrite !JsArrayFacts.includes_push_unique, !name_eqb_refl, !orb_true_r. reflexivity.
Qed.

Lemma outs_added_mono s s' a b k x :
  added s s' a b -> In x (outs s k) -> In x (outs s' k).
Proof.
  intros A H. rewrite (add_out _ _ _ _ A).
  destruct (name_eqb_spec k a) as [->|]; simpl; [|assumption].
  destruct (negb (name_eqb a b)); [|assumption].
  apply JsArrayFacts.In_push_unique. auto.
Qed.

Lemma ins_added_mono s s' a b k x :
  added s s' a b -> In x (ins s k) -> In x (ins s' k).
Proof.
  intros A H. rewrite (add_in _ _ _ _ A).
  destruct (name_eqb_spec k b) as [->|]; simpl; [|assumption].
  destruct (negb (name_eqb a b)); [|assumption].
  apply JsArrayFacts.In_push_unique. auto.
Qed.

Lemma has_edge_In g a b :
  DepGraph.has_edge g a b = true
  <-> In b (DepGraph.edge_list (DepGraph.outgoingEdges g) a)
      /\ In a (DepGraph.edge_list (DepGraph.incomingEdges g) b).
Proof.
  unfold DepGraph.has_edge. rewrite andb_true_iff, !JsArrayFacts.includes_In. tauto.
Qed.

Lemma has_edge_added_mono s s' a b x y :
  added s s' a b -> DepGraph.has_edge (map s) x y = true ->
  DepGraph.has_edge (map s') x y = true.
Proof.
  intros A. rewrite !has_edge_In. intros [H1 H2]. split.
  - eapply outs_added_mono; eauto.
  - eapply ins_added_mono; eauto.
Qed.

Lemma Object_assign_defined d props :
  d <> DUndefined ->
  exists d', Object_assign d props = Ok d' /\ d' <> DUndefined.
Proof.
  destruct d; simpl; intros H; try congruence; eexists; split;
    try reflexivity; discriminate.
Qed.

Lemma mergeNodeData__ok s n d props :
  DepGraph.consistent (map s) = true ->
  JsMap.get (Some n) (DepGraph.nodes (map s)) = Some d ->
  exists d' s', Object_assign d props = Ok d'
    /\ mergeNodeData_ s (Some n) props = Ok s'
    /\ merged s s' (Some n) d d'.
Proof.
  intros Hc Hd.
  assert (Hn : DepGraph.hasNode (map s) (Some n) = true).
  { apply hasNode_get. eauto. }
  assert (Hdef : d <> DUndefined).
  { apply consistent_iff in Hc. destruct Hc as [_ K]. eapply K.
    apply JsMapFacts.get_In. eassumption. }
  destruct (Object_assign_defined _ props Hdef) as (d' & Ha & Hd').
  destruct (setNodeData_ok (map s) (Some n) _ Hc Hn Hd')
    as (g' & Hg & C & O & I & Ci & H & N & R).
  exists d', (set_map s g'). split; [assumption|]. split.
  - unfold mergeNodeData_, DepGraph.getNodeData. rewrite Hn, Hd. simpl.
    rewrite Ha. simpl. rewrite Hg. reflexivity.
  - constructor; rewrite ?map_set_map, ?config_set_map; auto.
Qed.

End CollectionFacts.

Section Consumption.
Import DepGraphFacts GlobalDependencyMap GlobalDependencyMapFacts CollectionFacts Invariants SearchMeasure.
Context {host : Host}.

Lemma keysKey_neq_allKey :
  Some (getCollectionKeyForEntry SPECIAL_KEYS_COLLECTION_NAME)
  <> Some (getCollectionKeyForEntry SPECIAL_ALL_COLLECTION_NAME).
Proof. discriminate. Qed.

Lemma collectionKey_neq (a b : string) :
  a <> b -> Some (getCollectionKeyForEntry a) <> Some (getCollectionKeyForEntry b).
Proof. intros H E. apply H, getCollectionKeyForEntry_inj. congruence. Qed.

(** Everything [addDependencyConsumesCollection] does to a consistent
    state, for a [from] that normalizes to a string. *)
Lemma consumes_spec (s : GlobalDependencyMap.t) (from : jsval) (n : string)
      (names : list string) (c : string) :
  DepGraph.consistent (map s) = true ->
  userConfigurationCollectionApiNames s = Ok names ->
  normalizeNode from = Ok (Some n) ->
  exists s', addDependencyConsumesCollection s from c = Ok s'
    /\ DepGraph.consistent (map s') = true
    /\ config s' = config s
    /\ (c = SPECIAL_KEYS_COLLECTION_NAME ->
        DepGraph.has_edge (map s')
          (Some (getCollectionKeyForEntry SPECIAL_KEYS_COLLECTION_NAME))
          (Some (getCollectionKeyForEntry SPECIAL_ALL_COLLECTION_NAME)) = true)
    /\ (c = SPECIAL_ALL_COLLECTION_NAME ->
        DepGraph.has_edge (map s')
          (Some (getCollectionKeyForEntry SPECIAL_ALL_COLLECTION_NAME))
          (Some (getCollectionKeyForEntry SPECIAL_KEYS_COLLECTION_NAME)) = true)
    /\ (In c names -> c <> SPECIAL_ALL_COLLECTION_NAME ->
        DepGraph.has_edge (map s')
          (Some (getCollectionKeyForEntry c))
          (Some (getCollectionKeyForEntry SPECIAL_ALL_COLLECTION_NAME)) = true)
    /\ (forall k d, JsMap.get k (DepGraph.nodes (map s)) = Some d ->
          exists d', JsMap.get k (DepGraph.nodes (map s')) = Some d'
            /\ (d' = d
                \/ (k = Some n /\ In c names
                    /\ Object_assign d [("consumes", CONFIGAPI_DATA_KEY)] = Ok d'))).
Proof.
  intros Hc Hnames Hnorm.
  unfold addDependencyConsumesCollection. rewrite Hnorm. cbn [bind].
  destruct (addDependency__single s (Some n) (Some (getCollectionKeyForEntry c)) Hc)
    as (s1 & E1 & A1).
  rewrite E1. cbn [bind].
  assert (N1 : userConfigurationCollectionApiNames s1 = Ok names).
  { rewrite (names_of_config s s1); [assumption | apply A1]. }
  rewrite (isUserConfigCollectionName_ok _ _ _ N1). cbn [bind].
  assert (M : exists s2,
             (if JsArray.includes String.eqb c names
              then mergeNodeData_ s1 (Some n) [("consumes", CONFIGAPI_DATA_KEY)]
              else Ok s1) = Ok s2
             /\ DepGraph.consistent (map s2) = true
             /\ config s2 = config s
             /\ (forall k d, JsMap.get k (DepGraph.nodes (map s)) = Some d ->
                   exists d', JsMap.get k (DepGraph.nodes (map s2)) = Some d'
                     /\ (d' = d
                         \/ (k = Some n /\ In c names
                             /\ Object_assign d [("consumes", CONFIGAPI_DATA_KEY)] = Ok d')))).
  { destruct (JsArray.includes String.eqb c names) eqn:B.
    - assert (Hn : DepGraph.hasNode (map s1) (Some n) = true).
      { rewrite (add_has _ _ _ _ A1), name_eqb_refl, orb_true_r. reflexivity. }
      apply hasNode_get in Hn. destruct Hn as [d1 Hd1].
      destruct (mergeNodeData__ok s1 n _ [("consumes", CONFIGAPI_DATA_KEY)]
                  (ext_consistent _ _ (add_extends _ _ _ _ A1)) Hd1)
        as (d' & s2 & Ha & Hm & Mg).
      exists s2. split; [assumption|]. split; [apply Mg|]. split.
      + rewrite (mrg_config _ _ _ _ _ Mg). apply A1.
      + intros k d Hk. pose proof (ext_data _ _ (add_extends _ _ _ _ A1) _ _ Hk) as Hk1.
        name_cases k (Some n).
        * exists d'. split; [apply Mg|]. right.
          assert (d1 = d) by congruence. subst d1.
          repeat split; auto. apply string_includes_In. assumption.
        * exists d. split; [|left; reflexivity].
          rewrite (mrg_others _ _ _ _ _ Mg) by assumption. assumption.
    - exists s1. split; [reflexivity|]. split; [apply A1|]. split; [apply A1|].
      intros k d Hk. exists d. split; [|left; reflexivity].
      apply (ext_data _ _ (add_extends _ _ _ _ A1)). assumption. }
  destruct M as (s2 & E2 & C2 & G2 & D2). rewrite E2. cbn [bind].
  assert (N2 : userConfigurationCollectionApiNames s2 = Ok names).
  { rewrite (names_of_config s s2); assumption. }
  assert (Fin : forall a b s',
             added s2 s' a b ->
             DepGraph.consistent (map s') = true /\ config s' = config s
             /\ (forall k d, JsMap.get k (DepGraph.nodes (map s)) = Some d ->
                   exists d', JsMap.get k (DepGraph.nodes (map s')) = Some d'
                     /\ (d' = d
                         \/ (k = Some n /\ In c names
                             /\ Object_assign d [("consumes", CONFIGAPI_DATA_KEY)] = Ok d')))).
  { intros a b s' A. split; [apply A|]. split.
    - rewrite (ext_config _ _ (add_extends _ _ _ _ A)). assumption.
    - intros k d Hk. destruct (D2 k d Hk) as (d' & Hd' & Hor).
      exists d'. split; [|assumption]. apply (ext_data _ _ (add_extends _ _ _ _ A)). assumption. }
  destruct (String.eqb_spec c SPECIAL_KEYS_COLLECTION_NAME) as [Hkeys|Hkeys].
  - subst c.
    destruct (addDependency__single s2
                (Some (getCollectionKeyForEntry SPECIAL_KEYS_COLLECTION_NAME))
                (Some (getCollectionKeyForEntry SPECIAL_ALL_COLLECTION_NAME)) C2)
      as (s' & E & A).
    exists s'. split; [exact E|].
    destruct (Fin _ _ _ A) as (F1 & F2 & F3).
    pose proof (has_edge_added _ _ _ _ A keysKey_neq_allKey) as He.
    repeat split; auto; try discriminate; try congruence.
  - destruct (String.eqb_spec c SPECIAL_ALL_COLLECTION_NAME) as [Hall|Hall].
    + subst c.
      destruct (addDependency__single s2
                  (Some (getCollectionKeyForEntry SPECIAL_ALL_COLLECTION_NAME))
                  (Some (getCollectionKeyForEntry SPECIAL_KEYS_COLLECTION_NAME)) C2)
        as (s' & E & A).
      exists s'. split; [exact E|].
      destruct (Fin _ _ _ A) as (F1 & F2 & F3).
      assert (He := has_edge_added _ _ _ _ A (fun H => keysKey_neq_allKey (eq_sym H))).
      repeat split; auto; try discriminate; try congruence.
    + rewrite (isUserConfigCollectionName_ok _ _ _ N2). cbn [bind].
      destruct (JsArray.includes String.eqb c names) eqn:B.
      * destruct (addDependency__single s2
                    (Some (getCollectionKeyForEntry c))
                    (Some (getCollectionKeyForEntry SPECIAL_ALL_COLLECTION_NAME)) C2)
          as (s' & E & A).
        exists s'. split; [exact E|].
        destruct (Fin _ _ _ A) as (F1 & F2 & F3).
        pose proof (has_edge_added _ _ _ _ A (collectionKey_neq _ _ Hall)) as He.
        repeat split; auto; congruence.
      * exists s2. split; [reflexivity|].
        repeat split; auto; try congruence.
        intros Hin. apply string_includes_In in Hin. congruence.
Qed.

End Consumption.

Section Publication.
Import DepGraphFacts GlobalDependencyMap GlobalDependencyMapFacts CollectionFacts Invariants SearchMeasure.
Context {host : Host}.

Lemma isConfigurationApiConsumer_total (s : GlobalDependencyMap.t) (n : name) :
  exists b, isConfigurationApiConsumer s n = Ok b.
Proof.
  unfold isConfigurationApiConsumer, DepGraph.getNodeData.
  destruct (DepGraph.hasNode (map s) n) eqn:Hn; simpl; [|eauto].
  apply hasNode_get in Hn. destruct Hn as [d ->]. simpl. eauto.
Qed.

(** A node keeps its consumer mark through edge creation, and a node
    created by it has none. *)
Lemma consumer_extends (s s' : GlobalDependencyMap.t) (n : name) :
  extends s s' -> isConfigurationApiConsumer s' n = isConfigurationApiConsumer s n.
Proof.
  intros E. unfold isConfigurationApiConsumer, DepGraph.getNodeData.
  destruct (DepGraph.hasNode (map s) n) eqn:Hn.
  - rewrite (ext_nodes _ _ E _ Hn). simpl.
    apply hasNode_get in Hn. destruct Hn as [d Hd].
    rewrite Hd, (ext_data _ _ E _ _ Hd). reflexivity.
  - simpl. destruct (DepGraph.hasNode (map s') n) eqn:Hn'; [|reflexivity]. simpl.
    rewrite (ext_new _ _ E _ Hn Hn'). destruct n; reflexivity.
Qed.

(** Everything [addDependencyPublishesToCollection] does to a consistent
    state. [skip] is the exception for a configuration-API consumer that
    publishes to the collection "all". *)
Lemma publishes_spec (s : GlobalDependencyMap.t) (from : jsval) (n : name)
      (names : list string) (c : string) (consumer : bool) :
  DepGraph.consistent (map s) = true ->
  userConfigurationCollectionApiNames s = Ok names ->
  normalizeNode from = Ok n ->
  isConfigurationApiConsumer s n = Ok consumer ->
  exists s', addDependencyPublishesToCollection s from c = Ok s'
    /\ extends s s'
    /\ (n <> Some (getCollectionKeyForEntry c) ->
        ins s' n
        = if String.eqb c SPECIAL_ALL_COLLECTION_NAME && consumer
          then ins s n
          else JsArray.push_unique name_eqb (Some (getCollectionKeyForEntry c)) (ins s n))
    /\ (String.eqb c SPECIAL_ALL_COLLECTION_NAME && consumer = false ->
        n <> Some (getCollectionKeyForEntry c) ->
        DepGraph.has_edge (map s') (Some (getCollectionKeyForEntry c)) n = true)
    /\ (String.eqb c SPECIAL_ALL_COLLECTION_NAME && consumer = true ->
        DepGraph.has_edge (map s') (Some (getCollectionKeyForEntry c)) n
        = DepGraph.has_edge (map s) (Some (getCollectionKeyForEntry c)) n)
    /\ (~ In c names -> c <> SPECIAL_KEYS_COLLECTION_NAME ->
        DepGraph.has_edge (map s')
          (Some (getCollectionKeyForEntry SPECIAL_KEYS_COLLECTION_NAME))
          (Some (getCollectionKeyForEntry c)) = true).
Proof.
  intros Hc Hnames Hnorm Hcons.
  unfold addDependencyPublishesToCollection. rewrite Hnorm. cbn [bind].
  set (ckey := Some (getCollectionKeyForEntry c)).
  set (skip := String.eqb c SPECIAL_ALL_COLLECTION_NAME && consumer).
  assert (P1 : exists s1,
             (if String.eqb c SPECIAL_ALL_COLLECTION_NAME
              then consumer <- isConfigurationApiConsumer s n ;;
                   if consumer then Ok s else addDependency_ s ckey [n]
              else addDependency_ s ckey [n]) = Ok s1
             /\ (if skip then s1 = s else added s s1 ckey n)).
  { destruct (addDependency__single s ckey n Hc) as (s1 & E1 & A1).
    unfold skip. destruct (String.eqb c SPECIAL_ALL_COLLECTION_NAME); simpl.
    - rewrite Hcons. simpl. destruct consumer; eauto.
    - eauto. }
  destruct P1 as (s1 & E1 & R1). rewrite E1. cbn [bind].
  assert (X1 : extends s s1).
  { destruct skip; [subst s1; apply extends_refl; assumption | apply R1]. }
  assert (N1 : userConfigurationCollectionApiNames s1 = Ok names).
  { rewrite (names_of_config s s1); [assumption | apply X1]. }
  rewrite (isUserConfigCollectionName_ok _ _ _ N1). cbn [bind].
  assert (I1 : n <> ckey ->
               ins s1 n = if skip then ins s n
                          else JsArray.push_unique name_eqb ckey (ins s n)).
  { intros Hn. destruct skip; [subst s1; reflexivity|].
    rewrite (add_in _ _ _ _ R1), name_eqb_refl.
    rewrite (name_eqb_neq ckey n) by congruence. reflexivity. }
  destruct (JsArray.includes String.eqb c names) eqn:B; simpl.
  - exists s1. split; [reflexivity|]. split; [assumption|].
    split; [assumption|]. split; [|split].
    + intros Hs Hn. fold skip in Hs. rewrite Hs in R1.
      apply (has_edge_added _ _ _ _ R1). congruence.
    + intros Hs. fold skip in Hs. rewrite Hs in R1. subst s1. reflexivity.
    + intros Hin. exfalso. apply Hin. apply string_includes_In. assumption.
  - destruct (addDependency__single s1
                (Some (getCollectionKeyForEntry SPECIAL_KEYS_COLLECTION_NAME)) ckey
                (ext_consistent _ _ X1)) as (s' & E & A).
    exists s'. split; [exact E|]. split; [|split; [|split; [|split]]].
    + apply extends_trans with s1; [assumption | apply A].
    + intros Hn. rewrite (add_in _ _ _ _ A). rewrite (name_eqb_neq n ckey Hn).
      simpl. apply I1. assumption.
    + intros Hs Hn. fold skip in Hs. rewrite Hs in R1.
      apply (has_edge_added_mono _ _ _ _ _ _ A).
      apply (has_edge_added _ _ _ _ R1). congruence.
    + intros Hs. fold skip in Hs. rewrite Hs in R1. subst s1.
      apply andb_true_iff in Hs. destruct Hs as [Hall _].
      apply String.eqb_eq in Hall.
      assert (Hka : Some (getCollectionKeyForEntry SPECIAL_KEYS_COLLECTION_NAME) <> ckey).
      { unfold ckey. rewrite Hall. apply keysKey_neq_allKey. }
      assert (Hak : ckey <> Some (getCollectionKeyForEntry SPECIAL_KEYS_COLLECTION_NAME))
        by congruence.
      unfold DepGraph.has_edge. fold ckey (outs s' ckey) (ins s' n) (outs s ckey) (ins s n).
      rewrite (add_out _ _ _ _ A), (add_in _ _ _ _ A).
      rewrite (name_eqb_neq _ _ Hak), (name_eqb_neq _ _ Hka).
      cbn [andb negb]. rewrite andb_true_r.
      destruct (name_eqb_spec n ckey) as [->|Hn]; [|reflexivity].
      rewrite JsArrayFacts.includes_push_unique, (name_eqb_neq _ _ Hak), orb_false_r.
      reflexivity.
    + intros _ Hk. apply (has_edge_added _ _ _ _ A).
      apply collectionKey_neq. congruence.
Qed.

End Publication.

(** ** Node data under edge creation *)

Module NodeDataFacts.






End NodeDataFacts.

(** ** Resetting a node *)

Section Reset.
Import DepGraphFacts GlobalDependencyMap GlobalDependencyMapFacts CollectionFacts Invariants SearchMeasure.
Context {host : Host}.

Lemma reset_loop (n : name) (l : list name) :
  forall s,
    DepGraph.consistent (map s) = true -> DepGraph.hasNode (map s) n = true ->
    exists s', forOf l (remove_one n) s = Ok s'
      /\ DepGraph.consistent (map s') = true
      /\ DepGraph.nodes (map s') = DepGraph.nodes (map s)
      /\ outs s' n = fold_left (fun m b => JsArray.remove_first name_eqb b m) l (outs s n)
      /\ (forall k x, x <> n -> In x (ins s k) -> In x (ins s' k)).
Proof.
  induction l as [|dep l IH]; intros s Hc Hn; simpl.
  - exists s. auto.
  - unfold remove_one at 1.
    destruct (removeDependency_ok (map s) n dep Hc Hn) as (g' & Hg & C & N & _ & O & I).
    rewrite Hg. cbn [bind].
    destruct (IH (set_map s g')) as (s' & E & C' & N' & O' & I').
    + exact C.
    + rewrite map_set_map. unfold DepGraph.hasNode. rewrite N. exact Hn.
    + exists s'. split; [exact E|]. split; [exact C'|]. split; [|split].
      * rewrite N', map_set_map. exact N.
      * rewrite O'. unfold outs at 1. rewrite map_set_map, O, name_eqb_refl. reflexivity.
      * intros k x Hx Hin. apply I'; [assumption|].
        unfold ins. rewrite map_set_map. apply I; assumption.
Qed.

Lemma resetNode_spec (s : GlobalDependencyMap.t) (node : jsval) (n : name) :
  DepGraph.consistent (map s) = true ->
  normalizeNode node = Ok n ->
  DepGraph.hasNode (map s) n = true ->
  exists s', resetNode s node = Ok s'
    /\ DepGraph.consistent (map s') = true
    /\ DepGraph.hasNode (map s') n = true
    /\ outs s' n = []
    /\ (forall k x, x <> n -> In x (ins s k) -> In x (ins s' k)).
Proof.
  intros Hc Hnorm Hn. unfold resetNode. rewrite Hnorm. cbn [bind]. rewrite Hn. simpl.
  unfold DepGraph.directDependenciesOf. rewrite Hn.
  rewrite edges_of_has by (rewrite has_outgoing; assumption). cbn [bind].
  destruct (reset_loop n (outs s n) s Hc Hn) as (s' & E & C & N & O & I).
  exists s'. split; [exact E|]. split; [exact C|]. split; [|split].
  - unfold DepGraph.hasNode. rewrite N. exact Hn.
  - rewrite O. apply JsArrayFacts.remove_each.
  - exact I.
Qed.

(** A search from a node without edges visits that node alone. *)
Lemma DFS_leaf (edges : list (name * list name)) (circ : bool) (n : name) :
  JsMap.get n edges = Some [] ->
  DepGraph.DFS edges circ ([], []) n = Ok ([n], [n]).
Proof.
  intros H. unfold DepGraph.DFS, DepGraph.dfs_fuel. simpl. rewrite H. reflexivity.
Qed.

Lemma normalizeNode_truthy (node : jsval) (n : string) :
  normalizeNode node = Ok (Some n) -> truthy node = true.
Proof.
  unfold normalizeNode. destruct (truthy node); [reflexivity | discriminate].
Qed.

End Reset.

(** ** Collections a node no longer belongs to *)

Section RemovedCollections.
Import DepGraphFacts GlobalDependencyMap GlobalDependencyMapFacts CollectionFacts Invariants SearchMeasure.
Context {host : Host}.


Lemma prefix_collectionKey (c : string) :
  String.prefix COLLECTION_PREFIX (getCollectionKeyForEntry c) = true.
Proof. unfold getCollectionKeyForEntry. simpl. destruct c; reflexivity. Qed.









End RemovedCollections.

(** ** The searches of the graph store return *)

Module SearchFacts.
Import DepGraph Invariants SearchMeasure.

Lemma unvisited_le_count (m : name -> bool) (edges : list (name * list name)) :
  unvisited_edges m edges <= edge_count edges.
Proof.
  unfold edge_count. induction edges as [|[k l] r IH]; simpl; [lia|].
  destruct (m k); simpl; lia.
Qed.

Lemma unvisited_mono (m m' : name -> bool) (edges : list (name * list name)) :
  (forall k, m k = true -> m' k = true) ->
  unvisited_edges m' edges <= unvisited_edges m edges.
Proof.
  intros H. induction edges as [|[k l] r IH]; simpl; [lia|].
  destruct (m k) eqn:E.
  - rewrite (H k E). lia.
  - destruct (m' k); lia.
Qed.

Lemma unvisited_mark (m m' : name -> bool) (edges : list (name * list name))
      (n : name) (l : list name) :
  m n = false -> JsMap.get n edges = Some l ->
  (forall k, m' k = m k || name_eqb k n) ->
  unvisited_edges m' edges + List.length l <= unvisited_edges m edges.
Proof.
  intros Hn Hget Hm'. induction edges as [|[k l0] r IH]; simpl in *; [discriminate|].
  destruct (name_eqb_spec n k) as [<-|Hk].
  - inversion Hget; subst l0. rewrite Hn, Hm', Hn, name_eqb_refl. simpl.
    assert (unvisited_edges m' r <= unvisited_edges m r); [|lia].
    apply unvisited_mono. intros k Hk. rewrite Hm', Hk. reflexivity.
  - specialize (IH Hget). rewrite Hm', (name_eqb_neq k n) by congruence.
    rewrite orb_false_r. lia.
Qed.

Lemma stack_weight_app (a b : list (name * bool)) :
  stack_weight (a ++ b) = stack_weight a + stack_weight b.
Proof.
  induction a as [|[n [|]] a IH]; simpl; lia.
Qed.

Lemma stack_weight_pushed (l : list name) :
  stack_weight (List.map (fun n => (n, false)) l) = 2 * List.length l.
Proof. induction l; simpl; lia. Qed.

Lemma includes_remove_all (k n : name) (l : list name) :
  k <> n ->
  JsArray.includes name_eqb k (JsArray.remove_all name_eqb n l)
  = JsArray.includes name_eqb k l.
Proof.
  intros H. unfold JsArray.includes, JsArray.remove_all.
  induction l as [|x l IH]; simpl; [reflexivity|].
  destruct (name_eqb_spec n x) as [<-|Hx]; simpl.
  - rewrite (name_eqb_neq k n H). exact IH.
  - rewrite IH. reflexivity.
Qed.

Lemma marked_unrolled (inCurrentPath visited : list name) (node k : name) :
  marked inCurrentPath visited k = true ->
  marked (JsArray.remove_all name_eqb node inCurrentPath) (node :: visited) k = true.
Proof.
  unfold marked. simpl. destruct (name_eqb_spec k node) as [->|Hk]; [reflexivity|].
  rewrite includes_remove_all by assumption. simpl. auto.
Qed.

Lemma marked_entered (inCurrentPath visited : list name) (node k : name) :
  marked (node :: inCurrentPath) visited k
  = marked inCurrentPath visited k || name_eqb k node.
Proof.
  unfold marked. simpl.
  destruct (JsArray.includes name_eqb k visited), (name_eqb k node),
    (JsArray.includes name_eqb k inCurrentPath); reflexivity.
Qed.

(** The loop of a search never uses up the iterations it is given when
    that is more than its [potential]. *)
Lemma dfs_loop_terminates (edges : list (name * list name)) (circ : bool) :
  forall fuel todo inCurrentPath visited res,
    potential edges todo inCurrentPath visited < fuel ->
    dfs_loop fuel edges circ todo inCurrentPath visited res <> Throw OutOfFuel.
Proof.
  unfold potential.
  induction fuel as [|fuel IH]; intros todo inPath visited res Hp; [lia|].
  destruct todo as [|[node [|]] rest]; simpl in *.
  - discriminate.
  - apply IH.
    pose proof (unvisited_mono (marked inPath visited)
                  (marked (JsArray.remove_all name_eqb node inPath) (node :: visited))
                  edges (marked_unrolled inPath visited node)).
    lia.
  - destruct (JsArray.includes name_eqb node visited) eqn:Hv; [apply IH; lia|].
    destruct (JsArray.includes name_eqb node inPath) eqn:Hi.
    + destruct circ; [apply IH; lia | discriminate].
    + destruct (JsMap.get node edges) as [nodeEdges|] eqn:Hg; [|discriminate].
      apply IH. rewrite stack_weight_app, stack_weight_pushed. simpl.
      pose proof (unvisited_mark (marked inPath visited) (marked (node :: inPath) visited)
                    edges node nodeEdges) as Hm.
      unfold marked at 1 in Hm. rewrite Hv, Hi in Hm.
      specialize (Hm eq_refl Hg (marked_entered inPath visited node)). lia.
Qed.

(** One search returns or throws an error of the language. *)
Lemma DFS_terminates (edges : list (name * list name)) (circ : bool)
      (st : list name * list name) (start : name) :
  DFS edges circ st start <> Throw OutOfFuel.
Proof.
  unfold DFS. destruct st as [visited res].
  destruct (JsArray.includes name_eqb start visited); [discriminate|].
  apply dfs_loop_terminates. unfold potential, dfs_fuel. simpl.
  pose proof (unvisited_le_count (marked [] visited) edges). lia.
Qed.

End SearchFacts.

Module SearchTotality.
Import DepGraph DepGraphFacts SearchFacts Invariants SearchMeasure.

Lemma closed_edges (edges : list (name * list name)) (n : name) (l : list name) :
  closed edges = true -> JsMap.get n edges = Some l ->
  forall x, In x l -> JsMap.has x edges = true.
Proof.
  unfold closed. rewrite forallb_forall. intros Hc Hg x Hx.
  apply JsMapFacts.get_In in Hg. specialize (Hc _ Hg). simpl in Hc.
  rewrite forallb_forall in Hc. auto.
Qed.

(** On a closed map of edges, with cycles allowed, the loop of a search
    returns. *)
Lemma dfs_loop_returns (edges : list (name * list name)) :
  closed edges = true ->
  forall fuel todo inCurrentPath visited res,
    potential edges todo inCurrentPath visited < fuel ->
    (forall n p, In (n, p) todo -> JsMap.has n edges = true) ->
    exists st, dfs_loop fuel edges true todo inCurrentPath visited res = Ok st.
Proof.
  intros Hc. unfold potential.
  induction fuel as [|fuel IH]; intros todo inPath visited res Hp Htodo; [lia|].
  destruct todo as [|[node [|]] rest]; simpl in *.
  - eauto.
  - apply IH; [|eauto].
    pose proof (unvisited_mono (marked inPath visited)
                  (marked (JsArray.remove_all name_eqb node inPath) (node :: visited))
                  edges (marked_unrolled inPath visited node)).
    lia.
  - destruct (JsArray.includes name_eqb node visited) eqn:Hv; [apply IH; [lia | eauto]|].
    destruct (JsArray.includes name_eqb node inPath) eqn:Hi; [apply IH; [lia | eauto]|].
    assert (Hn : JsMap.has node edges = true) by eauto.
    unfold JsMap.has in Hn.
    destruct (JsMap.get node edges) as [nodeEdges|] eqn:Hg; [|discriminate].
    apply IH.
    + rewrite stack_weight_app, stack_weight_pushed. simpl.
      pose proof (unvisited_mark (marked inPath visited) (marked (node :: inPath) visited)
                    edges node nodeEdges) as Hm.
      unfold marked at 1 in Hm. rewrite Hv, Hi in Hm.
      specialize (Hm eq_refl Hg (marked_entered inPath visited node)). lia.
    + intros n p Hin. apply in_app_or in Hin. destruct Hin as [Hin|[Hin|Hin]].
      * apply in_map_iff in Hin. destruct Hin as (x & [= <- <-] & Hx).
        eapply closed_edges; eauto.
      * inversion Hin; subst. unfold JsMap.has. rewrite Hg. reflexivity.
      * eauto.
Qed.

Lemma DFS_returns (edges : list (name * list name)) (st : list name * list name)
      (start : name) :
  closed edges = true -> JsMap.has start edges = true ->
  exists st', DFS edges true st start = Ok st'.
Proof.
  intros Hc Hs. unfold DFS. destruct st as [visited res].
  destruct (JsArray.includes name_eqb start visited); [eauto|].
  apply dfs_loop_returns; [assumption | |].
  - unfold potential, dfs_fuel. simpl.
    pose proof (unvisited_le_count (marked [] visited) edges). lia.
  - intros n p [[= <- <-]|[]]. assumption.
Qed.

Lemma forOf_DFS_returns (edges : list (name * list name)) (l : list name) :
  closed edges = true ->
  forall st, (forall x, In x l -> JsMap.has x edges = true) ->
             exists st', forOf l (DFS edges true) st = Ok st'.
Proof.
  intros Hc. induction l as [|x l IH]; intros st Hl; simpl; [eauto|].
  destruct (DFS_returns edges st x Hc) as [st1 H1]; [apply Hl; simpl; auto|].
  rewrite H1. simpl. apply IH. intros y Hy. apply Hl. simpl. auto.
Qed.

(** The starting points of [overallOrder] are nodes of the graph. *)
Lemma starts_returns (incoming : list (name * list name)) (l : list name) :
  forall acc,
    (forall x, In x l -> JsMap.has x incoming = true) ->
    exists starts,
      forOf l (fun acc node =>
                 inc <- edges_of node incoming ;;
                 Ok (match inc with [] => acc ++ [node] | _ => acc end)) acc
      = Ok starts
      /\ forall x, In x starts -> In x acc \/ In x l.
Proof.
  induction l as [|n l IH]; intros acc Hl; simpl.
  - exists acc. auto.
  - rewrite (edges_of_has incoming n) by (apply Hl; simpl; auto). simpl.
    destruct (IH (match edge_list incoming n with [] => acc ++ [n] | _ :: _ => acc end))
      as (starts & E & Hs).
    + intros x Hx. apply Hl. simpl. auto.
    + exists starts. split; [exact E|].
      intros x Hx. destruct (Hs x Hx) as [Ha|Hr]; [|auto].
      destruct (edge_list incoming n); [|auto].
      apply in_app_or in Ha. destruct Ha as [Ha|[<-|[]]]; auto.
Qed.

(** [overallOrder()] returns an order on every consistent graph that allows
    cycles and whose edges lead to nodes of the graph. *)
Theorem overallOrder_returns (g : DepGraph.t) :
  consistent g = true -> closed (outgoingEdges g) = true -> circular g = true ->
  exists order, overallOrder g = Ok order.
Proof.
  intros Hc Hcl Hcirc. unfold overallOrder. rewrite Hcirc.
  assert (Hout : forall x, In x (JsMap.keys (nodes g)) ->
                           JsMap.has x (outgoingEdges g) = true).
  { intros x Hx. rewrite has_outgoing by assumption. apply JsMapFacts.has_In_keys, Hx. }
  assert (Hin : forall x, In x (JsMap.keys (nodes g)) ->
                          JsMap.has x (incomingEdges g) = true).
  { intros x Hx. rewrite has_incoming by assumption. apply JsMapFacts.has_In_keys, Hx. }
  destruct (JsMap.keys (nodes g)) as [|k0 keys] eqn:Hk; [eauto|].
  cbn [bind].
  destruct (starts_returns (incomingEdges g) (k0 :: keys) [] Hin) as (starts & E & Hs).
  rewrite E. cbn [bind].
  destruct (forOf_DFS_returns (outgoingEdges g) starts Hcl ([], [])) as [st E1].
  { intros x Hx. apply Hout. destruct (Hs x Hx) as [[]|H]; exact H. }
  rewrite E1. cbn [bind].
  destruct (forOf_DFS_returns (outgoingEdges g)
              (filter (fun node => negb (JsArray.includes name_eqb node (snd st)))
                      (k0 :: keys)) Hcl st) as [[v r] E2].
  { intros x Hx. apply filter_In in Hx. apply Hout, Hx. }
  rewrite E2. simpl. eauto.
Qed.

End SearchTotality.

(** ** The template order on graphs without the odd node name *)

Module TemplateOrderFacts.
Import GlobalDependencyMap Invariants SearchMeasure.

Lemma splits_complete (a b : string) : In (a, b) (splits (String.append a b)).
Proof.
  induction a as [|c a IH]; simpl.
  - destruct b; simpl; auto.
  - right. apply in_map_iff. exists (a, b). auto.
Qed.

Lemma length_append (a b : string) :
  String.length (String.append a b) = String.length a + String.length b.
Proof. induction a as [|c a IH]; simpl; [reflexivity | rewrite IH; reflexivity]. Qed.

Lemma append_cancel_r (c a b : string) :
  String.append a c = String.append b c -> a = b.
Proof.
  revert b. induction a as [|x a IH]; intros [|y b] H; simpl in H.
  - reflexivity.
  - apply (f_equal String.length) in H. simpl in H. rewrite length_append in H. lia.
  - apply (f_equal String.length) in H. simpl in H. rewrite length_append in H. lia.
  - injection H as -> H. rewrite (IH b H). reflexivity.
Qed.

Lemma append_assoc (a b c : string) :
  String.append a (String.append b c) = String.append (String.append a b) c.
Proof. induction a as [|x a IH]; simpl; [reflexivity | rewrite IH; reflexivity]. Qed.

(** The only comma of "__collection:all,__collection:[keys]" is the one
    between its two keys. *)
Lemma before_the_comma (a b : string) :
  String.append a (String "," b) = "__collection:all,__collection:[keys]" ->
  a = "__collection:all".
Proof.
  intros H. pose proof (splits_complete a (String "," b)) as Hs.
  rewrite H in Hs. vm_compute in Hs.
  repeat (destruct Hs as [Hs|Hs];
          [try discriminate Hs; try (injection Hs as <- _; reflexivity)|]).
  destruct Hs.
Qed.

Lemma skipn_length_app {A : Type} (l r : list A) : skipn (List.length l) (l ++ r) = r.
Proof. induction l; simpl; auto. Qed.

Lemma firstn_length_app {A : Type} (l r : list A) : firstn (List.length l) (l ++ r) = l.
Proof. induction l; simpl; [reflexivity | f_equal; assumption]. Qed.

Lemma list_end_cases {A : Type} (l : list A) :
  l = [] \/ (exists a, l = [a]) \/ (exists l' a b, l = l' ++ [a; b]).
Proof.
  destruct l as [|x l] using rev_ind; [auto|]. right.
  destruct l as [|y l _] using rev_ind; [left; exists x; reflexivity|].
  right. exists l, y, x. rewrite <- app_assoc. reflexivity.
Qed.

Lemma join_text_all (a : name) :
  join_text a = "__collection:all" -> a = Some "__collection:all".
Proof. destruct a; simpl; [congruence | discriminate]. Qed.

Section WithHost.
Context {host : Host}.

(** Where C7 holds. On every state whose graph [overallOrder()] orders and
    that has no node named "__collection:all,__collection:[keys]",
    [getTemplateOrder()] returns an order that ends with the entry of the
    collection "all". *)
Theorem getTemplateOrder_ends_with_all (s : GlobalDependencyMap.t) (order : list name) :
  DepGraph.overallOrder (map s) = Ok order ->
  ~ In (Some "__collection:all,__collection:[keys]") order ->
  exists init,
    getTemplateOrder s
    = Ok (init ++ [Some (getCollectionKeyForEntry SPECIAL_ALL_COLLECTION_NAME)]).
Proof.
  intros Ho Hodd. unfold getTemplateOrder. rewrite Ho. cbn [bind].
  change (getCollectionKeyForEntry SPECIAL_ALL_COLLECTION_NAME) with "__collection:all".
  set (allKey := Some "__collection:all").
  assert (Hpre : exists pre,
             (if negb (name_eqb (List.last order None) allKey)
              then order ++ [allKey] else order) = pre ++ [allKey]
             /\ forall x, In x pre -> In x order).
  { destruct (name_eqb_spec (List.last order None) allKey) as [E|E]; simpl.
    - destruct order as [|x order]; [discriminate|].
      exists (removelast (x :: order)). split.
      + rewrite <- E. apply app_removelast_last. discriminate.
      + intros y Hy. rewrite (app_removelast_last None (l := x :: order)) by discriminate.
        apply in_or_app. auto.
    - exists order. auto. }
  destruct Hpre as (pre & -> & Hin).
  destruct (list_end_cases pre) as [->|[[a ->]|(l' & a & b & ->)]].
  - exists []. reflexivity.
  - unfold JsArray.slice_last, JsArray.slice_but_last. simpl.
    destruct (String.eqb_spec
                (String.append (join_text a) ",__collection:all")
                "__collection:all,__collection:[keys],__collection:all") as [E|E].
    + exfalso. apply Hodd, Hin. left.
      apply (append_cancel_r ",__collection:all" (join_text a)
               "__collection:all,__collection:[keys]") in E.
      destruct a; simpl in E; [congruence | discriminate].
    + exists [a]. reflexivity.
  - unfold JsArray.slice_last, JsArray.slice_but_last.
    rewrite <- app_assoc. simpl app.
    replace (List.length (l' ++ [a; b; allKey]) - 3) with (List.length l')
      by (rewrite length_app; simpl; lia).
    replace (List.length (l' ++ [a; b; allKey]) - 2) with (List.length (l' ++ [a]))
      by (rewrite !length_app; simpl; lia).
    rewrite skipn_length_app.
    replace (l' ++ [a; b; allKey]) with ((l' ++ [a]) ++ [b; allKey])
      by (rewrite <- app_assoc; reflexivity).
    rewrite firstn_length_app. simpl.
    destruct (String.eqb_spec
                (String.append (join_text a)
                   (String "," (String.append (join_text b) ",__collection:all")))
                "__collection:all,__collection:[keys],__collection:all") as [E|E].
    + exists l'.
      change (String "," (String.append (join_text b) ",__collection:all"))
        with (String.append (String "," (join_text b)) ",__collection:all") in E.
      rewrite append_assoc in E.
      apply (append_cancel_r ",__collection:all" _
               "__collection:all,__collection:[keys]") in E.
      apply before_the_comma, join_text_all in E. subst a. reflexivity.
    + exists (l' ++ [a; b]). rewrite <- !app_assoc. reflexivity.
Qed.

End WithHost.
End TemplateOrderFacts.

(** * The claims of the specification *)

Section Claims.
Import GlobalDependencyMap GlobalDependencyMapFacts CollectionFacts NodeDataFacts Invariants SearchMeasure.
Context {host : Host}.

(** C4. The meta-collection rules of [addDependencyConsumesCollection]: on
    every consistent state and for every [from] that names a node,
    consuming "[keys]" leaves the edge collection([keys]) -> collection(all)
    in the graph, consuming "all" the edge collection(all) ->
    collection([keys]), and consuming a configuration-API collection the edge
    from its collection node to collection(all) (for the name "all" itself
    that would be a self-edge, which is never created). *)
Theorem consumes_adds_meta_collection_edges
    (s : GlobalDependencyMap.t) (from : jsval) (n : string) (names : list string) :
  DepGraph.consistent (map s) = true ->
  userConfigurationCollectionApiNames s = Ok names ->
  normalizeNode from = Ok (Some n) ->
  (exists s', addDependencyConsumesCollection s from SPECIAL_KEYS_COLLECTION_NAME = Ok s'
     /\ DepGraph.has_edge (map s')
          (Some (getCollectionKeyForEntry SPECIAL_KEYS_COLLECTION_NAME))
          (Some (getCollectionKeyForEntry SPECIAL_ALL_COLLECTION_NAME)) = true)
  /\ (exists s', addDependencyConsumesCollection s from SPECIAL_ALL_COLLECTION_NAME = Ok s'
     /\ DepGraph.has_edge (map s')
          (Some (getCollectionKeyForEntry SPECIAL_ALL_COLLECTION_NAME))
          (Some (getCollectionKeyForEntry SPECIAL_KEYS_COLLECTION_NAME)) = true)
  /\ (forall collectionName,
        In collectionName names -> collectionName <> SPECIAL_ALL_COLLECTION_NAME ->
        exists s', addDependencyConsumesCollection s from collectionName = Ok s'
          /\ DepGraph.has_edge (map s')
               (Some (getCollectionKeyForEntry collectionName))
               (Some (getCollectionKeyForEntry SPECIAL_ALL_COLLECTION_NAME)) = true).
Proof.
  intros Hc Hnames Hnorm. repeat split.
  - destruct (consumes_spec s from n names SPECIAL_KEYS_COLLECTION_NAME Hc Hnames Hnorm)
      as (s' & E & _ & _ & K & _).
    exists s'. auto.
  - destruct (consumes_spec s from n names SPECIAL_ALL_COLLECTION_NAME Hc Hnames Hnorm)
      as (s' & E & _ & _ & _ & A & _).
    exists s'. auto.
  - intros c Hin Hall.
    destruct (consumes_spec s from n names c Hc Hnames Hnorm)
      as (s' & E & _ & _ & _ & _ & U & _).
    exists s'. auto.
Qed.

(** C5. [addDependencyPublishesToCollection(from, collectionName)] on a
    consistent state: the edge collection(collectionName) -> from is in the
    graph afterwards unless collectionName is "all" and [from] is a recorded
    configuration-API consumer, in which case the call adds no such edge (it
    is there afterwards exactly when it was there before); and when
    collectionName is not a configuration-API collection the edge
    collection([keys]) -> collection(collectionName) is in the graph
    afterwards. An edge is between two different nodes. *)
Theorem publishes_adds_collection_edges
    (s : GlobalDependencyMap.t) (from : jsval) (n : name) (names : list string)
    (collectionName : string) (consumer : bool) :
  DepGraph.consistent (map s) = true ->
  userConfigurationCollectionApiNames s = Ok names ->
  normalizeNode from = Ok n ->
  isConfigurationApiConsumer s n = Ok consumer ->
  exists s', addDependencyPublishesToCollection s from collectionName = Ok s'
    /\ (~ (collectionName = SPECIAL_ALL_COLLECTION_NAME /\ consumer = true) ->
        n <> Some (getCollectionKeyForEntry collectionName) ->
        DepGraph.has_edge (map s') (Some (getCollectionKeyForEntry collectionName)) n = true)
    /\ (collectionName = SPECIAL_ALL_COLLECTION_NAME -> consumer = true ->
        DepGraph.has_edge (map s') (Some (getCollectionKeyForEntry collectionName)) n
        = DepGraph.has_edge (map s) (Some (getCollectionKeyForEntry collectionName)) n)
    /\ (~ In collectionName names -> collectionName <> SPECIAL_KEYS_COLLECTION_NAME ->
        DepGraph.has_edge (map s')
          (Some (getCollectionKeyForEntry SPECIAL_KEYS_COLLECTION_NAME))
          (Some (getCollectionKeyForEntry collectionName)) = true).
Proof.
  intros Hc Hnames Hnorm Hcons.
  destruct (publishes_spec s from n names collectionName consumer Hc Hnames Hnorm Hcons)
    as (s' & E & _ & _ & P1 & P2 & P3).
  exists s'. split; [exact E|]. split; [|split].
  - intros Hskip Hn. apply P1; [|assumption].
    destruct (String.eqb_spec collectionName SPECIAL_ALL_COLLECTION_NAME) as [Ha|Ha];
      [|reflexivity].
    destruct consumer; [|reflexivity]. exfalso. auto.
  - intros Ha Hcon. apply P2. subst. reflexivity.
  - exact P3.
Qed.


End Claims.

Section ResetClaim.
Import DepGraphFacts GlobalDependencyMap GlobalDependencyMapFacts CollectionFacts Invariants SearchMeasure.
Context {host : Host}.

(** C8. [resetNode] removes outgoing edges only. On every consistent
    state, for [A], [B], [C] that normalize to the nodes [a], [b], [c] with
    [c] different from [a]: after [addDependency(A, [B])],
    [addDependency(C, [A])] and [resetNode(A)], [getDependencies(A)] is the
    empty array and [getDependantsFor(A)] is an array that holds [c]. *)
Theorem resetNode_removes_outgoing_edges_only
    (s : GlobalDependencyMap.t) (A B C : jsval) (a : string) (b c : name) :
  DepGraph.consistent (map s) = true ->
  normalizeNode A = Ok (Some a) ->
  normalizeNode B = Ok b ->
  normalizeNode C = Ok c ->
  c <> Some a ->
  exists s1 s2 s3,
    addDependency s A [B] = Ok s1
    /\ addDependency s1 C [A] = Ok s2
    /\ resetNode s2 A = Ok s3
    /\ getDependencies s3 A true = Ok (Some [])
    /\ exists l, getDependantsFor s3 A = Ok (AsArray l) /\ In c l.
Proof.
  intros Hc HA HB HC Hca.
  destruct (addDependency__single s (Some a) b Hc) as (s1 & E1 & A1).
  destruct (addDependency__single s1 c (Some a) (ext_consistent _ _ (add_extends _ _ _ _ A1)))
    as (s2 & E2 & A2).
  assert (Hn2 : DepGraph.hasNode (map s2) (Some a) = true).
  { rewrite (add_has _ _ _ _ A2), name_eqb_refl, orb_true_r. reflexivity. }
  assert (Hin2 : In c (ins s2 (Some a))).
  { rewrite (add_in _ _ _ _ A2), name_eqb_refl, (name_eqb_neq _ _ Hca). simpl.
    apply JsArrayFacts.In_push_unique. auto. }
  destruct (resetNode_spec s2 A (Some a) (ext_consistent _ _ (add_extends _ _ _ _ A2)) HA Hn2)
    as (s3 & E3 & C3 & Hn3 & O3 & I3).
  exists s1, s2, s3. split; [|split; [|split; [|split]]].
  - unfold addDependency. rewrite HA. cbn [bind mapM]. rewrite HB. cbn [bind]. exact E1.
  - unfold addDependency. rewrite HC. cbn [bind mapM]. rewrite HA. cbn [bind]. exact E2.
  - exact E3.
  - unfold getDependencies. rewrite HA. cbn [bind]. rewrite Hn3. simpl.
    unfold DepGraph.dependenciesOf, DepGraph.closure_of. rewrite Hn3.
    rewrite DFS_leaf.
    + simpl. rewrite String.eqb_refl. reflexivity.
    + pose proof (has_outgoing (map s3) (Some a) C3) as Ho. rewrite Hn3 in Ho.
      unfold outs, DepGraph.edge_list in O3. unfold JsMap.has in Ho.
      destruct (JsMap.get (Some a) (DepGraph.outgoingEdges (map s3))); congruence.
  - exists (ins s3 (Some a)). split.
    + unfold getDependantsFor. rewrite (normalizeNode_truthy A a HA), HA. simpl.
      rewrite Hn3. simpl. unfold DepGraph.directDependantsOf. rewrite Hn3.
      rewrite edges_of_has by (rewrite has_incoming; assumption). reflexivity.
    + apply I3; assumption.
Qed.

End ResetClaim.

Section RemovedCollectionsClaim.
Import DepGraphFacts GlobalDependencyMap GlobalDependencyMapFacts CollectionFacts Invariants SearchMeasure.
Context {host : Host}.


End RemovedCollectionsClaim.

(** ** Scenarios *)

Section Scenarios.
Import GlobalDependencyMap GlobalDependencyMapFacts CollectionFacts Invariants SearchMeasure.
Context {host : Host}.

(** A path the normalizer leaves as it is names the node of that name. *)
Lemma normalizeNode_string (p : string) :
  p <> "" -> fullNormalization p = p -> normalizeNode (JSString p) = Ok (Some p).
Proof.
  intros Hp Hf. unfold normalizeNode. simpl.
  apply String.eqb_neq in Hp. rewrite Hp. simpl. rewrite Hf. reflexivity.
Qed.

Lemma isUserConfigCollectionName_config (s0 s : GlobalDependencyMap.t)
      (names : list string) (c : string) :
  userConfigurationCollectionApiNames s0 = Ok names ->
  config s = config s0 ->
  isUserConfigCollectionName s c = Ok (JsArray.includes String.eqb c names).
Proof.
  intros Hn Hc. apply isUserConfigCollectionName_ok.
  rewrite (names_of_config s0 s Hc). exact Hn.
Qed.

#[local] Arguments isUserConfigCollectionName : simpl never.
#[local] Arguments normalizeNode : simpl never.

(** Runs one operation of a scenario on the state the previous ones left;
    the hypotheses answer the questions about configuration-API names, the
    normalizer and the template configuration. *)
Ltac run_scenario :=
  unfold addDependencyPublishesToCollection, addDependencyConsumesCollection,
         addLayoutsToMap, normalizeLayoutsObject, addDependency, getLayoutsUsedBy,
         getDependencies, hasNode, getTemplateOrder;
  repeat (progress (cbn;
                    repeat match goal with
                           | H : normalizeNode _ = _ |- _ => rewrite H
                           | H : shouldSpiderJavaScriptDependencies _ = _ |- _ => rewrite H
                           | H : forall s, config s = _ -> _ = _ |- _ =>
                               rewrite H by reflexivity
                           end));
  reflexivity.

(** C3. On a map whose graph is still to be created, with the three paths
    left as they are by the normalizer and whatever the configuration-API
    collection names are: after post1.md and post2.md have published to
    "blog" and index.md has consumed it,
    [getTemplatesThatConsumeCollections({"blog"})] is the set of index.md
    alone. *)
Theorem templates_that_consume_blog
    (s0 : GlobalDependencyMap.t) (names : list string) :
  _map s0 = None ->
  userConfigurationCollectionApiNames s0 = Ok names ->
  fullNormalization "post1.md" = "post1.md" ->
  fullNormalization "post2.md" = "post2.md" ->
  fullNormalization "index.md" = "index.md" ->
  exists s1 s2 s3,
    addDependencyPublishesToCollection s0 (JSString "post1.md") "blog" = Ok s1
    /\ addDependencyPublishesToCollection s1 (JSString "post2.md") "blog" = Ok s2
    /\ addDependencyConsumesCollection s2 (JSString "index.md") "blog" = Ok s3
    /\ getTemplatesThatConsumeCollections s3 ["blog"] = Ok [Some "index.md"].
Proof.
  intros Hm Hnames H1 H2 H3.
  pose proof (normalizeNode_string "post1.md" ltac:(discriminate) H1) as N1.
  pose proof (normalizeNode_string "post2.md" ltac:(discriminate) H2) as N2.
  pose proof (normalizeNode_string "index.md" ltac:(discriminate) H3) as N3.
  pose proof (fun s => isUserConfigCollectionName_config s0 s names "blog" Hnames) as Hb.
  clear Hnames. destruct s0 as [m e tc cached]. simpl in Hm. subst m.
  generalize dependent (JsArray.includes String.eqb "blog" names). intros b Hb.
  assert (Hcfg : forall s, config s = config (GlobalDependencyMap.mk None e tc cached) ->
                           isUserConfigCollectionName s "blog" = Ok b) by exact Hb.
  clear Hb.
  destruct b; do 3 eexists; (split; [|split; [|split]]).
  all: [> run_scenario ..].
Qed.


(** C2, as amended. [getLayoutsUsedBy(node)] returns the layouts that
    depend on [node] (and [node] itself when it is a layout), and a template
    depends on its layout, not the other way round. On a map whose graph is
    still to be created and that does not spider JavaScript dependencies,
    with the four paths left as they are by the normalizer: after
    [addLayoutsToMap({"base.html": ["post1.md", "post2.md"]})],
    [getLayoutsUsedBy("post1.md")] is empty, [getLayoutsUsedBy("base.html")]
    is [["base.html"]] and [getDependencies("post1.md")] is [["base.html"]];
    after a later [addLayoutsToMap({"other.html": ["post1.md"]})] the node
    base.html is no longer in the graph, [getLayoutsUsedBy("post1.md")] is
    still empty, [getLayoutsUsedBy("other.html")] is [["other.html"]] and
    [getDependencies("post1.md")] is [["other.html"]]. *)
Theorem layouts_lifecycle (s0 : GlobalDependencyMap.t) :
  _map s0 = None ->
  spidersJavaScriptDependencies s0 = false ->
  fullNormalization "base.html" = "base.html" ->
  fullNormalization "other.html" = "other.html" ->
  fullNormalization "post1.md" = "post1.md" ->
  fullNormalization "post2.md" = "post2.md" ->
  exists s1 s2,
    addLayoutsToMap s0 [("base.html", [JSString "post1.md"; JSString "post2.md"])] = Ok s1
    /\ getLayoutsUsedBy s1 (JSString "post1.md") = Ok []
    /\ getLayoutsUsedBy s1 (JSString "base.html") = Ok [Some "base.html"]
    /\ getDependencies s1 (JSString "post1.md") true = Ok (Some [Some "base.html"])
    /\ addLayoutsToMap s1 [("other.html", [JSString "post1.md"])] = Ok s2
    /\ hasNode s2 (JSString "base.html") = Ok false
    /\ getLayoutsUsedBy s2 (JSString "post1.md") = Ok []
    /\ getLayoutsUsedBy s2 (JSString "other.html") = Ok [Some "other.html"]
    /\ getDependencies s2 (JSString "post1.md") true = Ok (Some [Some "other.html"]).
Proof.
  intros Hm Hsp Hb Ho H1 H2.
  pose proof (normalizeNode_string "base.html" ltac:(discriminate) Hb) as Nb.
  pose proof (normalizeNode_string "other.html" ltac:(discriminate) Ho) as No.
  pose proof (normalizeNode_string "post1.md" ltac:(discriminate) H1) as N1.
  pose proof (normalizeNode_string "post2.md" ltac:(discriminate) H2) as N2.
  destruct s0 as [m e tc cached]. simpl in Hm. subst m.
  unfold spidersJavaScriptDependencies in Hsp. simpl in Hsp.
  destruct tc as [c|]; do 2 eexists; repeat apply conj.
  all: [> run_scenario ..].
Qed.

(** C7, at the state it fails on. A graph whose only node is named
    "__collection:all,__collection:[keys]": [overallOrder()] is that node,
    the entry for "all" is appended, the two entries joined by a comma read
    like the pattern of the cleanup step, which drops both:
    [getTemplateOrder()] is empty and does not end with the entry for "all". *)
Theorem getTemplateOrder_drops_all_entry :
  fullNormalization "__collection:all,__collection:[keys]"
  = "__collection:all,__collection:[keys]" ->
  exists s,
    addDependency create (JSString "__collection:all,__collection:[keys]") [] = Ok s
    /\ DepGraph.overallOrder (map s) = Ok [Some "__collection:all,__collection:[keys]"]
    /\ getTemplateOrder s = Ok [].
Proof.
  intros H.
  pose proof (normalizeNode_string "__collection:all,__collection:[keys]"
                ltac:(discriminate) H) as N.
  eexists. repeat apply conj.
  all: [> run_scenario ..].
Qed.

(** C1, at the state it fails on. A template that consumes a
    configuration-API collection is marked by [Object.assign] on the string
    that is the data of its node; [JSON.stringify] writes the string and not
    the mark, so the graph [restore] builds from the text of [stringify] no
    longer knows the template as a configuration-API consumer. *)
Theorem restore_of_stringify_loses_consumer_mark :
  fullNormalization "index.md" = "index.md" ->
  exists s text s',
    addDependencyConsumesCollection (setCollectionApiNames create ["posts"])
      (JSString "index.md") "posts" = Ok s
    /\ stringify s = Ok text
    /\ restore s text = Ok s'
    /\ DepGraph.getNodeData (map s) (Some "index.md")
       = Ok (DStringObject "index.md" [("consumes", "[configapi]")])
    /\ DepGraph.getNodeData (map s') (Some "index.md") = Ok (DString "index.md")
    /\ isConfigurationApiConsumer s (Some "index.md") = Ok true
    /\ isConfigurationApiConsumer s' (Some "index.md") = Ok false.
Proof.
  intros H.
  pose proof (normalizeNode_string "index.md" ltac:(discriminate) H) as N.
  do 3 eexists. repeat apply conj.
  - unfold addDependencyConsumesCollection. rewrite N. vm_compute. reflexivity.
  - vm_compute. reflexivity.
  - vm_compute. reflexivity.
  - reflexivity.
  - reflexivity.
  - reflexivity.
  - reflexivity.
Qed.

(** C9, as amended. [normalizeNode] returns [undefined], without an error,
    for every falsy value ([null] and [undefined] among them). For a truthy
    value that is neither a string nor an object whose [toString()] gives a
    string it throws, and which error depends on the value. A truthy
    primitive gets the [TypeError] of the [in] test. An object whose
    [toString()] throws gets what that call throws. An object without
    [toString], and an object whose [toString()] returns a value that is
    not a string, get the error "`addDependencies` files must be strings.
    Received:" followed by the text of the object, respectively of the
    returned value; when that value has no text, they get the [TypeError]
    of the conversion instead. *)
Theorem normalizeNode_of_non_string (v : jsval) :
  (truthy v = false -> normalizeNode v = Ok None)
  /\ (truthy v = true -> is_string v = false -> string_convertible v = false ->
      let rejected := fun tested =>
        match to_text tested with
        | Ok received =>
            normalizeNode v
            = Throw (Error (String.append
                              "`addDependencies` files must be strings. Received:"
                              received))
        | Throw e => normalizeNode v = Throw e /\ exists msg, e = TypeError msg
        end in
      match v with
      | JSObject None _ => rejected v
      | JSObject (Some (Ok returned)) _ => rejected returned
      | JSObject (Some (Throw e)) _ => normalizeNode v = Throw e
      | _ => exists msg, normalizeNode v = Throw (TypeError msg)
      end).
Proof.
  split.
  - intros Hf. unfold normalizeNode. rewrite Hf. reflexivity.
  - intros Ht Hs Hc. unfold normalizeNode. rewrite Ht. cbn [negb].
    destruct v as [| |b|z| |z| |str|[[returned|e]|] txt]; cbn [bind]; cbv zeta;
      try discriminate; try reflexivity; try (eexists; reflexivity).
    + destruct returned as [| |[|]|z| |z| |str|ts' [txt'|]]; cbn [to_text];
        try discriminate; try reflexivity;
        (split; [reflexivity | eexists; reflexivity]).
    + destruct txt as [txt|]; cbn [to_text bind];
        [reflexivity | split; [reflexivity | eexists; reflexivity]].
Qed.

End Scenarios.


(** * The claims at concrete inputs *)

Section Witnesses.
Import GlobalDependencyMap Examples Invariants SearchMeasure.

(** C4 at the template index.md, where "posts" is a configuration-API
    collection. *)
Lemma consumes_adds_meta_collection_edges_witness :
  DepGraph.consistent (map withPosts) = true
  /\ userConfigurationCollectionApiNames withPosts = Ok ["posts"]
  /\ @normalizeNode exampleHost (JSString "index.md") = Ok (Some "index.md")
  /\ ((exists s', @addDependencyConsumesCollection exampleHost withPosts
                    (JSString "index.md") SPECIAL_KEYS_COLLECTION_NAME = Ok s'
         /\ DepGraph.has_edge (map s')
              (Some (getCollectionKeyForEntry SPECIAL_KEYS_COLLECTION_NAME))
              (Some (getCollectionKeyForEntry SPECIAL_ALL_COLLECTION_NAME)) = true)
      /\ (exists s', @addDependencyConsumesCollection exampleHost withPosts
                       (JSString "index.md") SPECIAL_ALL_COLLECTION_NAME = Ok s'
         /\ DepGraph.has_edge (map s')
              (Some (getCollectionKeyForEntry SPECIAL_ALL_COLLECTION_NAME))
              (Some (getCollectionKeyForEntry SPECIAL_KEYS_COLLECTION_NAME)) = true)
      /\ (forall collectionName,
            In collectionName ["posts"] -> collectionName <> SPECIAL_ALL_COLLECTION_NAME ->
            exists s', @addDependencyConsumesCollection exampleHost withPosts
                         (JSString "index.md") collectionName = Ok s'
              /\ DepGraph.has_edge (map s')
                   (Some (getCollectionKeyForEntry collectionName))
                   (Some (getCollectionKeyForEntry SPECIAL_ALL_COLLECTION_NAME)) = true)).
Proof.
  split; [reflexivity|]. split; [reflexivity|]. split; [reflexivity|].
  apply (@consumes_adds_meta_collection_edges exampleHost withPosts
           (JSString "index.md") "index.md" ["posts"]); reflexivity.
Defined.

(** C5 at the template post1.md publishing to "blog". *)
Lemma publishes_adds_collection_edges_witness :
  DepGraph.consistent (map noApiNames) = true
  /\ userConfigurationCollectionApiNames noApiNames = Ok []
  /\ @normalizeNode exampleHost (JSString "post1.md") = Ok (Some "post1.md")
  /\ isConfigurationApiConsumer noApiNames (Some "post1.md") = Ok false
  /\ exists s', @addDependencyPublishesToCollection exampleHost noApiNames
                  (JSString "post1.md") "blog" = Ok s'
       /\ (~ ("blog" = SPECIAL_ALL_COLLECTION_NAME /\ false = true) ->
           Some "post1.md" <> Some (getCollectionKeyForEntry "blog") ->
           DepGraph.has_edge (map s') (Some (getCollectionKeyForEntry "blog"))
             (Some "post1.md") = true)
       /\ ("blog" = SPECIAL_ALL_COLLECTION_NAME -> false = true ->
           DepGraph.has_edge (map s') (Some (getCollectionKeyForEntry "blog"))
             (Some "post1.md")
           = DepGraph.has_edge (map noApiNames) (Some (getCollectionKeyForEntry "blog"))
               (Some "post1.md"))
       /\ (~ In "blog" [] -> "blog" <> SPECIAL_KEYS_COLLECTION_NAME ->
           DepGraph.has_edge (map s')
             (Some (getCollectionKeyForEntry SPECIAL_KEYS_COLLECTION_NAME))
             (Some (getCollectionKeyForEntry "blog")) = true).
Proof.
  split; [reflexivity|]. split; [reflexivity|]. split; [reflexivity|].
  split; [reflexivity|].
  apply (@publishes_adds_collection_edges exampleHost noApiNames
           (JSString "post1.md") (Some "post1.md") [] "blog" false); reflexivity.
Defined.

(** C8 at the templates a.md, b.md and c.md, on a fresh map. *)
Lemma resetNode_removes_outgoing_edges_only_witness :
  DepGraph.consistent (map create) = true
  /\ @normalizeNode exampleHost (JSString "a.md") = Ok (Some "a.md")
  /\ @normalizeNode exampleHost (JSString "b.md") = Ok (Some "b.md")
  /\ @normalizeNode exampleHost (JSString "c.md") = Ok (Some "c.md")
  /\ Some "c.md" <> Some "a.md"
  /\ exists s1 s2 s3,
       @addDependency exampleHost create (JSString "a.md") [JSString "b.md"] = Ok s1
       /\ @addDependency exampleHost s1 (JSString "c.md") [JSString "a.md"] = Ok s2
       /\ @resetNode exampleHost s2 (JSString "a.md") = Ok s3
       /\ @getDependencies exampleHost s3 (JSString "a.md") true = Ok (Some [])
       /\ exists l, @getDependantsFor exampleHost s3 (JSString "a.md") = Ok (AsArray l)
                    /\ In (Some "c.md") l.
Proof.
  split; [reflexivity|]. split; [reflexivity|]. split; [reflexivity|].
  split; [reflexivity|]. split; [discriminate|].
  apply (@resetNode_removes_outgoing_edges_only exampleHost create
           (JSString "a.md") (JSString "b.md") (JSString "c.md")
           "a.md" (Some "b.md") (Some "c.md"));
    try reflexivity; discriminate.
Defined.

(** C3 on a fresh map without configuration-API collections. *)
Lemma templates_that_consume_blog_witness :
  _map noApiNames = None
  /\ userConfigurationCollectionApiNames noApiNames = Ok []
  /\ stripLeadingDotSlash "post1.md" = "post1.md"
  /\ stripLeadingDotSlash "post2.md" = "post2.md"
  /\ stripLeadingDotSlash "index.md" = "index.md"
  /\ exists s1 s2 s3,
       @addDependencyPublishesToCollection exampleHost noApiNames
         (JSString "post1.md") "blog" = Ok s1
       /\ @addDependencyPublishesToCollection exampleHost s1
            (JSString "post2.md") "blog" = Ok s2
       /\ @addDependencyConsumesCollection exampleHost s2
            (JSString "index.md") "blog" = Ok s3
       /\ getTemplatesThatConsumeCollections s3 ["blog"] = Ok [Some "index.md"].
Proof.
  split; [reflexivity|]. split; [reflexivity|]. split; [reflexivity|].
  split; [reflexivity|]. split; [reflexivity|].
  apply (@templates_that_consume_blog exampleHost noApiNames []); reflexivity.
Defined.

End Witnesses.

Section MoreWitnesses.
Import GlobalDependencyMap Examples Invariants SearchMeasure.





(** C2, as amended, on a fresh map. *)
Lemma layouts_lifecycle_witness :
  _map create = None
  /\ spidersJavaScriptDependencies create = false
  /\ stripLeadingDotSlash "base.html" = "base.html"
  /\ stripLeadingDotSlash "other.html" = "other.html"
  /\ stripLeadingDotSlash "post1.md" = "post1.md"
  /\ stripLeadingDotSlash "post2.md" = "post2.md"
  /\ exists s1 s2,
       @addLayoutsToMap exampleHost create
         [("base.html", [JSString "post1.md"; JSString "post2.md"])] = Ok s1
       /\ @getLayoutsUsedBy exampleHost s1 (JSString "post1.md") = Ok []
       /\ @getLayoutsUsedBy exampleHost s1 (JSString "base.html") = Ok [Some "base.html"]
       /\ @getDependencies exampleHost s1 (JSString "post1.md") true
          = Ok (Some [Some "base.html"])
       /\ @addLayoutsToMap exampleHost s1 [("other.html", [JSString "post1.md"])] = Ok s2
       /\ @hasNode exampleHost s2 (JSString "base.html") = Ok false
       /\ @getLayoutsUsedBy exampleHost s2 (JSString "post1.md") = Ok []
       /\ @getLayoutsUsedBy exampleHost s2 (JSString "other.html") = Ok [Some "other.html"]
       /\ @getDependencies exampleHost s2 (JSString "post1.md") true
          = Ok (Some [Some "other.html"]).
Proof.
  split; [reflexivity|]. split; [reflexivity|]. split; [reflexivity|].
  split; [reflexivity|]. split; [reflexivity|]. split; [reflexivity|].
  apply (@layouts_lifecycle exampleHost create); reflexivity.
Defined.

(** C2 as the specification states it, on a fresh map: after the first
    call [getLayoutsUsedBy("post1.md")] is not [["base.html"]]. *)
Lemma layouts_lifecycle_counterexample :
  ~ (exists s1,
        @addLayoutsToMap exampleHost create
          [("base.html", [JSString "post1.md"; JSString "post2.md"])] = Ok s1
        /\ @getLayoutsUsedBy exampleHost s1 (JSString "post1.md") = Ok [Some "base.html"]).
Proof.
  intros (s1 & H1 & H2).
  vm_compute in H1. injection H1 as <-.
  vm_compute in H2. discriminate.
Qed.

(** C9, as amended, at an object whose [toString()] returns the number
    5. *)
Lemma normalizeNode_of_non_string_witness :
  truthy (JSObject (Some (Ok (JSNumber 5))) None) = true
  /\ is_string (JSObject (Some (Ok (JSNumber 5))) None) = false
  /\ string_convertible (JSObject (Some (Ok (JSNumber 5))) None) = false
  /\ @normalizeNode exampleHost (JSObject (Some (Ok (JSNumber 5))) None)
     = Throw (Error "`addDependencies` files must be strings. Received:5").
Proof.
  split; [reflexivity|]. split; [reflexivity|]. split; [reflexivity|].
  exact (proj2 (@normalizeNode_of_non_string exampleHost
                  (JSObject (Some (Ok (JSNumber 5))) None))
           eq_refl eq_refl eq_refl).
Defined.

(** C9 as the specification states it, at [null]: a value that is neither
    a string nor string-convertible, for which [normalizeNode] raises no
    error and returns [undefined]. *)
Lemma normalizeNode_of_non_string_counterexample :
  is_string JSNull = false
  /\ string_convertible JSNull = false
  /\ @normalizeNode exampleHost JSNull = Ok None
  /\ ~ (exists e, @normalizeNode exampleHost JSNull = Throw e).
Proof.
  repeat split. intros [e H]. discriminate.
Qed.

(** C7 at the failing state, for the host of the examples. *)
Lemma getTemplateOrder_drops_all_entry_witness :
  stripLeadingDotSlash "__collection:all,__collection:[keys]"
  = "__collection:all,__collection:[keys]"
  /\ exists s,
       @addDependency exampleHost create
         (JSString "__collection:all,__collection:[keys]") [] = Ok s
       /\ DepGraph.overallOrder (map s) = Ok [Some "__collection:all,__collection:[keys]"]
       /\ getTemplateOrder s = Ok [].
Proof.
  split; [reflexivity|].
  apply (@getTemplateOrder_drops_all_entry exampleHost); reflexivity.
Defined.

(** C1 at the failing state, for the host of the examples. *)
Lemma restore_of_stringify_loses_consumer_mark_witness :
  stripLeadingDotSlash "index.md" = "index.md"
  /\ exists s text s',
       @addDependencyConsumesCollection exampleHost (setCollectionApiNames create ["posts"])
         (JSString "index.md") "posts" = Ok s
       /\ stringify s = Ok text
       /\ restore s text = Ok s'
       /\ DepGraph.getNodeData (map s) (Some "index.md")
          = Ok (DStringObject "index.md" [("consumes", "[configapi]")])
       /\ DepGraph.getNodeData (map s') (Some "index.md") = Ok (DString "index.md")
       /\ isConfigurationApiConsumer s (Some "index.md") = Ok true
       /\ isConfigurationApiConsumer s' (Some "index.md") = Ok false.
Proof.
  split; [reflexivity|].
  apply (@restore_of_stringify_loses_consumer_mark exampleHost); reflexivity.
Defined.

End MoreWitnesses.

(** * Further properties of the code *)






Module ReachabilityFacts.
Import DepGraph DepGraphFacts Reachability WellFormed SearchMeasure SearchFacts SearchTotality.

Lemma reaches_trans edges a b c :
  reaches edges a b -> reaches edges b c -> reaches edges a c.
Proof.
  intros Hab Hbc. induction Hbc as [c Hc | b' c Hb IH Hc].
  - eapply reaches_step; eauto.
  - eapply reaches_step; eauto.
Qed.

Lemma reaches_closed edges (P : name -> Prop) a x :
  (forall n m, P n -> In m (edge_list edges n) -> P m) ->
  P a -> reaches edges a x -> P x.
Proof.
  intros Hcl Ha Hr. induction Hr; eauto.
Qed.

Lemma reaches_mono edges edges' a x :
  (forall k y, In y (edge_list edges k) -> In y (edge_list edges' k)) ->
  reaches edges a x -> reaches edges' a x.
Proof.
  intros H Hr. induction Hr.
  - apply reaches_edge. auto.
  - eapply reaches_step; eauto.
Qed.

Lemma In_remove_all (x n : name) (l : list name) :
  In x (JsArray.remove_all name_eqb n l) <-> In x l /\ x <> n.
Proof.
  unfold JsArray.remove_all. rewrite filter_In.
  destruct (name_eqb_spec n x); split; intros [H1 H2]; split; auto; try congruence.
  discriminate.
Qed.

Lemma covered_weaken edges todo :
  forall (V V' Q Q' : name -> Prop),
    (forall x, V x -> V' x) -> (forall x, Q x -> Q' x \/ V' x) ->
    covered edges V Q todo -> covered edges V' Q' todo.
Proof.
  induction todo as [|[n [|]] rest IH]; intros V V' Q Q' HV HQ; simpl; auto.
  - intros [H1 H2]. split.
    + intros m Hm. destruct (H1 m Hm) as [H|H]; auto. destruct (HQ m H); auto.
    + eapply IH; eauto.
  - apply IH; auto. intros x [H|H]; auto. destruct (HQ x H); auto.
Qed.

Lemma covered_pushed edges V l rest :
  forall Q : name -> Prop,
    covered edges V (fun x => Q x \/ In x l) rest ->
    covered edges V Q (List.map (fun n => (n, false)) l ++ rest).
Proof.
  induction l as [|y l IH]; intros Q H; simpl.
  - eapply covered_weaken; [| |exact H]; simpl; auto. intros x [Hx|[]]; auto.
  - apply IH. eapply covered_weaken; [| |exact H]; simpl; auto.
    intros x [Hx|[Hx|Hx]]; auto.
Qed.

Lemma get_edge_list edges n l : JsMap.get n edges = Some l -> edge_list edges n = l.
Proof. unfold edge_list. intros ->. reflexivity. Qed.

Lemma descends_weaken edges todo :
  forall above above' : list name,
    (forall e, In e above' -> In e above \/ exists a, In a above /\ reaches edges a e) ->
    descends edges above todo -> descends edges above' todo.
Proof.
  induction todo as [|[n [|]] rest IH]; intros above above' H; simpl; auto.
  - intros [H1 H2]. split.
    + intros q Hq. destruct (H q Hq) as [Hin|(a & Ha & Hr)]; [auto|].
      right. destruct (H1 a Ha) as [->|Hpa]; [exact Hr | eapply reaches_trans; eauto].
    + apply (IH (n :: above)); [|exact H2].
      intros e [<-|He]; [left; simpl; auto|].
      destruct (H e He) as [Hin|(a & Ha & Hr)]; [left; simpl; auto|].
      right. exists a. simpl. auto.
  - apply (IH (n :: above)).
    intros e [<-|He]; [left; simpl; auto|].
    destruct (H e He) as [Hin|(a & Ha & Hr)]; [left; simpl; auto|].
    right. exists a. simpl. auto.
Qed.

Lemma descends_pushed edges l rest :
  forall above : list name,
    descends edges (l ++ above) rest ->
    descends edges above (List.map (fun n => (n, false)) l ++ rest).
Proof.
  induction l as [|y l IH]; intros above H; simpl; [exact H|].
  apply IH. eapply descends_weaken; [|exact H].
  intros e He. left. apply in_app_or in He. simpl in *. rewrite in_app_iff. tauto.
Qed.

Lemma descends_In edges todo (p : name) :
  forall above : list name,
    descends edges above todo -> In (p, true) todo ->
    forall q, In q above -> q = p \/ reaches edges p q.
Proof.
  induction todo as [|[n [|]] rest IH]; intros above H Hin q Hq; simpl in *.
  - destruct Hin.
  - destruct H as [H1 H2]. destruct Hin as [[= ->]|Hin]; [auto|].
    apply (IH (n :: above)); simpl; auto.
  - destruct Hin as [Hin|Hin]; [discriminate|].
    apply (IH (n :: above)); simpl; auto.
Qed.

(** The invariant of a search after an entry was skipped. *)
Lemma search_inv_skip edges node rest inCurrentPath visited :
  search_inv edges ((node, false) :: rest) inCurrentPath visited ->
  seen inCurrentPath visited node ->
  search_inv edges rest inCurrentPath visited.
Proof.
  intros (A & B & C & D) Hseen. split; [exact A|]. split; [|split].
  - intros n Hn. destruct (B n Hn) as [Heq|H]; [discriminate Heq | exact H].
  - eapply covered_weaken; [| |exact C]; simpl; auto. intros x [[] | ->]. auto.
  - eapply descends_weaken; [|exact D]. intros e [].
Qed.

(** The invariant of a search after a node was entered. *)
Lemma search_inv_enter edges node rest inCurrentPath visited nodeEdges :
  search_inv edges ((node, false) :: rest) inCurrentPath visited ->
  JsMap.get node edges = Some nodeEdges ->
  search_inv edges (List.map (fun n => (n, false)) nodeEdges ++ (node, true) :: rest)
    (node :: inCurrentPath) visited.
Proof.
  intros (A & B & C & D) Hg. apply get_edge_list in Hg. split; [|split; [|split]].
  - intros n m Hn Hm. destruct (A n m Hn Hm) as [H|H]; [left|right; simpl]; auto.
  - intros n [<-|Hn]; apply in_or_app; right; simpl; [auto|].
    destruct (B n Hn) as [Heq|H]; [discriminate Heq | auto].
  - apply covered_pushed. simpl. split.
    + intros m Hm. rewrite Hg in Hm. auto.
    + eapply covered_weaken; [| |exact C]; simpl.
      * intros x [H|H]; [left|right; simpl]; auto.
      * intros x [[] | ->]. right. right. simpl. auto.
  - apply descends_pushed. simpl. split.
    + intros q Hq. rewrite app_nil_r in Hq. right. apply reaches_edge. rewrite Hg. exact Hq.
    + simpl in D. eapply descends_weaken; [|exact D].
      intros e [<-|He]; [left; simpl; auto|].
      rewrite app_nil_r in He. right. exists node. split; [simpl; auto|].
      apply reaches_edge. rewrite Hg. exact He.
Qed.

(** The invariant of a search after a node was finished; the edges of the
    node lead to visited nodes, those on a cycle apart. *)
Lemma search_inv_finish edges node rest inCurrentPath visited :
  search_inv edges ((node, true) :: rest) inCurrentPath visited ->
  search_inv edges rest (JsArray.remove_all name_eqb node inCurrentPath) (node :: visited)
  /\ forall m, In m (edge_list edges node) -> ~ reaches edges m node -> In m visited.
Proof.
  intros (A & B & C & D). simpl in C, D. destruct C as [C1 C2]. destruct D as [_ D2].
  assert (Hseen : forall x, seen inCurrentPath visited x ->
                            seen (JsArray.remove_all name_eqb node inCurrentPath)
                              (node :: visited) x).
  { intros x [H|H]; [left; simpl; auto|].
    destruct (name_eqb_spec x node) as [->|Hne]; [left; simpl; auto|].
    right. apply In_remove_all. auto. }
  split; [split; [|split; [|split]]|].
  - intros n m [<-|Hn] Hm.
    + destruct (C1 m Hm) as [H|[]]. auto.
    + apply Hseen. eauto.
  - intros n Hn. apply In_remove_all in Hn. destruct Hn as [Hn Hne].
    destruct (B n Hn) as [[= ->]|H]; [congruence | assumption].
  - eapply covered_weaken; [| |exact C2]; simpl; auto.
  - eapply descends_weaken; [|exact D2]. intros e [].
  - intros m Hm Hcycle. destruct (C1 m Hm) as [[H|H]|[]]; [exact H|].
    exfalso. apply Hcycle.
    destruct (B m H) as [[= ->]|Hin]; [apply reaches_edge, Hm|].
    destruct (descends_In edges rest m [node] D2 Hin node) as [->|Hr]; [simpl; auto| |exact Hr].
    apply reaches_edge, Hm.
Qed.

(** What a search that returns has visited: everything it was given and
    everything that can be reached from there. *)
Lemma dfs_loop_complete edges :
  forall fuel todo inCurrentPath visited res visited' res',
    dfs_loop fuel edges true todo inCurrentPath visited res = Ok (visited', res') ->
    search_inv edges todo inCurrentPath visited ->
    (forall n, In n visited -> In n visited')
    /\ (forall n, In n inCurrentPath -> In n visited')
    /\ (forall n p, In (n, p) todo -> In n visited')
    /\ (forall n m, In n visited' -> In m (edge_list edges n) -> In m visited').
Proof.
  induction fuel as [|fuel IH]; intros todo inPath visited res visited' res' E Inv;
    [discriminate|].
  destruct todo as [|[node [|]] rest]; simpl in E.
  - injection E as <- <-. destruct Inv as (A & B & _). repeat split; auto.
    + intros n Hn. destruct (B n Hn).
    + intros n p [].
    + intros n m Hn Hm. destruct (A n m Hn Hm) as [H|H]; [assumption|].
      destruct (B m H).
  - apply IH in E; [|apply search_inv_finish, Inv].
    destruct E as (E1 & E2 & E3 & E4). repeat split; auto.
    + intros n Hn. apply E1. simpl. auto.
    + intros n Hn. destruct (name_eqb_spec n node) as [->|Hne].
      * apply E1. simpl. auto.
      * apply E2. apply In_remove_all. auto.
    + intros n p [[= <- <-]|H]; [apply E1; simpl; auto | eauto].
  - destruct (JsArray.includes name_eqb node visited) eqn:Hv.
    { apply JsArrayFacts.includes_In in Hv.
      apply IH in E; [|apply (search_inv_skip _ _ _ _ _ Inv); left; exact Hv].
      destruct E as (E1 & E2 & E3 & E4). repeat split; auto.
      intros n p [[= <- <-]|H]; eauto. }
    destruct (JsArray.includes name_eqb node inPath) eqn:Hi.
    { apply JsArrayFacts.includes_In in Hi.
      apply IH in E; [|apply (search_inv_skip _ _ _ _ _ Inv); right; exact Hi].
      destruct E as (E1 & E2 & E3 & E4). repeat split; auto.
      intros n p [[= <- <-]|H]; eauto. }
    destruct (JsMap.get node edges) as [nodeEdges|] eqn:Hg; [|discriminate].
    apply IH in E; [|apply (search_inv_enter _ _ _ _ _ _ Inv Hg)].
    destruct E as (E1 & E2 & E3 & E4). repeat split; auto.
    + intros n Hn. apply E2. simpl. auto.
    + intros n p [[= <- <-]|H].
      * apply E2. simpl. auto.
      * apply (E3 n p). apply in_or_app. right. simpl. auto.
Qed.

Lemma app_tail_split {A : Type} (l l1 l2 : list A) (x k : A) :
  l ++ [x] = l1 ++ k :: l2 ->
  (l2 = [] /\ l1 = l /\ k = x) \/ exists l2', l2 = l2' ++ [x] /\ l = l1 ++ k :: l2'.
Proof.
  destruct l2 as [|y l2 _] using rev_ind; intros H.
  - left. apply app_inj_tail in H. destruct H. auto.
  - right. exists l2.
    change (l1 ++ k :: l2 ++ [y]) with (l1 ++ (k :: l2) ++ [y]) in H.
    rewrite app_assoc in H. apply app_inj_tail in H. destruct H as [H <-].
    split; [reflexivity | exact H].
Qed.

(** A search puts the nodes it finishes after the nodes they have an edge
    to, the edges on a cycle apart. *)
Lemma dfs_loop_ordered edges :
  forall fuel todo inCurrentPath visited res visited' res',
    dfs_loop fuel edges true todo inCurrentPath visited res = Ok (visited', res') ->
    search_inv edges todo inCurrentPath visited ->
    (forall x, In x visited -> In x res) ->
    dependencies_first edges res ->
    dependencies_first edges res'.
Proof.
  induction fuel as [|fuel IH]; intros todo inPath visited res visited' res' E Inv RV O;
    [discriminate|].
  destruct todo as [|[node [|]] rest]; simpl in E.
  - injection E as <- <-. exact O.
  - destruct (search_inv_finish _ _ _ _ _ Inv) as [Inv' Hfin].
    apply IH in E; [exact E | exact Inv' | |].
    + intros x [<-|Hx]; apply in_or_app; [right; simpl; auto | left; auto].
    + intros l1 n l2 m Hsplit Hm Hcycle.
      apply app_tail_split in Hsplit. destruct Hsplit as [(_ & -> & ->)|(l2' & _ & Hres)].
      * apply RV, Hfin; assumption.
      * eapply O; eauto.
  - destruct (JsArray.includes name_eqb node visited) eqn:Hv.
    { apply JsArrayFacts.includes_In in Hv.
      apply IH in E; auto. apply (search_inv_skip _ _ _ _ _ Inv). left. exact Hv. }
    destruct (JsArray.includes name_eqb node inPath) eqn:Hi.
    { apply JsArrayFacts.includes_In in Hi.
      apply IH in E; auto. apply (search_inv_skip _ _ _ _ _ Inv). right. exact Hi. }
    destruct (JsMap.get node edges) as [nodeEdges|] eqn:Hg; [|discriminate].
    apply IH in E; auto. apply (search_inv_enter _ _ _ _ _ _ Inv Hg).
Qed.

(** A search that returns has visited nothing beyond what it was given and
    what its stack leads to. *)
Lemma dfs_loop_sound edges (circ : bool) (R : name -> Prop) :
  (forall n m, R n -> In m (edge_list edges n) -> R m) ->
  forall fuel todo inCurrentPath visited res visited' res',
    dfs_loop fuel edges circ todo inCurrentPath visited res = Ok (visited', res') ->
    (forall n p, In (n, p) todo -> R n) ->
    forall x, In x visited' -> In x visited \/ R x.
Proof.
  intros HR.
  induction fuel as [|fuel IH]; intros todo inPath visited res visited' res' E T x Hx;
    [discriminate|].
  destruct todo as [|[node [|]] rest]; simpl in E.
  - injection E as <- <-. auto.
  - eapply IH in E; [| |exact Hx].
    + destruct E as [[<-|H]|H]; auto. right. apply (T _ true). simpl. auto.
    + intros n p H. apply (T n p). simpl. auto.
  - assert (T' : forall n p, In (n, p) rest -> R n).
    { intros n p H. apply (T n p). simpl. auto. }
    destruct (JsArray.includes name_eqb node visited); [eapply IH; eauto|].
    destruct (JsArray.includes name_eqb node inPath).
    { destruct circ; [eapply IH; eauto | discriminate]. }
    destruct (JsMap.get node edges) as [nodeEdges|] eqn:Hg; [|discriminate].
    eapply IH in E; [exact E| |exact Hx].
    intros n p H. apply in_app_or in H. destruct H as [H|[H|H]].
    + apply in_map_iff in H. destruct H as (y & [= <- <-] & Hy).
      apply (HR node); [apply (T _ false); simpl; auto|].
      rewrite (get_edge_list _ _ _ Hg). assumption.
    + injection H as <- <-. apply (T _ false). simpl. auto.
    + eauto.
Qed.

Lemma finishing_pushed l rest :
  finishing (List.map (fun n => (n, false)) l ++ rest) = finishing rest.
Proof. induction l; simpl; auto. Qed.

Lemma finishing_In todo n : In n (finishing todo) <-> In (n, true) todo.
Proof.
  induction todo as [|[k [|]] rest IH]; simpl; [tauto| |].
  - rewrite IH. split; intros [H|H]; auto; [left; congruence | injection H; auto].
  - rewrite IH. split; [auto | intros [H|H]; [discriminate | auto]].
Qed.

(** The result of a search lists what the search has visited, each node
    once. *)
Lemma dfs_loop_result edges (circ : bool) :
  forall fuel todo inCurrentPath visited res visited' res',
    dfs_loop fuel edges circ todo inCurrentPath visited res = Ok (visited', res') ->
    (forall x, In x res <-> In x visited) -> NoDup res ->
    (forall n, In n (finishing todo) -> In n inCurrentPath /\ ~ In n visited) ->
    NoDup (finishing todo) ->
    (forall x, In x res' <-> In x visited') /\ NoDup res'.
Proof.
  induction fuel as [|fuel IH]; intros todo inPath visited res visited' res' E RV ND F NF;
    [discriminate|].
  destruct todo as [|[node [|]] rest]; simpl in E.
  - injection E as <- <-. auto.
  - simpl in F, NF. inversion NF as [|? ? Hnot NF']; subst.
    destruct (F node (or_introl eq_refl)) as [Hp Hv].
    apply IH in E; auto.
    + intros x. rewrite in_app_iff. simpl. rewrite RV. tauto.
    + apply NoDup_app; [assumption | repeat constructor; simpl; tauto|].
      intros x Hx [<-|[]]. apply Hv, RV, Hx.
    + intros n Hn. destruct (F n (or_intror Hn)) as [H1 H2].
      assert (n <> node) by congruence.
      split; [apply In_remove_all; auto|]. simpl. intros [?|?]; auto.
  - simpl in F, NF.
    destruct (JsArray.includes name_eqb node visited) eqn:Hv; [eapply IH; eauto|].
    destruct (JsArray.includes name_eqb node inPath) eqn:Hi.
    { destruct circ; [eapply IH; eauto | discriminate]. }
    destruct (JsMap.get node edges) as [nodeEdges|] eqn:Hg; [|discriminate].
    assert (Hnp : ~ In node inPath).
    { intros H. apply JsArrayFacts.includes_In in H. congruence. }
    assert (Hnv : ~ In node visited).
    { intros H. apply JsArrayFacts.includes_In in H. congruence. }
    apply IH in E; auto.
    + rewrite finishing_pushed. simpl. intros n [<-|Hn].
      * split; simpl; auto.
      * destruct (F n Hn). split; simpl; auto.
    + rewrite finishing_pushed. simpl. constructor; [|assumption].
      intros H. apply F in H. tauto.
Qed.

Lemma In_remove_first_NoDup (x y : name) (l : list name) :
  NoDup l -> In x (JsArray.remove_first name_eqb y l) <-> In x l /\ x <> y.
Proof.
  induction l as [|z l IH]; intros ND; simpl; [tauto|].
  inversion ND as [|? ? Hz ND']; subst.
  destruct (name_eqb_spec y z) as [->|Hyz].
  - split; [intros H; split; auto; congruence | intros [[H|H] Hne]; congruence].
  - simpl. rewrite (IH ND'). split.
    + intros [H|[H1 H2]]; split; auto; congruence.
    + intros [[H|H] Hne]; auto.
Qed.

Lemma search_inv_start edges visited start :
  (forall n m, In n visited -> In m (edge_list edges n) -> In m visited) ->
  search_inv edges [(start, false)] [] visited.
Proof.
  intros Hcl. split; [|split; [|split]]; simpl; auto.
  intros n m Hn Hm. left. eauto.
Qed.

(** One search of the graph store, on a closed map of edges with cycles
    allowed: it returns, and what it has visited is what it was given, the
    start and what the start reaches. *)
Lemma DFS_spec edges visited res start :
  closed edges = true -> JsMap.has start edges = true ->
  (forall n m, In n visited -> In m (edge_list edges n) -> In m visited) ->
  (forall x, In x res <-> In x visited) -> NoDup res ->
  exists visited' res',
    DFS edges true (visited, res) start = Ok (visited', res')
    /\ (forall n m, In n visited' -> In m (edge_list edges n) -> In m visited')
    /\ (forall x, In x res' <-> In x visited')
    /\ NoDup res'
    /\ (forall x, In x visited' <-> In x visited \/ x = start \/ reaches edges start x)
    /\ (dependencies_first edges res -> dependencies_first edges res').
Proof.
  intros Hc Hs Hcl RV ND.
  destruct (DFS_returns edges (visited, res) start Hc Hs) as [[visited' res'] E].
  exists visited', res'. split; [exact E|].
  unfold DFS in E.
  destruct (JsArray.includes name_eqb start visited) eqn:Hv.
  - injection E as <- <-. apply JsArrayFacts.includes_In in Hv.
    repeat split; auto; try apply RV.
    intros [H|[->|H]]; auto.
    eapply (reaches_closed edges (fun y => In y visited)); eauto.
  - pose proof (search_inv_start edges visited start Hcl) as Inv.
    destruct (dfs_loop_complete _ _ _ _ _ _ _ _ E Inv) as (E1 & _ & E3 & E4).
    destruct (dfs_loop_result _ _ _ _ _ _ _ _ _ E RV ND) as [R1 R2];
      [simpl; tauto | simpl; constructor |].
    split; [exact E4|]. split; [exact R1|]. split; [exact R2|]. split.
    + intros x. split.
      * intros Hx.
        eapply (dfs_loop_sound edges true (fun y => y = start \/ reaches edges start y))
          in E; [exact E| | |exact Hx].
        -- intros n m [->|Hn] Hm; right; [apply reaches_edge | eapply reaches_step]; eauto.
        -- intros n p [[= <- <-]|[]]. auto.
      * intros [H|[->|H]]; auto.
        -- apply (E3 start false). simpl. auto.
        -- eapply (reaches_closed edges (fun y => In y visited')); eauto.
           apply (E3 start false). simpl. auto.
    + intros O. eapply dfs_loop_ordered; eauto. intros x Hx. apply RV, Hx.
Qed.

(** [dependenciesOf] and [dependantsOf] on a closed map of edges: what the
    node reaches, the node itself left out, each node once. *)
Lemma closure_of_spec g edges node :
  closed edges = true -> JsMap.has node edges = true -> hasNode g node = true ->
  circular g = true ->
  exists l, closure_of g edges node = Ok l
    /\ NoDup l
    /\ forall x, In x l <-> x <> node /\ reaches edges node x.
Proof.
  intros Hc Hs Hn Hcirc. unfold closure_of. rewrite Hn, Hcirc.
  destruct (DFS_spec edges [] [] node Hc Hs) as (v & r & E & _ & RV & ND & Hv & _).
  { intros n m []. }
  { tauto. }
  { constructor. }
  rewrite E. simpl. eexists. split; [reflexivity|]. split.
  - clear -ND. induction r as [|z r IH]; simpl; [constructor|].
    inversion ND; subst. destruct (name_eqb node z); [assumption|].
    constructor; auto. intros H. apply In_remove_first_NoDup in H; tauto.
  - intros x. rewrite In_remove_first_NoDup by assumption. rewrite RV, Hv. simpl.
    intuition congruence.
Qed.

End ReachabilityFacts.

Module WellFormedFacts.
Import DepGraph DepGraphFacts Reachability ReachabilityFacts WellFormed SearchMeasure.

Lemma nodup_names_NoDup (l : list name) : nodup_names l = true <-> NoDup l.
Proof.
  induction l as [|x l IH]; simpl.
  - split; [constructor | reflexivity].
  - rewrite andb_true_iff, negb_true_iff, IH. split.
    + intros [H1 H2]. constructor; [|assumption].
      intros H. apply JsArrayFacts.includes_In in H. congruence.
    + intros H. inversion H as [|? ? Hx Hl]; subst. split; [|assumption].
      destruct (JsArray.includes name_eqb x l) eqn:E; [|reflexivity].
      apply JsArrayFacts.includes_In in E. contradiction.
Qed.

Lemma get_of_In {V : Type} (m : list (name * V)) k v :
  NoDup (JsMap.keys m) -> In (k, v) m -> JsMap.get k m = Some v.
Proof.
  induction m as [|[k' v'] m IH]; simpl; [tauto|].
  intros ND [H|H]; inversion ND as [|? ? Hk ND']; subst.
  - injection H as -> ->. rewrite name_eqb_refl. reflexivity.
  - destruct (name_eqb_spec k k') as [->|Hne]; [|auto].
    exfalso. apply Hk. apply in_map_iff. exists (k', v). auto.
Qed.

Lemma edge_list_has edges k x : In x (edge_list edges k) -> JsMap.has k edges = true.
Proof.
  unfold edge_list, JsMap.has. destruct (JsMap.get k edges); [reflexivity | intros []].
Qed.

Lemma mirrored_iff g :
  mirrored g = true
  <-> forall a b, In b (edge_list (outgoingEdges g) a)
                  <-> In a (edge_list (incomingEdges g) b).
Proof.
  unfold mirrored. rewrite andb_true_iff, !forallb_forall. split.
  - intros [H1 H2] a b. split; intros H.
    + pose proof (edge_list_has _ _ _ H) as Hk. apply JsMapFacts.has_In_keys in Hk.
      specialize (H1 a Hk). rewrite forallb_forall in H1.
      apply JsArrayFacts.includes_In. auto.
    + pose proof (edge_list_has _ _ _ H) as Hk. apply JsMapFacts.has_In_keys in Hk.
      specialize (H2 b Hk). rewrite forallb_forall in H2.
      apply JsArrayFacts.includes_In. auto.
  - intros H. split.
    + intros a _. apply forallb_forall. intros b Hb.
      apply JsArrayFacts.includes_In, H, Hb.
    + intros b _. apply forallb_forall. intros a Ha.
      apply JsArrayFacts.includes_In, H, Ha.
Qed.

Lemma simple_edges_iff edges :
  simple_edges edges = true <-> forall k, NoDup (edge_list edges k).
Proof.
  unfold simple_edges. rewrite forallb_forall. split.
  - intros H k. destruct (JsMap.has k edges) eqn:Hk.
    + apply nodup_names_NoDup, H, JsMapFacts.has_In_keys, Hk.
    + rewrite edge_list_absent by assumption. constructor.
  - intros H k _. apply nodup_names_NoDup, H.
Qed.

Lemma wellFormed_iff g : wellFormed g = true <-> WF g.
Proof.
  unfold wellFormed.
  rewrite !andb_true_iff, nodup_names_NoDup, mirrored_iff, !simple_edges_iff. split.
  - intros [[[[H1 H2] H3] H4] H5]. constructor; assumption.
  - intros [H1 H2 H3 H4 H5]. auto.
Qed.

Lemma WF_has_target g a b :
  WF g -> In b (edge_list (outgoingEdges g) a) -> hasNode g a = true /\ hasNode g b = true.
Proof.
  intros W H. split.
  - rewrite <- (has_outgoing g a (wf_consistent g W)). eapply edge_list_has; eauto.
  - apply (wf_mirror g W) in H.
    rewrite <- (has_incoming g b (wf_consistent g W)). eapply edge_list_has; eauto.
Qed.

Lemma WF_closed_out g : WF g -> closed (outgoingEdges g) = true.
Proof.
  intros W. unfold closed. apply forallb_forall. intros [k l] Hkl. simpl.
  apply forallb_forall. intros x Hx.
  pose proof (wf_consistent g W) as Hc.
  assert (Hg : JsMap.get k (outgoingEdges g) = Some l).
  { apply get_of_In; [|assumption].
    apply consistent_iff in Hc. destruct Hc as [[<- _] _]. apply (wf_keys g W). }
  apply get_edge_list in Hg. subst l.
  rewrite has_outgoing by assumption. exact (proj2 (WF_has_target g k x W Hx)).
Qed.

Lemma WF_closed_in g : WF g -> closed (incomingEdges g) = true.
Proof.
  intros W. unfold closed. apply forallb_forall. intros [k l] Hkl. simpl.
  apply forallb_forall. intros x Hx.
  pose proof (wf_consistent g W) as Hc.
  assert (Hg : JsMap.get k (incomingEdges g) = Some l).
  { apply get_of_In; [|assumption].
    apply consistent_iff in Hc. destruct Hc as [[_ <-] _]. apply (wf_keys g W). }
  apply get_edge_list in Hg. subst l.
  rewrite has_incoming by assumption.
  apply (wf_mirror g W) in Hx. exact (proj1 (WF_has_target g x k W Hx)).
Qed.

(** Along incoming edges a node reaches those that reach it along
    outgoing edges. *)
Lemma reaches_incoming g a x :
  WF g -> reaches (incomingEdges g) a x <-> reaches (outgoingEdges g) x a.
Proof.
  intros W. split.
  - intros H. induction H as [b Hb | b c Hab IH Hc].
    + apply reaches_edge. apply (wf_mirror g W). assumption.
    + eapply reaches_trans; [|exact IH]. apply reaches_edge, (wf_mirror g W), Hc.
  - intros H. induction H as [b Hb | b c Hab IH Hc].
    + apply reaches_edge. apply (wf_mirror g W). assumption.
    + eapply reaches_trans; [|exact IH]. apply reaches_edge, (wf_mirror g W), Hc.
Qed.

Lemma reaches_nodes g a x :
  WF g -> reaches (outgoingEdges g) a x -> hasNode g a = true /\ hasNode g x = true.
Proof.
  intros W H. induction H as [b Hb | b c Hab IH Hc].
  - exact (WF_has_target g a b W Hb).
  - split; [apply IH|]. exact (proj2 (WF_has_target g b c W Hc)).
Qed.

(** [dependenciesOf(node)] on a well-formed graph that allows cycles. *)
Lemma dependenciesOf_spec g node :
  WF g -> circular g = true -> hasNode g node = true ->
  exists l, dependenciesOf g node = Ok l
    /\ NoDup l
    /\ forall x, In x l <-> x <> node /\ reaches (outgoingEdges g) node x.
Proof.
  intros W Hcirc Hn. apply closure_of_spec; auto using WF_closed_out.
  rewrite has_outgoing; [assumption | apply W].
Qed.

(** [dependantsOf(node)] on a well-formed graph that allows cycles. *)
Lemma dependantsOf_spec g node :
  WF g -> circular g = true -> hasNode g node = true ->
  exists l, dependantsOf g node = Ok l
    /\ NoDup l
    /\ forall x, In x l <-> x <> node /\ reaches (outgoingEdges g) x node.
Proof.
  intros W Hcirc Hn.
  destruct (closure_of_spec g (incomingEdges g) node) as (l & E & ND & H);
    auto using WF_closed_in.
  { rewrite has_incoming; [assumption | apply W]. }
  exists l. split; [exact E|]. split; [exact ND|].
  intros x. rewrite H, reaches_incoming by assumption. reflexivity.
Qed.

End WellFormedFacts.

Module EdgeFacts.
Import DepGraph DepGraphFacts GlobalDependencyMap GlobalDependencyMapFacts CollectionFacts.
Import Invariants Reachability ReachabilityFacts WellFormed WellFormedFacts SearchMeasure.

Lemma bind_Ok {A B : Type} (c : result A) (k : A -> result B) (b : B) :
  bind c k = Ok b -> exists a, c = Ok a /\ k a = Ok b.
Proof. destruct c; simpl; [eauto | discriminate]. Qed.

Lemma NoDup_push_unique (x : name) (l : list name) :
  NoDup l -> NoDup (JsArray.push_unique name_eqb x l).
Proof.
  intros H. unfold JsArray.push_unique.
  destruct (JsArray.includes name_eqb x l) eqn:E; [assumption|].
  apply NoDup_app; [assumption | repeat constructor; simpl; tauto|].
  intros y Hy [<-|[]]. apply JsArrayFacts.includes_In in Hy. congruence.
Qed.

Lemma NoDup_remove_first (x : name) (l : list name) :
  NoDup l -> NoDup (JsArray.remove_first name_eqb x l).
Proof.
  induction l as [|z l IH]; intros ND; simpl; [constructor|].
  inversion ND; subst. destruct (name_eqb x z); [assumption|].
  constructor; auto. intros H. apply In_remove_first_NoDup in H; tauto.
Qed.

Lemma NoDup_keys_addNode g n d :
  NoDup (JsMap.keys (nodes g)) -> NoDup (JsMap.keys (nodes (DepGraph.addNode g n d))).
Proof.
  intros H. unfold DepGraph.addNode. destruct (DepGraph.hasNode g n) eqn:Hn; [assumption|].
  simpl. rewrite JsMapFacts.keys_set. fold (DepGraph.hasNode g n). rewrite Hn.
  apply NoDup_app; [assumption | repeat constructor; simpl; tauto|].
  intros y Hy [<-|[]]. apply JsMapFacts.has_In_keys in Hy.
  unfold DepGraph.hasNode in Hn. congruence.
Qed.

Lemma WF_addNode g n d :
  WF g -> match d with Some x => data_ok (n, x) = true | None => True end ->
  WF (DepGraph.addNode g n d).
Proof.
  intros W Hd. pose proof (wf_consistent g W) as Hc. constructor.
  - apply consistent_addNode; assumption.
  - apply NoDup_keys_addNode, W.
  - intros a b. rewrite outgoing_addNode, incoming_addNode by assumption. apply W.
  - intros k. rewrite outgoing_addNode by assumption. apply W.
  - intros k. rewrite incoming_addNode by assumption. apply W.
Qed.

Lemma add_one_nodes s from to s' :
  add_one from s to = Ok s' ->
  nodes (map s') = nodes (DepGraph.addNode (map s) to None).
Proof.
  unfold add_one, DepGraph.addDependency, node_missing. rewrite map_addNode_.
  destruct (negb (name_eqb from to)); [|intros [= <-]; rewrite map_addNode_; reflexivity].
  destruct (negb (DepGraph.hasNode _ from)); [discriminate|].
  destruct (negb (DepGraph.hasNode _ to)); [discriminate|].
  destruct (edges_of from _); simpl; [|discriminate].
  destruct (edges_of to _); simpl; [|discriminate].
  intros [= <-]. reflexivity.
Qed.

Lemma WF_added s s' a b :
  added s s' a b -> WF (map s) -> NoDup (JsMap.keys (nodes (map s'))) -> WF (map s').
Proof.
  intros A W K. constructor.
  - apply (ext_consistent _ _ (add_extends _ _ _ _ A)).
  - exact K.
  - intros x y. fold (outs s' x) (ins s' y).
    rewrite (add_out _ _ _ _ A), (add_in _ _ _ _ A).
    pose proof (wf_mirror _ W x y) as M. fold (outs s x) (ins s y) in M.
    pose proof (wf_mirror _ W a b) as M'. fold (outs s a) (ins s b) in M'.
    destruct (name_eqb_spec a b) as [Eab|Eab]; simpl; rewrite ?andb_false_r, ?andb_true_r;
      [exact M|].
    destruct (name_eqb_spec x a) as [->|Ex], (name_eqb_spec y b) as [->|Ey];
      rewrite ?JsArrayFacts.In_push_unique.
    + tauto.
    + rewrite M. intuition congruence.
    + rewrite <- M. intuition congruence.
    + exact M.
  - intros k. fold (outs s' k). rewrite (add_out _ _ _ _ A).
    destruct (name_eqb k a && negb (name_eqb a b));
      [apply NoDup_push_unique|]; apply (wf_out _ W).
  - intros k. fold (ins s' k). rewrite (add_in _ _ _ _ A).
    destruct (name_eqb k b && negb (name_eqb a b));
      [apply NoDup_push_unique|]; apply (wf_in _ W).
Qed.

Lemma add_one_spec s from to :
  WF (map s) -> DepGraph.hasNode (map s) from = true ->
  exists s', add_one from s to = Ok s' /\ added s s' from to /\ WF (map s').
Proof.
  intros W Hf.
  destruct (add_one_ok s from to (wf_consistent _ W) Hf) as (s' & E & A).
  exists s'. split; [exact E|]. split; [exact A|].
  apply (WF_added s s' from to A W).
  rewrite (add_one_nodes _ _ _ _ E). apply NoDup_keys_addNode, W.
Qed.

Lemma WF_addNode_ s n : WF (map s) -> WF (map (addNode_ s n None)).
Proof. intros W. rewrite map_addNode_. apply WF_addNode; auto. Qed.

(** The loop of [#addDependency] on a well-formed state that holds [from]. *)
Lemma add_loop_spec from l :
  forall s,
    WF (map s) -> DepGraph.hasNode (map s) from = true ->
    exists s', forOf l (add_one from) s = Ok s'
      /\ extends s s'
      /\ WF (map s')
      /\ (forall k, DepGraph.hasNode (map s') k
                    = DepGraph.hasNode (map s) k || JsArray.includes name_eqb k l)
      /\ (forall k x, In x (outs s' k)
                      <-> In x (outs s k) \/ (k = from /\ In x l /\ x <> from))
      /\ (forall k x, In x (ins s' k)
                      <-> In x (ins s k) \/ (x = from /\ In k l /\ k <> from)).
Proof.
  induction l as [|to l IH]; intros s W Hf; simpl.
  - exists s. split; [reflexivity|]. split; [apply extends_refl, W|]. split; [exact W|].
    split; [intros k; rewrite orb_false_r; reflexivity|]. split; intros k x; tauto.
  - destruct (add_one_spec s from to W Hf) as (s1 & E1 & A1 & W1).
    rewrite E1. cbn [bind].
    assert (Hf1 : DepGraph.hasNode (map s1) from = true).
    { rewrite (add_has _ _ _ _ A1), Hf. reflexivity. }
    destruct (IH s1 W1 Hf1) as (s' & E & X & W' & H & O & I).
    exists s'. split; [exact E|].
    split; [apply extends_trans with s1; [apply A1 | exact X]|].
    split; [exact W'|]. split; [|split].
    + intros k. rewrite H, (add_has _ _ _ _ A1). unfold JsArray.includes. simpl.
      name_cases k from.
      * rewrite Hf. reflexivity.
      * rewrite orb_false_r, orb_assoc. reflexivity.
    + intros k x. rewrite O, (add_out _ _ _ _ A1).
      destruct (name_eqb_spec k from) as [->|Ek], (name_eqb_spec from to) as [Et|Et];
        simpl; rewrite ?JsArrayFacts.In_push_unique; subst; intuition congruence.
    + intros k x. rewrite I, (add_in _ _ _ _ A1).
      destruct (name_eqb_spec k to) as [->|Ek], (name_eqb_spec from to) as [Et|Et];
        simpl; rewrite ?JsArrayFacts.In_push_unique; subst; intuition congruence.
Qed.

(** Everything [#addDependency(from, toArray)] does to a well-formed
    state. *)
Lemma addDependency__spec s from l :
  WF (map s) ->
  exists s', addDependency_ s from l = Ok s'
    /\ extends s s'
    /\ WF (map s')
    /\ (forall k, DepGraph.hasNode (map s') k
                  = DepGraph.hasNode (map s) k || name_eqb k from
                    || JsArray.includes name_eqb k l)
    /\ (forall k x, In x (outs s' k)
                    <-> In x (outs s k) \/ (k = from /\ In x l /\ x <> from))
    /\ (forall k x, In x (ins s' k)
                    <-> In x (ins s k) \/ (x = from /\ In k l /\ k <> from)).
Proof.
  intros W. rewrite addDependency__unfold.
  pose proof (wf_consistent _ W) as Hc.
  destruct (add_loop_spec from l (addNode_ s from None)) as (s' & E & X & W' & H & O & I).
  - apply WF_addNode_, W.
  - rewrite map_addNode_, hasNode_addNode, name_eqb_refl, orb_true_r. reflexivity.
  - exists s'. split; [exact E|].
    split; [apply extends_trans with (addNode_ s from None);
            [apply extends_addNode_, Hc | exact X]|].
    split; [exact W'|]. split; [|split].
    + intros k. rewrite H, map_addNode_, hasNode_addNode. reflexivity.
    + intros k x. rewrite O. unfold outs. rewrite map_addNode_, outgoing_addNode by exact Hc.
      reflexivity.
    + intros k x. rewrite I. unfold ins. rewrite map_addNode_, incoming_addNode by exact Hc.
      reflexivity.
Qed.

End EdgeFacts.



Section QueryFacts.
Import DepGraph DepGraphFacts GlobalDependencyMap GlobalDependencyMapFacts CollectionFacts.
Import Invariants Reachability ReachabilityFacts WellFormed WellFormedFacts EdgeFacts Queries.
Context {host : Host}.

Lemma removeLayoutNodes_static_spec g l :
  (forall x, In x l -> DepGraph.hasNode g x = true) ->
  removeLayoutNodes_static g l = Ok (filter (fun x => negb (layout_node g x)) l).
Proof.
  induction l as [|x l IH]; intros H; [reflexivity|].
  assert (Hx : DepGraph.hasNode g x = true) by (apply H; simpl; auto).
  apply hasNode_get in Hx. destruct Hx as [d Hd].
  assert (Hl : layout_node g x = is_layout_data d).
  { unfold layout_node. rewrite Hd. reflexivity. }
  cbn [removeLayoutNodes_static filter]. unfold getNodeData. rewrite Hd. cbn [bind].
  rewrite IH by (intros y Hy; apply H; simpl; auto). cbn [bind].
  rewrite Hl. destruct (is_layout_data d); reflexivity.
Qed.

Lemma filterOutLayouts_spec s l :
  (forall x, In x l -> DepGraph.hasNode (map s) x = true) ->
  filterOutLayouts s l = Ok (filter (fun x => negb (layout_node (map s) x)) l).
Proof.
  induction l as [|x l IH]; intros H; [reflexivity|].
  assert (Hx : DepGraph.hasNode (map s) x = true) by (apply H; simpl; auto).
  apply hasNode_get in Hx. destruct Hx as [d Hd].
  assert (Hl : layout_node (map s) x = is_layout_data d).
  { unfold layout_node. rewrite Hd. reflexivity. }
  cbn [filterOutLayouts filter]. unfold getNodeData. rewrite Hd. cbn [bind].
  rewrite IH by (intros y Hy; apply H; simpl; auto). cbn [bind].
  rewrite Hl. destruct (is_layout_data d); reflexivity.
Qed.

(** [getDependencies] on a well-formed state whose graph allows cycles,
    for a node of the graph. *)
Lemma getDependencies_spec (s : GlobalDependencyMap.t) (node : jsval) (n : name)
      (includeLayouts : bool) :
  WF (map s) -> circular (map s) = true ->
  normalizeNode node = Ok n -> DepGraph.hasNode (map s) n = true ->
  exists l, getDependencies s node includeLayouts = Ok (Some l)
    /\ NoDup l
    /\ forall x, In x l <-> x <> n /\ reaches (outgoingEdges (map s)) n x
                            /\ kept_dependency (map s) includeLayouts x = true.
Proof.
  intros W Hcirc Hnorm Hn.
  destruct (dependenciesOf_spec (map s) n W Hcirc Hn) as (deps & E & ND & Hd).
  unfold getDependencies. rewrite Hnorm. cbn [bind]. rewrite Hn. simpl.
  rewrite E. cbn [bind]. destruct includeLayouts; simpl.
  - eexists. split; [reflexivity|]. split; [apply NoDup_filter, ND|].
    intros x. rewrite filter_In, Hd. tauto.
  - rewrite removeLayoutNodes_static_spec.
    + cbn [bind]. eexists. split; [reflexivity|]. split; [apply NoDup_filter, ND|].
      intros x. rewrite filter_In, Hd. tauto.
    + intros x Hx. apply Hd in Hx. destruct Hx as [_ Hx].
      exact (proj2 (reaches_nodes _ _ _ W Hx)).
Qed.


Lemma getDependencies_unknown (s : GlobalDependencyMap.t) (node : jsval) (n : name)
      (includeLayouts : bool) :
  normalizeNode node = Ok n -> DepGraph.hasNode (map s) n = false ->
  getDependencies s node includeLayouts = Ok None.
Proof.
  intros Hnorm Hn. unfold getDependencies. rewrite Hnorm. cbn [bind]. rewrite Hn. reflexivity.
Qed.

(** [hasDependency] on a well-formed state whose graph allows cycles. *)
Lemma hasDependency_spec (s : GlobalDependencyMap.t) (from to : jsval) (f t : name)
      (includeLayouts : option bool) :
  WF (map s) -> circular (map s) = true ->
  normalizeNode from = Ok f -> normalizeNode to = Ok t ->
  exists b, hasDependency s from to includeLayouts = Ok b
    /\ (b = true <-> t <> f /\ reaches (outgoingEdges (map s)) f t
                     /\ kept_dependency (map s) (with_layouts includeLayouts) t = true).
Proof.
  intros W Hcirc Hf Ht. unfold hasDependency. rewrite Ht. cbn [bind].
  fold (with_layouts includeLayouts).
  destruct (DepGraph.hasNode (map s) f) eqn:Hn.
  - destruct (getDependencies_spec s from f (with_layouts includeLayouts) W Hcirc Hf Hn)
      as (l & E & _ & Hl).
    rewrite E. cbn [bind]. eexists. split; [reflexivity|].
    rewrite JsArrayFacts.includes_In. apply Hl.
  - rewrite (getDependencies_unknown s from f _ Hf Hn). cbn [bind].
    exists false. split; [reflexivity|]. split; [discriminate|].
    intros (_ & Hr & _). apply (reaches_nodes _ _ _ W) in Hr. destruct Hr. congruence.
Qed.


Lemma mapM_In {A B : Type} (f : A -> result B) (l : list A) (l' : list B) (x : A) (y : B) :
  mapM f l = Ok l' -> In x l -> f x = Ok y -> In y l'.
Proof.
  revert l'. induction l as [|a l IH]; intros l' E Hx Hy; simpl in *; [tauto|].
  apply bind_Ok in E. destruct E as (b & Eb & E).
  apply bind_Ok in E. destruct E as (bs & Ebs & E). injection E as <-.
  destruct Hx as [->|Hx].
  - left. congruence.
  - right. eauto.
Qed.

Lemma layout_node_extends s s' x :
  extends s s' -> DepGraph.hasNode (map s) x = true ->
  layout_node (map s') x = layout_node (map s) x.
Proof.
  intros X Hx. apply hasNode_get in Hx. destruct Hx as [d Hd].
  unfold layout_node. rewrite Hd, (ext_data _ _ X _ _ Hd). reflexivity.
Qed.

Lemma getDependencies_normalizes s node includeLayouts r :
  getDependencies s node includeLayouts = Ok r -> exists n, normalizeNode node = Ok n.
Proof.
  unfold getDependencies. intros H. apply bind_Ok in H. destruct H as (n & Hn & _). eauto.
Qed.

Lemma hasDependency_normalizes s from to includeLayouts r :
  hasDependency s from to includeLayouts = Ok r ->
  exists f t, normalizeNode from = Ok f /\ normalizeNode to = Ok t.
Proof.
  unfold hasDependency. intros H. apply bind_Ok in H. destruct H as (t & Ht & H).
  apply bind_Ok in H. destruct H as (deps & Hd & _).
  apply getDependencies_normalizes in Hd. destruct Hd as [f Hf]. eauto.
Qed.

Lemma normalized_truthy (a : string) :
  normalizeNode (JSString a) = Ok (Some a) -> name_truthy (Some a) = true.
Proof.
  unfold normalizeNode, truthy, name_truthy.
  destruct (String.eqb a ""); simpl; [discriminate | reflexivity].
Qed.

(** [isFileRelevantTo] on two normalized paths. *)
Lemma isFileRelevantTo_spec s (a b : string) (includeLayouts : option bool) :
  WF (map s) -> circular (map s) = true ->
  normalizeNode (JSString a) = Ok (Some a) -> normalizeNode (JSString b) = Ok (Some b) ->
  exists r, isFileRelevantTo s (JSString a) (JSString b) includeLayouts = Ok r
    /\ (r = true <-> a = b
                     \/ (reaches (outgoingEdges (map s)) (Some a) (Some b)
                         /\ kept_dependency (map s) (with_layouts includeLayouts) (Some b)
                            = true)).
Proof.
  intros W Hcirc Ha Hb. unfold isFileRelevantTo. rewrite Ha, Hb. cbn [bind].
  rewrite (normalized_truthy b Hb). cbn [negb].
  destruct (name_eqb_spec (Some a) (Some b)) as [E|E].
  - exists true. split; [reflexivity|]. split; [|reflexivity]. left. congruence.
  - cbn [of_name].
    destruct (hasDependency_spec s (JSString a) (JSString b) (Some a) (Some b)
                includeLayouts W Hcirc Ha Hb) as (r & Er & Hr).
    exists r. split; [exact Er|]. rewrite Hr. split.
    + intros (_ & H1 & H2). auto.
    + intros [->|[H1 H2]]; [congruence|]. split; [congruence | auto].
Qed.

End QueryFacts.

Section DependencyProperties.
Import DepGraph DepGraphFacts GlobalDependencyMap GlobalDependencyMapFacts CollectionFacts.
Import Invariants Reachability ReachabilityFacts WellFormed WellFormedFacts EdgeFacts Queries.
Context {host : Host}.

(** X1. What [getDependencies] returns. On a well-formed state whose graph
    allows cycles, for a node of the graph, [getDependencies(node,
    includeLayouts)] returns an array without repetition that holds exactly
    the nodes other than [node] that [node] reaches along dependency edges
    and that the filter keeps: the truthy names when layouts are included,
    the nodes that are not layouts otherwise. *)
Theorem getDependencies_lists_reached_nodes
    (s : GlobalDependencyMap.t) (node : jsval) (n : name) (includeLayouts : bool) :
  wellFormed (map s) = true -> circular (map s) = true ->
  normalizeNode node = Ok n -> DepGraph.hasNode (map s) n = true ->
  exists l, getDependencies s node includeLayouts = Ok (Some l)
    /\ NoDup l
    /\ forall x, In x l <-> x <> n /\ reaches (outgoingEdges (map s)) n x
                            /\ kept_dependency (map s) includeLayouts x = true.
Proof.
  intros W. apply wellFormed_iff in W. apply getDependencies_spec. exact W.
Qed.

(** X2. A dependency that was added is found. On a well-formed state whose
    graph allows cycles, [addDependency(from, toArray)] returns, and
    afterwards [hasDependency(from, to)] is true for every [to] of the array
    that normalizes to a truthy name other than that of [from], with
    [includeLayouts] left out or true. *)
Theorem hasDependency_after_addDependency
    (s : GlobalDependencyMap.t) (from : jsval) (toArray : list jsval)
    (f : name) (ts : list name) :
  wellFormed (map s) = true -> circular (map s) = true ->
  normalizeNode from = Ok f -> mapM normalizeNode toArray = Ok ts ->
  exists s', addDependency s from toArray = Ok s'
    /\ forall to t includeLayouts,
         In to toArray -> normalizeNode to = Ok t -> t <> f -> name_truthy t = true ->
         includeLayouts <> Some false ->
         hasDependency s' from to includeLayouts = Ok true.
Proof.
  intros W Hcirc Hf Hts. apply wellFormed_iff in W.
  destruct (addDependency__spec s f ts W) as (s' & E & X & W' & H & O & I).
  exists s'. split.
  - unfold addDependency. rewrite Hf, Hts. exact E.
  - intros to t incl Hin Ht Htf Htruthy Hincl.
    assert (Hcirc' : circular (map s') = true) by (rewrite (ext_circular _ _ X); exact Hcirc).
    destruct (hasDependency_spec s' from to f t incl W' Hcirc' Hf Ht) as (b & Eb & Hb).
    rewrite Eb. f_equal. apply Hb. split; [exact Htf|]. split.
    + apply reaches_edge. apply O. right. split; [reflexivity|]. split; [|exact Htf].
      eapply mapM_In; eauto.
    + destruct incl as [[|]|]; simpl; congruence.
Qed.

(** X3. [addDependency] removes no dependency. On a well-formed state
    whose graph allows cycles, every [hasDependency(a, b, includeLayouts)]
    that is true before [addDependency(from, toArray)] is true after it. *)
Theorem addDependency_keeps_dependencies
    (s : GlobalDependencyMap.t) (from : jsval) (toArray : list jsval)
    (f : name) (ts : list name) :
  wellFormed (map s) = true -> circular (map s) = true ->
  normalizeNode from = Ok f -> mapM normalizeNode toArray = Ok ts ->
  exists s', addDependency s from toArray = Ok s'
    /\ forall a b includeLayouts,
         hasDependency s a b includeLayouts = Ok true ->
         hasDependency s' a b includeLayouts = Ok true.
Proof.
  intros W Hcirc Hf Hts. apply wellFormed_iff in W.
  destruct (addDependency__spec s f ts W) as (s' & E & X & W' & H & O & I).
  exists s'. split.
  - unfold addDependency. rewrite Hf, Hts. exact E.
  - intros a b incl Hab.
    assert (Hcirc' : circular (map s') = true) by (rewrite (ext_circular _ _ X); exact Hcirc).
    destruct (hasDependency_normalizes _ _ _ _ _ Hab) as (a' & b' & Ha & Hb).
    destruct (hasDependency_spec s a b a' b' incl W Hcirc Ha Hb) as (r & Er & Hr).
    destruct (hasDependency_spec s' a b a' b' incl W' Hcirc' Ha Hb) as (r' & Er' & Hr').
    rewrite Er'. f_equal. apply Hr'.
    assert (r = true) by congruence. apply Hr in H0. destruct H0 as (H1 & H2 & H3).
    split; [exact H1|]. split.
    + eapply reaches_mono; [|exact H2]. intros k y Hy. apply O. left. exact Hy.
    + destruct (with_layouts incl); simpl in *; [exact H3|].
      rewrite (layout_node_extends s s'); [exact H3 | exact X|].
      exact (proj2 (reaches_nodes _ _ _ W H2)).
Qed.

(** X4. Relevance is a preorder. On a well-formed state whose graph allows
    cycles and for normalized paths, [isFileRelevantTo(a, a)] is true, and
    when [isFileRelevantTo(a, b)] and [isFileRelevantTo(b, c)] are true so
    is [isFileRelevantTo(a, c)], for every [includeLayouts]. *)
Theorem isFileRelevantTo_is_a_preorder
    (s : GlobalDependencyMap.t) (a b c : string) (includeLayouts : option bool) :
  wellFormed (map s) = true -> circular (map s) = true ->
  normalizeNode (JSString a) = Ok (Some a) ->
  normalizeNode (JSString b) = Ok (Some b) ->
  normalizeNode (JSString c) = Ok (Some c) ->
  isFileRelevantTo s (JSString a) (JSString a) includeLayouts = Ok true
  /\ (isFileRelevantTo s (JSString a) (JSString b) includeLayouts = Ok true ->
      isFileRelevantTo s (JSString b) (JSString c) includeLayouts = Ok true ->
      isFileRelevantTo s (JSString a) (JSString c) includeLayouts = Ok true).
Proof.
  intros W Hcirc Ha Hb Hc. apply wellFormed_iff in W. split.
  - destruct (isFileRelevantTo_spec s a a includeLayouts W Hcirc Ha Ha) as (r & Er & Hr).
    rewrite Er. f_equal. apply Hr. auto.
  - intros Hab Hbc.
    destruct (isFileRelevantTo_spec s a b includeLayouts W Hcirc Ha Hb) as (r1 & E1 & H1).
    destruct (isFileRelevantTo_spec s b c includeLayouts W Hcirc Hb Hc) as (r2 & E2 & H2).
    destruct (isFileRelevantTo_spec s a c includeLayouts W Hcirc Ha Hc) as (r3 & E3 & H3).
    rewrite E3. f_equal. apply H3.
    assert (R1 : r1 = true) by congruence. assert (R2 : r2 = true) by congruence.
    apply H1 in R1. apply H2 in R2.
    destruct R1 as [->|[P1 Q1]]; [exact R2|].
    destruct R2 as [<-|[P2 Q2]]; [auto|].
    right. split; [eapply reaches_trans; eauto | exact Q2].
Qed.

End DependencyProperties.

Module OrderFacts.
Import DepGraph DepGraphFacts Reachability ReachabilityFacts WellFormed WellFormedFacts.
Import SearchMeasure SearchFacts SearchTotality.

(** Searches from several starts on the shared [(visited, result)]. *)
Lemma forOf_DFS_spec edges starts :
  closed edges = true ->
  forall visited res,
    (forall x, In x starts -> JsMap.has x edges = true) ->
    (forall n m, In n visited -> In m (edge_list edges n) -> In m visited) ->
    (forall x, In x res <-> In x visited) -> NoDup res ->
    exists visited' res',
      forOf starts (DFS edges true) (visited, res) = Ok (visited', res')
      /\ (forall n m, In n visited' -> In m (edge_list edges n) -> In m visited')
      /\ (forall x, In x res' <-> In x visited')
      /\ NoDup res'
      /\ (forall x, In x visited'
                    <-> In x visited
                        \/ exists st, In st starts /\ (x = st \/ reaches edges st x))
      /\ (dependencies_first edges res -> dependencies_first edges res').
Proof.
  intros Hc. induction starts as [|st starts IH]; intros visited res Hs Hcl RV ND; cbn [forOf].
  - exists visited, res. repeat split; auto; try apply RV.
    intros [H|(st & [] & _)]. exact H.
  - destruct (DFS_spec edges visited res st Hc) as (v1 & r1 & E1 & C1 & RV1 & ND1 & H1 & O1);
      auto.
    { apply Hs. simpl. auto. }
    rewrite E1. cbn [bind].
    destruct (IH v1 r1) as (v2 & r2 & E2 & C2 & RV2 & ND2 & H2 & O2); auto.
    { intros x Hx. apply Hs. simpl. auto. }
    exists v2, r2. split; [exact E2|]. split; [exact C2|]. split; [exact RV2|].
    split; [exact ND2|]. split; [|auto]. intros x. rewrite H2, H1. split.
    + intros [[H|H]|(st' & Hst & H)]; auto.
      * right. exists st. simpl. auto.
      * right. exists st'. simpl. auto.
    + intros [H|(st' & [<-|Hst] & H)]; auto. right. eauto.
Qed.

Lemma dependencies_first_nil edges : dependencies_first edges [].
Proof. intros [|? ?] n l2 m H; discriminate H. Qed.

(** [overallOrder()] on a well-formed graph that allows cycles: it returns
    the nodes of the graph, each once, a node after the nodes it has an
    edge to. *)
Lemma overallOrder_spec g :
  WF g -> circular g = true ->
  exists order, overallOrder g = Ok order
    /\ NoDup order
    /\ (forall x, In x order <-> hasNode g x = true)
    /\ dependencies_first (outgoingEdges g) order.
Proof.
  intros W Hcirc. pose proof (wf_consistent g W) as Hc.
  pose proof (WF_closed_out g W) as Hcl.
  assert (Hkeys : forall x, In x (JsMap.keys (nodes g)) <-> hasNode g x = true).
  { intros x. unfold hasNode. symmetry. apply JsMapFacts.has_In_keys. }
  assert (Hout : forall x, In x (JsMap.keys (nodes g)) ->
                           JsMap.has x (outgoingEdges g) = true).
  { intros x Hx. rewrite has_outgoing by assumption. apply Hkeys, Hx. }
  assert (Hin : forall x, In x (JsMap.keys (nodes g)) ->
                          JsMap.has x (incomingEdges g) = true).
  { intros x Hx. rewrite has_incoming by assumption. apply Hkeys, Hx. }
  unfold overallOrder. rewrite Hcirc.
  destruct (JsMap.keys (nodes g)) as [|k0 keys] eqn:Hk.
  { exists []. split; [reflexivity|]. split; [constructor|].
    split; [|apply dependencies_first_nil].
    intros x. rewrite <- Hkeys. reflexivity. }
  cbn [bind].
  destruct (starts_returns (incomingEdges g) (k0 :: keys) [] Hin) as (starts & E & Hs).
  rewrite E. cbn [bind].
  destruct (forOf_DFS_spec (outgoingEdges g) starts Hcl [] [])
    as (v1 & r1 & E1 & C1 & RV1 & ND1 & H1 & O1).
  { intros x Hx. apply Hout. destruct (Hs x Hx) as [[]|H]; exact H. }
  { intros n m []. }
  { tauto. }
  { constructor. }
  rewrite E1. cbn [bind snd].
  destruct (forOf_DFS_spec (outgoingEdges g)
              (filter (fun node => negb (JsArray.includes name_eqb node r1)) (k0 :: keys))
              Hcl v1 r1) as (v2 & r2 & E2 & C2 & RV2 & ND2 & H2 & O2); auto.
  { intros x Hx. apply filter_In in Hx. apply Hout, Hx. }
  rewrite E2. cbn [bind]. exists r2. split; [reflexivity|]. split; [exact ND2|].
  split; [|apply O2, O1, dependencies_first_nil].
  intros x. rewrite RV2, H2, H1. split.
  - intros [[[]|(st & Hst & H)]|(st & Hst & H)].
    + assert (Hn : hasNode g st = true).
      { apply Hkeys. destruct (Hs st Hst) as [[]|Hx]; exact Hx. }
      destruct H as [->|H]; [exact Hn|]. exact (proj2 (reaches_nodes g st x W H)).
    + assert (Hn : hasNode g st = true).
      { apply Hkeys. apply filter_In in Hst. apply Hst. }
      destruct H as [->|H]; [exact Hn|]. exact (proj2 (reaches_nodes g st x W H)).
  - intros Hx. apply Hkeys in Hx.
    destruct (JsArray.includes name_eqb x r1) eqn:Hr.
    + left. apply JsArrayFacts.includes_In, RV1, H1 in Hr. exact Hr.
    + right. exists x. split; [|auto]. apply filter_In. rewrite Hr. auto.
Qed.

(** A result that puts dependencies first does so in each of its
    beginnings. *)
Lemma dependencies_first_prefix edges (l tail : list name) :
  dependencies_first edges (l ++ tail) -> dependencies_first edges l.
Proof.
  intros O l1 n l2 m -> Hm Hcycle.
  apply (O l1 n (l2 ++ tail) m); auto. rewrite <- app_assoc. reflexivity.
Qed.

(** One more entry at the end of a result that holds all its edges lead
    to. *)
Lemma dependencies_first_snoc edges (l : list name) (k : name) :
  dependencies_first edges l ->
  (forall m, In m (edge_list edges k) -> In m l) ->
  dependencies_first edges (l ++ [k]).
Proof.
  intros O Hk l1 n l2 m Hsplit Hm Hcycle.
  apply app_tail_split in Hsplit. destruct Hsplit as [(_ & -> & ->)|(l2' & _ & Hres)].
  - apply Hk, Hm.
  - eapply O; eauto.
Qed.

End OrderFacts.

Module TemplateOrderSpec.
Import GlobalDependencyMap Invariants SearchMeasure TemplateOrderFacts.

Lemma join_text_keys (b : name) :
  join_text b = "__collection:[keys]" -> b = Some "__collection:[keys]".
Proof. destruct b; simpl; [congruence | discriminate]. Qed.

Section WithHost.
Context {host : Host}.

(** [getTemplateOrder()] returns a beginning of the order of the graph
    store followed by the entry of the collection "all". *)
Lemma getTemplateOrder_prefix (s : GlobalDependencyMap.t) (order : list name) :
  DepGraph.overallOrder (map s) = Ok order ->
  exists r tail,
    getTemplateOrder s = Ok r
    /\ order ++ [Some (getCollectionKeyForEntry SPECIAL_ALL_COLLECTION_NAME)] = r ++ tail.
Proof.
  intros E. unfold getTemplateOrder. rewrite E. cbn [bind]. cbv zeta.
  set (allKey := Some (getCollectionKeyForEntry SPECIAL_ALL_COLLECTION_NAME)).
  set (order' := if negb (name_eqb (List.last order None) allKey)
                 then order ++ [allKey] else order).
  assert (H : exists t, order ++ [allKey] = order' ++ t).
  { unfold order'. destruct (negb (name_eqb (List.last order None) allKey)).
    - exists []. rewrite app_nil_r. reflexivity.
    - exists [allKey]. reflexivity. }
  destruct H as [t Ht].
  destruct (String.eqb _ _).
  - exists (JsArray.slice_but_last 2 order'), (JsArray.slice_last 2 order' ++ t).
    split; [reflexivity|]. rewrite Ht, app_assoc. f_equal.
    unfold JsArray.slice_but_last, JsArray.slice_last. symmetry. apply firstn_skipn.
  - exists order', t. split; [reflexivity | exact Ht].
Qed.

(** [getTemplateOrder()] from the order of the graph store, when no entry
    of that order has the name "__collection:all,__collection:[keys]". *)
Lemma getTemplateOrder_of_order (s : GlobalDependencyMap.t) (order : list name) :
  DepGraph.overallOrder (map s) = Ok order ->
  ~ In (Some "__collection:all,__collection:[keys]") order ->
  exists init,
    getTemplateOrder s = Ok (init ++ [Some "__collection:all"])
    /\ (forall k, In k order -> k <> Some "__collection:[keys]" ->
                  In k (init ++ [Some "__collection:all"]))
    /\ (forall k, In k (init ++ [Some "__collection:all"]) ->
                  In k order \/ k = Some "__collection:all").
Proof.
  intros Ho Hodd. unfold getTemplateOrder. rewrite Ho. cbn [bind].
  change (getCollectionKeyForEntry SPECIAL_ALL_COLLECTION_NAME) with "__collection:all".
  set (allKey := Some "__collection:all").
  assert (Hpre : exists pre,
             (if negb (name_eqb (List.last order None) allKey)
              then order ++ [allKey] else order) = pre ++ [allKey]
             /\ (forall x, In x pre -> In x order)
             /\ (forall x, In x order -> In x (pre ++ [allKey]))).
  { destruct (name_eqb_spec (List.last order None) allKey) as [E|E]; simpl.
    - destruct order as [|x order]; [discriminate|].
      exists (removelast (x :: order)).
      assert (Heq : x :: order = removelast (x :: order) ++ [allKey]).
      { rewrite <- E. apply app_removelast_last. discriminate. }
      split; [exact Heq|]. split.
      + intros y Hy. rewrite Heq. apply in_or_app. auto.
      + intros y Hy. rewrite <- Heq. exact Hy.
    - exists order. split; [reflexivity|]. split; [auto|].
      intros x Hx. apply in_or_app. auto. }
  destruct Hpre as (pre & -> & Hin & Hall).
  assert (Hback : forall k, In k (pre ++ [allKey]) -> In k order \/ k = allKey).
  { intros k Hk. apply in_app_or in Hk. destruct Hk as [Hk|[<-|[]]]; auto. }
  destruct (list_end_cases pre) as [->|[[a ->]|(l' & a & b & ->)]].
  - exists []. split; [reflexivity|]. split; [auto|]. exact Hback.
  - unfold JsArray.slice_last, JsArray.slice_but_last. simpl.
    destruct (String.eqb_spec
                (String.append (join_text a) ",__collection:all")
                "__collection:all,__collection:[keys],__collection:all") as [E|E].
    + exfalso. apply Hodd, Hin. left.
      apply (append_cancel_r ",__collection:all" (join_text a)
               "__collection:all,__collection:[keys]") in E.
      destruct a; simpl in E; [congruence | discriminate].
    + exists [a]. split; [reflexivity|]. split; [auto|]. exact Hback.
  - unfold JsArray.slice_last, JsArray.slice_but_last.
    rewrite <- app_assoc. simpl app.
    replace (List.length (l' ++ [a; b; allKey]) - 3) with (List.length l')
      by (rewrite length_app; simpl; lia).
    replace (List.length (l' ++ [a; b; allKey]) - 2) with (List.length (l' ++ [a]))
      by (rewrite !length_app; simpl; lia).
    rewrite skipn_length_app.
    replace (l' ++ [a; b; allKey]) with ((l' ++ [a]) ++ [b; allKey])
      by (rewrite <- app_assoc; reflexivity).
    rewrite firstn_length_app. simpl.
    destruct (String.eqb_spec
                (String.append (join_text a)
                   (String "," (String.append (join_text b) ",__collection:all")))
                "__collection:all,__collection:[keys],__collection:all") as [E|E].
    + exists l'.
      pose proof E as E'.
      change (String "," (String.append (join_text b) ",__collection:all"))
        with (String.append (String "," (join_text b)) ",__collection:all") in E.
      rewrite append_assoc in E.
      apply (append_cancel_r ",__collection:all" _
               "__collection:all,__collection:[keys]") in E.
      pose proof (before_the_comma _ _ E) as Ea. rewrite Ea in E'. simpl in E'.
      injection E' as E'.
      apply (append_cancel_r ",__collection:all" _ "__collection:[keys]") in E'.
      apply join_text_keys in E'. apply join_text_all in Ea. subst a b.
      split; [reflexivity|]. split.
      * intros k Hk Hkeys. apply Hall in Hk.
        rewrite <- app_assoc in Hk. simpl in Hk.
        apply in_app_or in Hk. apply in_or_app.
        destruct Hk as [Hk|[<-|[<-|[<-|[]]]]]; simpl; auto; congruence.
      * intros k Hk. apply Hback. rewrite <- app_assoc. simpl.
        apply in_app_or in Hk. apply in_or_app.
        destruct Hk as [Hk|[<-|[]]]; simpl; auto.
    + exists (l' ++ [a; b]). rewrite <- !app_assoc. split; [reflexivity|]. split.
      * intros k Hk _. apply Hall in Hk. rewrite <- !app_assoc in Hk. exact Hk.
      * intros k Hk. apply Hback. rewrite <- !app_assoc. exact Hk.
Qed.

End WithHost.
End TemplateOrderSpec.

Section OrderProperties.
Import DepGraph GlobalDependencyMap WellFormed WellFormedFacts OrderFacts TemplateOrderSpec.
Context {host : Host}.

(** X5. The template order. On a well-formed state whose graph allows
    cycles and holds no node named "__collection:all,__collection:[keys]",
    [getTemplateOrder()] returns an order that ends with the entry of the
    collection "all", holds every node of the graph other than the entry of
    the collection "[keys]", and holds nothing but nodes of the graph and
    the entry of "all". *)
Theorem getTemplateOrder_lists_the_nodes (s : GlobalDependencyMap.t) :
  wellFormed (map s) = true -> circular (map s) = true ->
  DepGraph.hasNode (map s) (Some "__collection:all,__collection:[keys]") = false ->
  exists init,
    getTemplateOrder s
    = Ok (init ++ [Some (getCollectionKeyForEntry SPECIAL_ALL_COLLECTION_NAME)])
    /\ (forall k, DepGraph.hasNode (map s) k = true ->
                  k <> Some (getCollectionKeyForEntry SPECIAL_KEYS_COLLECTION_NAME) ->
                  In k (init ++ [Some (getCollectionKeyForEntry SPECIAL_ALL_COLLECTION_NAME)]))
    /\ (forall k, In k (init ++ [Some (getCollectionKeyForEntry SPECIAL_ALL_COLLECTION_NAME)]) ->
                  DepGraph.hasNode (map s) k = true
                  \/ k = Some (getCollectionKeyForEntry SPECIAL_ALL_COLLECTION_NAME)).
Proof.
  intros W Hcirc Hodd. apply wellFormed_iff in W.
  destruct (overallOrder_spec (map s) W Hcirc) as (order & E & _ & Ho & Hfirst).
  destruct (getTemplateOrder_of_order s order E) as (init & Et & H1 & H2).
  { intros H. apply Ho in H. congruence. }
  exists init. split; [exact Et|]. split.
  - intros k Hk Hkeys. apply H1; [apply Ho, Hk | exact Hkeys].
  - intros k Hk. destruct (H2 k Hk) as [H|H]; [left; apply Ho, H | right; exact H].
Qed.

(** X6. Dependencies come first in the template order. On a well-formed
    state whose graph allows cycles, [getTemplateOrder()] returns an order
    in which every entry comes after the nodes it has an edge to, unless the
    edge lies on a cycle. *)
Theorem getTemplateOrder_puts_dependencies_first (s : GlobalDependencyMap.t) :
  wellFormed (map s) = true -> circular (map s) = true ->
  exists order,
    getTemplateOrder s = Ok order
    /\ forall before n after m,
         order = before ++ n :: after ->
         has_edge (map s) n m = true ->
         ~ Reachability.reaches (outgoingEdges (map s)) m n ->
         In m before.
Proof.
  intros W Hcirc. apply wellFormed_iff in W.
  destruct (overallOrder_spec (map s) W Hcirc) as (order & E & _ & Ho & Hfirst).
  destruct (getTemplateOrder_prefix s order E) as (r & tail & Er & Hr).
  exists r. split; [exact Er|].
  intros before n after m Hsplit Hedge Hcycle.
  apply (dependencies_first_prefix (outgoingEdges (map s)) r tail) with (n := n) (l2 := after);
    auto.
  - rewrite <- Hr. apply dependencies_first_snoc; [exact Hfirst|].
    intros k Hk. apply Ho. exact (proj2 (WF_has_target (map s) _ k W Hk)).
  - unfold has_edge in Hedge. apply andb_true_iff in Hedge.
    apply JsArrayFacts.includes_In, Hedge.
Qed.

End OrderProperties.

Section SelectionFacts.
Import DepGraph DepGraphFacts GlobalDependencyMap GlobalDependencyMapFacts CollectionFacts.
Import Invariants Reachability ReachabilityFacts WellFormed WellFormedFacts EdgeFacts Queries.
Context {host : Host}.

Lemma getNodeData_layout g x :
  DepGraph.hasNode g x = true ->
  exists d, getNodeData g x = Ok d /\ is_layout_data d = layout_node g x.
Proof.
  intros Hx. apply hasNode_get in Hx. destruct Hx as [d Hd].
  exists d. unfold getNodeData, layout_node. rewrite Hd. auto.
Qed.

(** The loop of [getLayoutsUsedBy]. *)
Lemma layouts_loop (s : GlobalDependencyMap.t) (l : list name) :
  (forall x, In x l -> DepGraph.hasNode (map s) x = true) ->
  forall acc,
    forOf l (fun layouts node =>
               data <- DepGraph.getNodeData (map s) node ;;
               Ok (if is_layout_data data then layouts ++ [node] else layouts)) acc
    = Ok (acc ++ filter (layout_node (map s)) l).
Proof.
  induction l as [|x l IH]; intros H acc; cbn [forOf filter].
  - rewrite app_nil_r. reflexivity.
  - destruct (getNodeData_layout (map s) x) as (d & Ed & Hd); [apply H; simpl; auto|].
    rewrite Ed. cbn [bind]. rewrite Hd.
    rewrite IH by (intros y Hy; apply H; simpl; auto).
    destruct (layout_node (map s) x); [rewrite <- app_assoc|]; reflexivity.
Qed.

Lemma plain_node_collectionKey (c : string) :
  plain_node (Some (getCollectionKeyForEntry c)) = false.
Proof. unfold plain_node. rewrite prefix_collectionKey. reflexivity. Qed.

(** The inner loop of [getTemplatesThatConsumeCollections]. *)
Lemma consumers_loop (s : GlobalDependencyMap.t) (l : list name) :
  (forall x, In x l -> DepGraph.hasNode (map s) x = true /\ x <> None) ->
  forall acc, NoDup acc ->
    exists acc',
      forOf l (fun templates node =>
                 collection <- isTag node ;;
                 if collection then Ok templates
                 else
                   data <- DepGraph.getNodeData (map s) node ;;
                   if negb (is_layout_data data)
                   then Ok (JsArray.push_unique name_eqb node templates)
                   else Ok templates) acc
      = Ok acc'
      /\ NoDup acc'
      /\ forall x, In x acc' <-> In x acc
                                 \/ (In x l /\ plain_node x = true
                                     /\ layout_node (map s) x = false).
Proof.
  induction l as [|y l IH]; intros H acc ND; cbn [forOf].
  - exists acc. split; [reflexivity|]. split; [exact ND|]. intros x. simpl. tauto.
  - destruct (H y) as [Hy Hnone]; [simpl; auto|].
    destruct y as [e|]; [|congruence]. cbn [isTag bind].
    assert (Hl : forall x, In x l -> DepGraph.hasNode (map s) x = true /\ x <> None).
    { intros x Hx. apply H. simpl. auto. }
    destruct (String.prefix COLLECTION_PREFIX e) eqn:Hp.
    + destruct (IH Hl acc ND) as (acc' & E & ND' & Hacc).
      exists acc'. split; [exact E|]. split; [exact ND'|].
      intros x. rewrite Hacc. simpl. split; [tauto|].
      intros [Hx|([<-|Hx] & P & L)]; auto.
      unfold plain_node in P. rewrite Hp in P. discriminate.
    + destruct (getNodeData_layout (map s) (Some e) Hy) as (d & Ed & Hd).
      rewrite Ed. cbn [bind]. rewrite Hd.
      destruct (layout_node (map s) (Some e)) eqn:Hlay; cbn [negb].
      * destruct (IH Hl acc ND) as (acc' & E & ND' & Hacc).
        exists acc'. split; [exact E|]. split; [exact ND'|].
        intros x. rewrite Hacc. simpl. split; [tauto|].
        intros [Hx|([<-|Hx] & P & L)]; auto. congruence.
      * destruct (IH Hl (JsArray.push_unique name_eqb (Some e) acc)) as (acc' & E & ND' & Hacc).
        { apply NoDup_push_unique, ND. }
        exists acc'. split; [exact E|]. split; [exact ND'|].
        intros x. rewrite Hacc, JsArrayFacts.In_push_unique. simpl. split.
        -- intros [[Hx| ->]|(Hx & P & L)]; auto.
           right. split; [auto|]. split; [|exact Hlay].
           unfold plain_node. rewrite Hp. reflexivity.
        -- intros [Hx|([<-|Hx] & P & L)]; auto.
Qed.

(** X7. The layouts of a node. On a well-formed state whose graph allows
    cycles, for a node of the graph, [getLayoutsUsedBy(node)] returns an
    array without repetition that holds exactly the layouts among the node
    itself and the nodes that reach it along dependency edges. *)
Theorem getLayoutsUsedBy_lists_dependant_layouts
    (s : GlobalDependencyMap.t) (node : jsval) (n : name) :
  wellFormed (map s) = true -> circular (map s) = true ->
  normalizeNode node = Ok n -> DepGraph.hasNode (map s) n = true ->
  exists l, getLayoutsUsedBy s node = Ok l
    /\ NoDup l
    /\ forall x, In x l <-> layout_node (map s) x = true
                            /\ (x = n \/ reaches (outgoingEdges (map s)) x n).
Proof.
  intros W Hcirc Hnorm Hn. apply wellFormed_iff in W.
  destruct (dependantsOf_spec (map s) n W Hcirc Hn) as (deps & E & ND & Hd).
  destruct (getNodeData_layout (map s) n Hn) as (d & Ed & Hl).
  unfold getLayoutsUsedBy. rewrite Hnorm. cbn [bind]. rewrite Hn. cbn [negb].
  rewrite Ed. cbn [bind]. rewrite E. cbn [bind]. rewrite Hl.
  rewrite layouts_loop.
  - eexists. split; [reflexivity|]. split.
    + apply NoDup_app; [destruct (layout_node (map s) n); repeat constructor; simpl; tauto
                       | apply NoDup_filter, ND |].
      intros x Hx Hf. apply filter_In in Hf. destruct Hf as [Hf _]. apply Hd in Hf.
      destruct (layout_node (map s) n); simpl in Hx; [|tauto].
      destruct Hx as [<-|[]]. tauto.
    + intros x. rewrite in_app_iff, filter_In, Hd. split.
      * intros [Hx|[[Hne Hr] Hlay]]; [|auto].
        destruct (layout_node (map s) n) eqn:Hln; simpl in Hx; [|tauto].
        destruct Hx as [<-|[]]. auto.
      * intros [Hlay [->|Hr]].
        -- rewrite Hlay. simpl. auto.
        -- destruct (name_eqb_spec x n) as [->|Hne]; [rewrite Hlay; simpl; auto|].
           right. auto.
  - intros x Hx. apply Hd in Hx. destruct Hx as [_ Hx].
    exact (proj1 (reaches_nodes _ _ _ W Hx)).
Qed.

(** X8. The templates that consume collections. On a well-formed state
    whose graph allows cycles and has no node [undefined],
    [getTemplatesThatConsumeCollections(names)] returns a set that holds
    exactly the nodes that are neither collection entries nor layouts and
    that reach the entry of one of the named collections along dependency
    edges. *)
Theorem getTemplatesThatConsumeCollections_lists_consumers
    (s : GlobalDependencyMap.t) (collectionNames : list string) :
  wellFormed (map s) = true -> circular (map s) = true ->
  DepGraph.hasNode (map s) None = false ->
  exists l, getTemplatesThatConsumeCollections s collectionNames = Ok l
    /\ NoDup l
    /\ forall x, In x l
                 <-> plain_node x = true /\ layout_node (map s) x = false
                     /\ exists c, In c collectionNames
                                  /\ reaches (outgoingEdges (map s)) x
                                       (Some (getCollectionKeyForEntry c)).
Proof.
  intros W Hcirc Hnone. apply wellFormed_iff in W.
  unfold getTemplatesThatConsumeCollections.
  assert (G : forall names acc, NoDup acc ->
    exists l,
      forOf names
        (fun templates nm =>
           let collectionKey := Some (getCollectionKeyForEntry nm) in
           if negb (DepGraph.hasNode (map s) collectionKey) then Ok templates
           else
             nodes <- DepGraph.dependantsOf (map s) collectionKey ;;
             forOf nodes
               (fun templates node =>
                  collection <- isTag node ;;
                  if collection then Ok templates
                  else
                    data <- DepGraph.getNodeData (map s) node ;;
                    if negb (is_layout_data data)
                    then Ok (JsArray.push_unique name_eqb node templates)
                    else Ok templates)
               templates) acc = Ok l
      /\ NoDup l
      /\ forall x, In x l
                   <-> In x acc
                       \/ (plain_node x = true /\ layout_node (map s) x = false
                           /\ exists c, In c names
                                        /\ reaches (outgoingEdges (map s)) x
                                             (Some (getCollectionKeyForEntry c)))).
  { induction names as [|c names IH]; intros acc ND; cbn [forOf].
    - exists acc. split; [reflexivity|]. split; [exact ND|].
      intros x. split; [auto|]. intros [H|(_ & _ & c & [] & _)]. exact H.
    - cbv zeta.
      destruct (DepGraph.hasNode (map s) (Some (getCollectionKeyForEntry c))) eqn:Hk;
        cbn [negb bind].
      + destruct (dependantsOf_spec (map s) _ W Hcirc Hk) as (deps & E & NDd & Hd).
        rewrite E. cbn [bind].
        destruct (consumers_loop s deps) with (acc := acc) as (acc1 & E1 & ND1 & H1);
          [|exact ND|].
        { intros x Hx. apply Hd in Hx. destruct Hx as [_ Hx].
          pose proof (proj1 (reaches_nodes _ _ _ W Hx)) as Hnx.
          split; [exact Hnx | congruence]. }
        rewrite E1. destruct (IH acc1 ND1) as (l & El & NDl & Hl).
        exists l. split; [exact El|]. split; [exact NDl|].
        intros x. rewrite Hl, H1, Hd. split.
        * intros [[H|((_ & Hr) & P & L)]|(P & L & c' & Hc' & Hr)]; auto.
          -- right. split; [exact P|]. split; [exact L|]. exists c. simpl. auto.
          -- right. split; [exact P|]. split; [exact L|]. exists c'. simpl. auto.
        * intros [H|(P & L & c' & [<-|Hc'] & Hr)]; auto.
          -- left. right. split; [|auto]. split; [|exact Hr].
             intros ->. rewrite plain_node_collectionKey in P. discriminate.
          -- right. split; [exact P|]. split; [exact L|]. eauto.
      + destruct (IH acc ND) as (l & El & NDl & Hl).
        exists l. split; [exact El|]. split; [exact NDl|].
        intros x. rewrite Hl. split.
        * intros [H|(P & L & c' & Hc' & Hr)]; auto.
          right. split; [exact P|]. split; [exact L|]. exists c'. simpl. auto.
        * intros [H|(P & L & c' & [<-|Hc'] & Hr)]; auto.
          -- apply (reaches_nodes _ _ _ W) in Hr. destruct Hr. congruence.
          -- right. split; [exact P|]. split; [exact L|]. eauto. }
  destruct (G collectionNames [] (NoDup_nil _)) as (l & E & ND & H).
  exists l. split; [exact E|]. split; [exact ND|].
  intros x. rewrite H. simpl. tauto.
Qed.

End SelectionFacts.



Module MutationFacts.
Import DepGraph DepGraphFacts GlobalDependencyMap GlobalDependencyMapFacts CollectionFacts.
Import Invariants Reachability ReachabilityFacts WellFormed WellFormedFacts EdgeFacts.

(** A loop keeps what each of its iterations keeps. *)
Lemma forOf_keeps {A S : Type} (P : S -> Prop) (f : S -> A -> result S) (l : list A) :
  (forall s a s', P s -> f s a = Ok s' -> P s') ->
  forall s s', P s -> forOf l f s = Ok s' -> P s'.
Proof.
  intros Hf. induction l as [|a l IH]; intros s s' Hs E; simpl in E.
  - injection E as <-. exact Hs.
  - apply bind_Ok in E. destruct E as (s1 & E1 & E). eauto.
Qed.

Lemma addDependency__keeps s from l s' :
  WF (map s) -> addDependency_ s from l = Ok s' -> WF (map s') /\ extends s s'.
Proof.
  intros W E. destruct (addDependency__spec s from l W) as (s'' & E' & X & W' & _).
  assert (s' = s'') by congruence. subst. auto.
Qed.

Lemma Object_assign_not_undefined d props d' :
  Object_assign d props = Ok d' -> d' <> DUndefined.
Proof. destruct d; simpl; intros [= <-]; discriminate. Qed.

Lemma WF_setNodeData g n d g' :
  WF g -> d <> DUndefined -> setNodeData g n d = Ok g' ->
  WF g' /\ circular g' = circular g
  /\ (forall k, DepGraph.hasNode g' k = DepGraph.hasNode g k).
Proof.
  intros W Hd E. destruct (DepGraph.hasNode g n) eqn:Hn.
  - destruct (setNodeData_ok g n d (wf_consistent g W) Hn Hd)
      as (g'' & E' & C & O & I & Ci & H & N & R).
    assert (g' = g'') by congruence. subst g''. split; [|auto].
    constructor; rewrite ?O, ?I; try apply W; [exact C|].
    unfold setNodeData in E. rewrite Hn in E. injection E as <-. simpl.
    rewrite keys_set_present by exact Hn. apply W.
  - unfold setNodeData in E. rewrite Hn in E. discriminate.
Qed.

Lemma mergeNodeData__keeps s n props s' :
  WF (map s) -> mergeNodeData_ s n props = Ok s' ->
  WF (map s') /\ config s' = config s /\ circular (map s') = circular (map s).
Proof.
  intros W E. unfold mergeNodeData_ in E.
  destruct (DepGraph.hasNode (map s) n) eqn:Hn.
  - apply bind_Ok in E. destruct E as (old & _ & E).
    apply bind_Ok in E. destruct E as (merged & Em & E).
    apply bind_Ok in E. destruct E as (g & Eg & E). injection E as <-.
    apply WF_setNodeData in Eg; [|exact W | eapply Object_assign_not_undefined; eauto].
    rewrite map_set_map, config_set_map. tauto.
  - apply bind_Ok in E. destruct E as (g & Eg & _).
    unfold setNodeData in Eg. rewrite Hn in Eg. discriminate.
Qed.

(** *** [removeDependency] *)

Lemma removeDependency_spec g from to :
  consistent g = true -> DepGraph.hasNode g from = true ->
  exists g', removeDependency g from to = Ok g'
    /\ consistent g' = true
    /\ nodes g' = nodes g
    /\ circular g' = circular g
    /\ (forall k, edge_list (outgoingEdges g') k
                  = if name_eqb k from
                    then JsArray.remove_first name_eqb to (edge_list (outgoingEdges g) from)
                    else edge_list (outgoingEdges g) k)
    /\ (forall k, edge_list (incomingEdges g') k
                  = if name_eqb k to
                    then JsArray.remove_first name_eqb from (edge_list (incomingEdges g) to)
                    else edge_list (incomingEdges g) k).
Proof.
  intros Hc Hf. unfold removeDependency. rewrite Hf.
  pose proof (has_outgoing g from Hc) as Ho. rewrite Hf in Ho.
  rewrite (edges_of_has _ _ Ho). simpl.
  destruct (DepGraph.hasNode g to) eqn:Ht.
  - pose proof (has_incoming g to Hc) as Hi. rewrite Ht in Hi.
    rewrite (edges_of_has _ _ Hi). simpl.
    eexists. split; [reflexivity|]. simpl. repeat split.
    + apply consistent_set_edges; auto using keys_set_present.
    + intros k. apply edge_list_set.
    + intros k. apply edge_list_set.
  - simpl. eexists. split; [reflexivity|]. simpl. repeat split.
    + apply consistent_set_edges; auto using keys_set_present.
    + intros k. apply edge_list_set.
    + intros k. name_cases k to; [|reflexivity].
      rewrite edge_list_absent; [reflexivity|]. rewrite has_incoming; assumption.
Qed.

Lemma WF_removeDependency g from to :
  WF g -> DepGraph.hasNode g from = true ->
  exists g', removeDependency g from to = Ok g'
    /\ WF g' /\ nodes g' = nodes g /\ circular g' = circular g.
Proof.
  intros W Hf.
  destruct (removeDependency_spec g from to (wf_consistent g W) Hf)
    as (g' & E & C & N & Ci & O & I).
  exists g'. split; [exact E|]. split; [|auto].
  constructor.
  - exact C.
  - rewrite N. apply W.
  - intros a b. rewrite O, I.
    pose proof (wf_mirror g W a b) as M.
    pose proof (wf_out g W from) as N1. pose proof (wf_in g W to) as N2.
    destruct (name_eqb_spec a from) as [->|Ea], (name_eqb_spec b to) as [->|Eb];
      rewrite ?In_remove_first_NoDup by assumption.
    + rewrite M. tauto.
    + rewrite M. intuition congruence.
    + rewrite <- M. intuition congruence.
    + exact M.
  - intros k. rewrite O. destruct (name_eqb k from); [apply NoDup_remove_first|]; apply W.
  - intros k. rewrite I. destruct (name_eqb k to); [apply NoDup_remove_first|]; apply W.
Qed.

Lemma reset_loop_keeps (n : name) (l : list name) :
  forall s s',
    WF (map s) -> DepGraph.hasNode (map s) n = true ->
    forOf l (remove_one n) s = Ok s' ->
    WF (map s') /\ config s' = config s /\ circular (map s') = circular (map s).
Proof.
  induction l as [|dep l IH]; intros s s' W Hn E; simpl in E.
  - injection E as <-. auto.
  - apply bind_Ok in E. destruct E as (s1 & E1 & E).
    unfold remove_one in E1.
    destruct (WF_removeDependency (map s) n dep W Hn) as (g' & Eg & W' & N & Ci).
    rewrite Eg in E1. injection E1 as <-.
    apply IH in E.
    + rewrite map_set_map, config_set_map in E. rewrite <- Ci. exact E.
    + exact W'.
    + rewrite map_set_map. unfold DepGraph.hasNode. rewrite N. exact Hn.
Qed.

(** *** [removeNode] *)

Lemma keys_remove_from_lists n (m : list (name * list name)) :
  JsMap.keys (remove_from_lists n m) = JsMap.keys m.
Proof. unfold remove_from_lists, JsMap.keys. rewrite List.map_map. reflexivity. Qed.

Lemma keys_delete {V : Type} (k : name) (m : list (name * V)) :
  JsMap.keys (JsMap.delete k m) = JsArray.remove_first name_eqb k (JsMap.keys m).
Proof.
  induction m as [|[k' v] m IH]; simpl; [reflexivity|].
  destruct (name_eqb k k'); simpl; [reflexivity | rewrite IH; reflexivity].
Qed.

Lemma In_delete {V : Type} (k : name) (m : list (name * V)) kv :
  In kv (JsMap.delete k m) -> In kv m.
Proof.
  induction m as [|[k' v] m IH]; simpl; [tauto|].
  destruct (name_eqb k k'); simpl; intuition.
Qed.

Lemma get_delete {V : Type} (k x : name) (m : list (name * V)) :
  NoDup (JsMap.keys m) ->
  JsMap.get x (JsMap.delete k m) = if name_eqb x k then None else JsMap.get x m.
Proof.
  induction m as [|[k' v] m IH]; intros ND; simpl.
  - destruct (name_eqb x k); reflexivity.
  - inversion ND as [|? ? Hk ND']; subst.
    destruct (name_eqb_spec k k') as [->|Ekk].
    + destruct (name_eqb_spec x k') as [->|Exk]; [|reflexivity].
      destruct (JsMap.get k' m) eqn:G; [|reflexivity].
      exfalso. apply Hk. apply JsMapFacts.has_In_keys. unfold JsMap.has. rewrite G. reflexivity.
    + simpl. rewrite IH by assumption.
      destruct (name_eqb_spec x k') as [->|Exk'].
      * rewrite name_eqb_neq by congruence. reflexivity.
      * reflexivity.
Qed.

Lemma get_remove_from_lists n x (m : list (name * list name)) :
  JsMap.get x (remove_from_lists n m)
  = option_map (JsArray.remove_first name_eqb n) (JsMap.get x m).
Proof.
  induction m as [|[k v] m IH]; simpl; [reflexivity|].
  destruct (name_eqb x k); [reflexivity | exact IH].
Qed.

Lemma edge_list_removed n x (m : list (name * list name)) :
  NoDup (JsMap.keys m) ->
  edge_list (remove_from_lists n (JsMap.delete n m)) x
  = if name_eqb x n then [] else JsArray.remove_first name_eqb n (edge_list m x).
Proof.
  intros ND. unfold edge_list. rewrite get_remove_from_lists, get_delete by assumption.
  destruct (name_eqb x n); [reflexivity|].
  destruct (JsMap.get x m); reflexivity.
Qed.

Lemma WF_removeNode g n : WF g -> WF (removeNode g n).
Proof.
  intros W. unfold removeNode. destruct (DepGraph.hasNode g n) eqn:Hn; [|exact W].
  pose proof (wf_consistent g W) as Hc. apply consistent_iff in Hc.
  destruct Hc as [[K1 K2] K3].
  assert (NO : NoDup (JsMap.keys (outgoingEdges g))) by (rewrite <- K1; apply W).
  assert (NI : NoDup (JsMap.keys (incomingEdges g))) by (rewrite <- K2; apply W).
  constructor; simpl.
  - apply consistent_iff. unfold same_keys, data_defined. simpl.
    rewrite !keys_remove_from_lists, !keys_delete, K1 at 1.
    repeat split; try congruence.
    intros s d Hin. apply In_delete in Hin. eapply K3; eauto.
  - rewrite keys_delete. apply NoDup_remove_first, W.
  - intros a b. rewrite !edge_list_removed by assumption.
    pose proof (wf_mirror g W a b) as M.
    destruct (name_eqb_spec a n) as [->|Ea], (name_eqb_spec b n) as [->|Eb]; simpl.
    + tauto.
    + rewrite In_remove_first_NoDup by apply W. tauto.
    + rewrite In_remove_first_NoDup by apply W. tauto.
    + rewrite !In_remove_first_NoDup by apply W. rewrite M. intuition congruence.
  - intros k. rewrite edge_list_removed by assumption.
    destruct (name_eqb k n); [constructor | apply NoDup_remove_first, W].
  - intros k. rewrite edge_list_removed by assumption.
    destruct (name_eqb k n); [constructor | apply NoDup_remove_first, W].
Qed.

End MutationFacts.

Section MutatorFacts.
Import DepGraphFacts GlobalDependencyMap GlobalDependencyMapFacts CollectionFacts.
Import Invariants WellFormed WellFormedFacts EdgeFacts MutationFacts.
Context {host : Host}.

Lemma addDependency_keeps s from toArray s' :
  WF (map s) -> addDependency s from toArray = Ok s' -> WF (map s') /\ extends s s'.
Proof.
  intros W E. unfold addDependency in E.
  apply bind_Ok in E. destruct E as (f & _ & E).
  apply bind_Ok in E. destruct E as (ts & _ & E).
  eapply addDependency__keeps; eauto.
Qed.

Lemma consumes_keeps s from c s' :
  WF (map s) -> addDependencyConsumesCollection s from c = Ok s' -> WF (map s').
Proof.
  intros W E. unfold addDependencyConsumesCollection in E.
  apply bind_Ok in E. destruct E as (n & _ & E).
  apply bind_Ok in E. destruct E as (s1 & E1 & E).
  apply addDependency__keeps in E1; [|exact W]. destruct E1 as [W1 _].
  apply bind_Ok in E. destruct E as (isApi & _ & E).
  apply bind_Ok in E. destruct E as (s2 & E2 & E).
  assert (W2 : WF (map s2)).
  { destruct isApi; [|injection E2 as <-; exact W1].
    apply mergeNodeData__keeps in E2; [apply E2 | exact W1]. }
  destruct (String.eqb c SPECIAL_KEYS_COLLECTION_NAME).
  { apply addDependency__keeps in E; [apply E | exact W2]. }
  destruct (String.eqb c SPECIAL_ALL_COLLECTION_NAME).
  { apply addDependency__keeps in E; [apply E | exact W2]. }
  apply bind_Ok in E. destruct E as (isApi' & _ & E).
  destruct isApi'; [|injection E as <-; exact W2].
  apply addDependency__keeps in E; [apply E | exact W2].
Qed.

Lemma publishes_keeps s from c s' :
  WF (map s) -> addDependencyPublishesToCollection s from c = Ok s' -> WF (map s').
Proof.
  intros W E. unfold addDependencyPublishesToCollection in E.
  apply bind_Ok in E. destruct E as (n & _ & E).
  apply bind_Ok in E. destruct E as (s1 & E1 & E).
  assert (W1 : WF (map s1)).
  { destruct (String.eqb c SPECIAL_ALL_COLLECTION_NAME).
    - apply bind_Ok in E1. destruct E1 as (consumer & _ & E1).
      destruct consumer; [injection E1 as <-; exact W|].
      apply addDependency__keeps in E1; [apply E1 | exact W].
    - apply addDependency__keeps in E1; [apply E1 | exact W]. }
  apply bind_Ok in E. destruct E as (isApi & _ & E).
  destruct isApi; cbn [negb] in E; [injection E as <-; exact W1|].
  apply addDependency__keeps in E; [apply E | exact W1].
Qed.

Lemma addCollectionApiNames_keeps s names s' :
  WF (map s) -> addCollectionApiNames s names = Ok s' -> WF (map s').
Proof.
  intros W E. unfold addCollectionApiNames in E.
  destruct names as [|nm names]; [injection E as <-; exact W|].
  revert E. apply (forOf_keeps (fun s => WF (map s))); [|exact W].
  intros s0 a s1 W0 E0. apply addDependency_keeps in E0; [apply E0 | exact W0].
Qed.

Lemma resetNode_keeps s node s' :
  WF (map s) -> resetNode s node = Ok s' -> WF (map s').
Proof.
  intros W E. unfold resetNode in E.
  apply bind_Ok in E. destruct E as (n & _ & E).
  destruct (DepGraph.hasNode (map s) n) eqn:Hn; cbn [negb] in E;
    [|injection E as <-; exact W].
  apply bind_Ok in E. destruct E as (deps & _ & E).
  apply (reset_loop_keeps n deps s s' W Hn E).
Qed.

Lemma removeLayoutNodes_keeps s normalizedLayouts s' :
  WF (map s) -> removeLayoutNodes s normalizedLayouts = Ok s' ->
  WF (map s') /\ config s' = config s.
Proof.
  intros W E. unfold removeLayoutNodes in E.
  apply bind_Ok in E. destruct E as (nodes & _ & E).
  apply bind_Ok in E. destruct E as (graph & Eg & E). injection E as <-.
  rewrite map_set_map, config_set_map. split; [|reflexivity].
  revert Eg. apply (forOf_keeps WF); [|exact W].
  intros g a g' Wg E. apply bind_Ok in E. destruct E as (data & _ & E).
  destruct (negb (is_layout_data data)); [injection E as <-; exact Wg|].
  destruct (negb (layouts_lookup_truthy normalizedLayouts a));
    injection E as <-; [apply WF_removeNode|]; exact Wg.
Qed.

Lemma addLayoutsToMap_keeps s layouts s' :
  WF (map s) -> addLayoutsToMap s layouts = Ok s' -> WF (map s').
Proof.
  intros W E. unfold addLayoutsToMap in E.
  apply bind_Ok in E. destruct E as (normalizedLayouts & _ & E).
  apply bind_Ok in E. destruct E as (s1 & E1 & E).
  apply removeLayoutNodes_keeps in E1; [|exact W]. destruct E1 as [W1 _].
  revert E. apply (forOf_keeps (fun s => WF (map s))); [|exact W1].
  intros s0 [layout pageTemplates] s2 W0 E0.
  apply bind_Ok in E0. destruct E0 as (g & Eg & E0).
  assert (Wg : WF g).
  { destruct (negb (DepGraph.hasNode (map s0) (Some layout))).
    - injection Eg as <-. apply WF_addNode; [exact W0 | reflexivity].
    - apply WF_setNodeData in Eg; [apply Eg | exact W0 | discriminate]. }
  apply bind_Ok in E0. destruct E0 as (s3 & E3 & E0).
  assert (W3 : WF (map s3)).
  { revert E3. apply (forOf_keeps (fun s => WF (map s))); [|exact Wg].
    intros s4 a s5 W4 E4. apply addDependency_keeps in E4; [apply E4 | exact W4]. }
  destruct (spidersJavaScriptDependencies s3); [|injection E0 as <-; exact W3].
  apply addDependency_keeps in E0; [apply E0 | exact W3].
Qed.

End MutatorFacts.

Section InvariantProperties.
Import GlobalDependencyMap WellFormed WellFormedFacts.
Context {host : Host}.

(** X9. Edge creation keeps the graph well-formed. When the graph of a
    state is well-formed (the three maps of the graph have the same keys,
    each key once; every edge is recorded once in the outgoing list of its
    source and once in the incoming list of its target), so is the graph
    of the state that [addDependency], [addDependencyConsumesCollection],
    [addDependencyPublishesToCollection] or [addCollectionApiNames]
    returns. *)
Theorem edge_creation_keeps_the_graph_well_formed (s : GlobalDependencyMap.t) :
  wellFormed (map s) = true ->
  (forall from toArray s',
      addDependency s from toArray = Ok s' -> wellFormed (map s') = true)
  /\ (forall from collectionName s',
      addDependencyConsumesCollection s from collectionName = Ok s' ->
      wellFormed (map s') = true)
  /\ (forall from collectionName s',
      addDependencyPublishesToCollection s from collectionName = Ok s' ->
      wellFormed (map s') = true)
  /\ (forall names s',
      addCollectionApiNames s names = Ok s' -> wellFormed (map s') = true).
Proof.
  intros W. apply wellFormed_iff in W. repeat split; intros; apply wellFormed_iff.
  - eapply addDependency_keeps; eauto.
  - eapply consumes_keeps; eauto.
  - eapply publishes_keeps; eauto.
  - eapply addCollectionApiNames_keeps; eauto.
Qed.

(** X10. Removal keeps the graph well-formed. When the graph of a state is
    well-formed, so is the graph of the state that [resetNode],
    [removeLayoutNodes] or [addLayoutsToMap] returns. *)
Theorem removal_keeps_the_graph_well_formed (s : GlobalDependencyMap.t) :
  wellFormed (map s) = true ->
  (forall node s', resetNode s node = Ok s' -> wellFormed (map s') = true)
  /\ (forall normalizedLayouts s',
      removeLayoutNodes s normalizedLayouts = Ok s' -> wellFormed (map s') = true)
  /\ (forall layouts s',
      addLayoutsToMap s layouts = Ok s' -> wellFormed (map s') = true).
Proof.
  intros W. apply wellFormed_iff in W. repeat split; intros; apply wellFormed_iff.
  - eapply resetNode_keeps; eauto.
  - eapply removeLayoutNodes_keeps; eauto.
  - eapply addLayoutsToMap_keeps; eauto.
Qed.

End InvariantProperties.

Module JsObjectFacts.

Section Objects.
Context {V : Type}.
Implicit Types (o : list (string * V)) (k : string) (v : V).

Lemma keys_replace o k v :
  JsObject.keys (JsObject.replace k v o) = JsObject.keys o.
Proof.
  induction o as [|[k' v'] o IH]; simpl; [reflexivity|].
  destruct (String.eqb_spec k k') as [->|E]; simpl; [reflexivity | rewrite IH; reflexivity].
Qed.

Lemma keys_insert_index o (i : N) k v (x : string) :
  In x (JsObject.keys (JsObject.insert_index i k v o)) <-> x = k \/ In x (JsObject.keys o).
Proof.
  induction o as [|[k' v'] o IH]; simpl; [intuition|].
  destruct (JsObject.array_index k') as [j|]; [destruct (j <? i)%N|]; simpl;
    rewrite ?IH; intuition.
Qed.

Lemma object_has_keys o k : JsObject.has k o = true <-> In k (JsObject.keys o).
Proof.
  unfold JsObject.has. induction o as [|[k' v] o IH]; simpl.
  - split; [discriminate | tauto].
  - destruct (String.eqb_spec k k') as [->|E].
    + split; auto.
    + rewrite IH. split; [auto | intros [H|H]; congruence].
Qed.

(** The keys of an object after [o[k] = v]. *)
Lemma keys_object_set o k v (x : string) :
  In x (JsObject.keys (JsObject.set k v o)) <-> x = k \/ In x (JsObject.keys o).
Proof.
  unfold JsObject.set. destruct (JsObject.has k o) eqn:Hk.
  - rewrite keys_replace. apply object_has_keys in Hk. intuition congruence.
  - destruct (JsObject.array_index k).
    + apply keys_insert_index.
    + unfold JsObject.keys. rewrite List.map_app, in_app_iff. simpl. intuition.
Qed.

End Objects.

End JsObjectFacts.



Module PersistedFacts.
Import DepGraph DepGraphFacts GlobalDependencyMap EdgeFacts Queries Persisted.

Lemma includes_In_string (x : string) (l : list string) :
  JsArray.includes String.eqb x l = true <-> In x l.
Proof.
  unfold JsArray.includes. rewrite existsb_exists. split.
  - intros [y [Hy Hxy]]. apply String.eqb_eq in Hxy. congruence.
  - intros H. exists x. split; [assumption | apply String.eqb_refl].
Qed.

(** A plain key that the object does not hold is added at the end. *)
Lemma set_plain {V : Type} (k : string) (v : V) (o : list (string * V)) :
  plain_key k = true -> ~ In k (List.map fst o) -> JsObject.set k v o = o ++ [(k, v)].
Proof.
  intros Hk Hin. unfold JsObject.set.
  destruct (JsObject.has k o) eqn:Hh; [apply JsObjectFacts.object_has_keys in Hh; contradiction|].
  unfold plain_key in Hk. destruct (JsObject.array_index k); [discriminate | reflexivity].
Qed.

Lemma plain_keys_cons (k : string) (l : list string) :
  plain_keys (k :: l) = true -> plain_key k = true /\ ~ In k l /\ plain_keys l = true.
Proof.
  unfold plain_keys. simpl. rewrite !andb_true_iff, negb_true_iff.
  intros [[H1 H2] [H3 H4]]. repeat split; auto.
  intros H. apply includes_In_string in H. congruence.
Qed.

Lemma plain_keys_not_proto (k : string) : plain_key k = true -> String.eqb k "__proto__" = false.
Proof.
  unfold plain_key. destruct (JsObject.array_index k); [discriminate|].
  apply negb_true_iff.
Qed.

(** An object built from members with plain keys has them in the order
    they were given. *)
Lemma of_list_plain {V : Type} (kvs : list (string * V)) :
  plain_keys (List.map fst kvs) = true -> JsObject.of_list kvs = kvs.
Proof.
  unfold JsObject.of_list.
  assert (G : forall acc,
             plain_keys (List.map fst kvs) = true ->
             (forall k, In k (List.map fst acc) -> ~ In k (List.map fst kvs)) ->
             fold_left (fun o kv => JsObject.set (fst kv) (snd kv) o) kvs acc = acc ++ kvs).
  { induction kvs as [|[k v] kvs IH]; intros acc Hp Hd; simpl.
    - rewrite app_nil_r. reflexivity.
    - simpl in Hp. apply plain_keys_cons in Hp. destruct Hp as (P1 & P2 & P3).
      rewrite set_plain; [|exact P1|].
      + rewrite IH; [rewrite <- app_assoc; reflexivity | exact P3|].
        intros k' Hk'. rewrite List.map_app, in_app_iff in Hk'. simpl in Hk'.
        destruct Hk' as [Hk'|[<-|[]]]; [|exact P2].
        intros Hin. apply (Hd k' Hk'). simpl. auto.
      + intros Hin. apply (Hd k Hin). simpl. auto. }
  intros Hp. apply (G [] Hp). intros k [].
Qed.

(** The plain object the replacer of [stringify] makes of a [Map] whose
    keys are plain. *)
Lemma replacer_plain {V : Type} (m : list (name * V)) :
  plain_keys (List.map name_to_string (JsMap.keys m)) = true ->
  replacer m = Ok (List.map (fun kv => (name_to_string (fst kv), snd kv)) m).
Proof.
  unfold replacer.
  assert (G : forall acc,
             plain_keys (List.map name_to_string (JsMap.keys m)) = true ->
             (forall k, In k (List.map fst acc) ->
                        ~ In k (List.map name_to_string (JsMap.keys m))) ->
             forOf m
               (fun obj kv =>
                  if String.eqb (name_to_string (fst kv)) "__proto__"
                  then Throw (Unsupported "a node name that sets the prototype")
                  else Ok (JsObject.set (name_to_string (fst kv)) (snd kv) obj)) acc
             = Ok (acc ++ List.map (fun kv => (name_to_string (fst kv), snd kv)) m)).
  { induction m as [|[k v] m IH]; intros acc Hp Hd; simpl.
    - rewrite app_nil_r. reflexivity.
    - simpl in Hp. apply plain_keys_cons in Hp. destruct Hp as (P1 & P2 & P3).
      rewrite (plain_keys_not_proto _ P1). cbn [bind].
      rewrite set_plain; [|exact P1|].
      + rewrite IH; [rewrite <- app_assoc; reflexivity | exact P3|].
        intros k' Hk'. rewrite List.map_app, in_app_iff in Hk'. simpl in Hk'.
        destruct Hk' as [Hk'|[<-|[]]]; [|exact P2].
        intros Hin. apply (Hd k' Hk'). simpl. auto.
      + intros Hin. apply (Hd _ Hin). simpl. auto. }
  intros Hp. apply (G [] Hp). intros k [].
Qed.

Lemma json_members_total {V : Type} (enc : V -> option json) (dec : V -> json)
      (obj : list (string * V)) :
  (forall kv, In kv obj -> enc (snd kv) = Some (dec (snd kv))) ->
  json_members enc obj = List.map (fun kv => (fst kv, dec (snd kv))) obj.
Proof.
  unfold json_members. induction obj as [|kv obj IH]; intros H; simpl; [reflexivity|].
  rewrite (H kv) by (simpl; auto). simpl. f_equal. apply IH. intros kv' Hkv'.
  apply H. simpl. auto.
Qed.

Lemma data_to_json_persistable d :
  persistable_data d = true -> data_to_json d = Some (data_json d).
Proof. destruct d; simpl; try discriminate; reflexivity. Qed.

Lemma mapM_props (props : list (string * string)) :
  mapM (fun kv : string * json =>
          match snd kv with
          | JStr v => Ok (fst kv, v)
          | _ => Throw (Unsupported "node data with a member that is not a string")
          end)
       (List.map (fun kv => (fst kv, JStr (snd kv))) props)
  = Ok props.
Proof.
  induction props as [|[k v] props IH]; simpl; [reflexivity|].
  rewrite IH. reflexivity.
Qed.

Lemma json_to_data_json d :
  persistable_data d = true -> json_to_data (data_json d) = Ok d.
Proof.
  destruct d as [|str|str props|props]; simpl; try discriminate; [reflexivity|].
  intros Hp. rewrite mapM_props. cbn [bind]. rewrite of_list_plain by exact Hp.
  reflexivity.
Qed.

Lemma json_to_edges_names (l : list name) :
  forallb is_some l = true ->
  json_to_edges (JArr (List.map name_to_json l)) = Ok l.
Proof.
  unfold json_to_edges. induction l as [|[x|] l IH]; simpl; [reflexivity| |discriminate].
  intros H. rewrite IH by exact H. reflexivity.
Qed.

Lemma nodup_keys_of_plain (l : list string) : plain_keys l = true -> nodup_keys l = true.
Proof. unfold plain_keys. rewrite andb_true_iff. tauto. Qed.

Lemma map_some_keys {V : Type} (m : list (name * V)) :
  forallb is_some (JsMap.keys m) = true ->
  List.map (fun kv => (Some (name_to_string (fst kv)), snd kv)) m = m.
Proof.
  induction m as [|[[k|] v] m IH]; simpl; [reflexivity| |discriminate].
  intros H. rewrite IH by exact H. reflexivity.
Qed.

Lemma set_fresh {V : Type} (k : name) (v : V) (acc : list (name * V)) :
  ~ In k (JsMap.keys acc) -> JsMap.set k v acc = acc ++ [(k, v)].
Proof.
  induction acc as [|[k' v'] acc IH]; intros H; cbn [JsMap.set app]; [reflexivity|].
  rewrite name_eqb_neq.
  - rewrite IH; [reflexivity|]. intros H1. apply H. simpl. auto.
  - intros ->. apply H. simpl. auto.
Qed.

(** One [Map] of the graph, written by [stringify] and read by [restore]. *)
Lemma restore_map_of_replacer {V : Type} (m : list (name * V))
      (enc : V -> option json) (encoded : V -> json) (dec : json -> result V) :
  forallb is_some (JsMap.keys m) = true ->
  plain_keys (List.map name_to_string (JsMap.keys m)) = true ->
  (forall kv, In kv m -> enc (snd kv) = Some (encoded (snd kv))) ->
  (forall kv, In kv m -> dec (encoded (snd kv)) = Ok (snd kv)) ->
  exists obj members,
    replacer m = Ok obj
    /\ json_members enc obj = members
    /\ JsObject.of_list members = members
    /\ (m <> [] -> members <> [])
    /\ restore_map dec members [] = Ok m.
Proof.
  intros Hs Hp Henc Hdec.
  exists (List.map (fun kv => (name_to_string (fst kv), snd kv)) m).
  exists (List.map (fun kv => (name_to_string (fst kv), encoded (snd kv))) m).
  assert (Hkeys : List.map fst
                    (List.map (fun kv : name * V => (name_to_string (fst kv), encoded (snd kv))) m)
                  = List.map name_to_string (JsMap.keys m)).
  { unfold JsMap.keys. rewrite !List.map_map. reflexivity. }
  split; [apply replacer_plain, Hp|]. split; [|split; [|split]].
  - rewrite (json_members_total enc encoded).
    + rewrite List.map_map. reflexivity.
    + intros kv Hkv. apply in_map_iff in Hkv. destruct Hkv as (kv0 & <- & Hkv0).
      simpl. apply Henc, Hkv0.
  - apply of_list_plain. rewrite Hkeys. exact Hp.
  - destruct m; [congruence | discriminate].
  - clear Henc.
    assert (G : forall members,
               members = List.map (fun kv => (name_to_string (fst kv), encoded (snd kv))) m ->
               restore_map dec members [] = Ok m).
    { intros members ->. unfold restore_map.
      assert (G : forall acc,
          nodup_keys (List.map name_to_string (JsMap.keys m)) = true ->
          forallb is_some (JsMap.keys m) = true ->
          (forall kv, In kv m -> dec (encoded (snd kv)) = Ok (snd kv)) ->
          (forall k, In (Some k) (JsMap.keys acc) ->
                     ~ In k (List.map name_to_string (JsMap.keys m))) ->
          forOf (List.map (fun kv => (name_to_string (fst kv), encoded (snd kv))) m)
            (fun m0 kv => v <- dec (snd kv) ;; Ok (JsMap.set (Some (fst kv)) v m0)) acc
          = Ok (acc ++ m)).
      { clear Hkeys Hs Hp Hdec.
        induction m as [|[k v] m IH]; intros acc Hn Hs Hdec Hd; simpl.
        - rewrite app_nil_r. reflexivity.
        - pose proof (Hdec (k, v) (or_introl eq_refl)) as Hkv. simpl in Hkv.
          rewrite Hkv. cbn [bind].
          simpl in Hn, Hs. apply andb_true_iff in Hn. destruct Hn as [N1 N2].
          apply negb_true_iff in N1. apply andb_true_iff in Hs. destruct Hs as [S1 S2].
          destruct k as [k|]; [|discriminate]. simpl in *.
          assert (Hset : JsMap.set (Some k) v acc = acc ++ [(Some k, v)]).
          { apply set_fresh. intros H. apply (Hd k H). auto. }
          rewrite Hset, IH; [rewrite <- app_assoc; reflexivity | exact N2 | exact S2 | |].
          + intros kv0 Hkv0. apply Hdec. auto.
          + intros k' Hk'. unfold JsMap.keys in Hk'.
            rewrite List.map_app, in_app_iff in Hk'. simpl in Hk'.
            destruct Hk' as [Hk'|[[= <-]|[]]].
            * intros Hin. apply (Hd k' Hk'). auto.
            * intros Hin. apply includes_In_string in Hin. congruence. }
      apply (G []); auto using nodup_keys_of_plain. }
    apply G. reflexivity.
Qed.

End PersistedFacts.

Section PersistenceProperties.
Import DepGraphFacts GlobalDependencyMap Invariants Queries Persisted PersistedFacts.

Lemma keys_nil {V : Type} (m : list (name * V)) : JsMap.keys m = [] -> m = [].
Proof. destruct m; [reflexivity | discriminate]. Qed.

(** X11. What [restore] gets back from [stringify]. For a state whose
    graph is consistent and persistable (it allows cycles, its nodes are
    strings that are plain keys, the data of every node is a string or an
    object of strings with plain keys, and every edge leads to a string),
    [stringify()] returns a document and [restore] of that document, into
    any instance, gives that instance the same graph. *)
Theorem restore_of_stringify_round_trip (s0 s : GlobalDependencyMap.t) :
  DepGraph.consistent (map s) = true -> persistable (map s) = true ->
  exists doc, stringify s = Ok doc
    /\ exists s', restore s0 doc = Ok s' /\ map s' = map s.
Proof.
  intros Hc Hp. unfold persistable in Hp. rewrite !andb_true_iff in Hp.
  destruct Hp as [[[[[Hcirc Hsome] Hplain] Hdata] Hout] Hin].
  apply consistent_iff in Hc. destruct Hc as [[K1 K2] _].
  rewrite forallb_forall in Hdata, Hout, Hin.
  destruct (restore_map_of_replacer (DepGraph.nodes (map s)) data_to_json data_json
              json_to_data Hsome Hplain)
    as (on & mn & Rn & Jn & On & Nn & En).
  { intros kv Hkv. apply data_to_json_persistable, Hdata, Hkv. }
  { intros kv Hkv. apply json_to_data_json, Hdata, Hkv. }
  destruct (restore_map_of_replacer (DepGraph.outgoingEdges (map s))
              (fun l => Some (JArr (List.map name_to_json l)))
              (fun l => JArr (List.map name_to_json l)) json_to_edges)
    as (oo & mo & Ro & Jo & Oo & No & Eo).
  { rewrite <- K1. exact Hsome. }
  { rewrite <- K1. exact Hplain. }
  { reflexivity. }
  { intros kv Hkv. apply json_to_edges_names, Hout, Hkv. }
  destruct (restore_map_of_replacer (DepGraph.incomingEdges (map s))
              (fun l => Some (JArr (List.map name_to_json l)))
              (fun l => JArr (List.map name_to_json l)) json_to_edges)
    as (oi & mi & Ri & Ji & Oi & Ni & Ei).
  { rewrite <- K2. exact Hsome. }
  { rewrite <- K2. exact Hplain. }
  { reflexivity. }
  { intros kv Hkv. apply json_to_edges_names, Hin, Hkv. }
  unfold stringify. rewrite Rn, Ro, Ri. cbn [bind]. rewrite Jn, Jo, Ji.
  eexists. split; [reflexivity|].
  assert (Hg : map s = DepGraph.mk (DepGraph.nodes (map s)) (DepGraph.outgoingEdges (map s))
                         (DepGraph.incomingEdges (map s)) true).
  { destruct (map s). simpl in *. subst. reflexivity. }
  destruct (DepGraph.nodes (map s)) as [|n0 ns] eqn:Hnodes.
  - (* the empty graph *)
    symmetry in K1, K2. apply keys_nil in K1, K2. rewrite K1, K2 in *.
    unfold replacer in Rn, Ro, Ri. simpl in Rn, Ro, Ri.
    injection Rn as <-. injection Ro as <-. injection Ri as <-.
    simpl in Jn, Jo, Ji. subst mn mo mi.
    exists (set_map s0 (DepGraph.create true)). split; [reflexivity|].
    rewrite Hg. reflexivity.
  - assert (Ho' : DepGraph.outgoingEdges (map s) <> []).
    { intros H. rewrite H in K1. discriminate. }
    assert (Hi' : DepGraph.incomingEdges (map s) <> []).
    { intros H. rewrite H in K2. discriminate. }
    assert (Hn' : n0 :: ns <> []) by discriminate.
    specialize (Nn Hn'). specialize (No Ho'). specialize (Ni Hi').
    exists (set_map s0 (map s)). split; [|reflexivity].
    unfold restore.
    change (JsObject.of_list
              [("nodes", JObj mn); ("outgoingEdges", JObj mo); ("incomingEdges", JObj mi);
               ("circular", JBool (DepGraph.circular (map s)))])
      with [("nodes", JObj mn); ("outgoingEdges", JObj mo); ("incomingEdges", JObj mi);
            ("circular", JBool (DepGraph.circular (map s)))].
    cbn [forOf for_in_members bind]. rewrite On, Oo, Oi.
    destruct mn as [|xn mn]; [congruence|].
    destruct mo as [|xo mo]; [congruence|].
    destruct mi as [|xi mi]; [congruence|].
    cbn [bind String.eqb Ascii.eqb Bool.eqb DepGraph.create DepGraph.nodes
              DepGraph.outgoingEdges DepGraph.incomingEdges DepGraph.circular].
    rewrite En. cbn [bind String.eqb Ascii.eqb Bool.eqb DepGraph.create DepGraph.nodes
              DepGraph.outgoingEdges DepGraph.incomingEdges DepGraph.circular].
    rewrite Eo. cbn [bind String.eqb Ascii.eqb Bool.eqb DepGraph.create DepGraph.nodes
              DepGraph.outgoingEdges DepGraph.incomingEdges DepGraph.circular].
    rewrite Ei. cbn [bind]. rewrite <- Hg. reflexivity.
Qed.

End PersistenceProperties.

Module RepeatFacts.
Import DepGraph DepGraphFacts GlobalDependencyMap GlobalDependencyMapFacts CollectionFacts.
Import Invariants WellFormed WellFormedFacts EdgeFacts.

Lemma set_same {V : Type} (k : name) (v : V) (m : list (name * V)) :
  JsMap.get k m = Some v -> JsMap.set k v m = m.
Proof.
  induction m as [|[k' v'] m IH]; simpl; [discriminate|].
  destruct (name_eqb_spec k k') as [->|E].
  - intros [= ->]. reflexivity.
  - intros H. rewrite IH by exact H. reflexivity.
Qed.

Lemma push_unique_present (x : name) (l : list name) :
  In x l -> JsArray.push_unique name_eqb x l = l.
Proof.
  intros H. apply JsArrayFacts.includes_In in H. unfold JsArray.push_unique.
  rewrite H. reflexivity.
Qed.

Lemma get_edge_list_has edges k :
  JsMap.has k edges = true -> JsMap.get k edges = Some (edge_list edges k).
Proof. unfold JsMap.has, edge_list. destruct (JsMap.get k edges); congruence. Qed.

(** The graph store leaves a graph that holds the edge as it is. *)
Lemma addDependency_present g from to :
  consistent g = true -> DepGraph.hasNode g from = true -> DepGraph.hasNode g to = true ->
  In to (edge_list (outgoingEdges g) from) -> In from (edge_list (incomingEdges g) to) ->
  DepGraph.addDependency g from to = Ok g.
Proof.
  intros Hc Hf Ht Ho Hi. unfold DepGraph.addDependency. rewrite Hf, Ht. simpl.
  pose proof (has_outgoing g from Hc) as Ho'. rewrite Hf in Ho'.
  pose proof (has_incoming g to Hc) as Hi'. rewrite Ht in Hi'.
  rewrite (edges_of_has _ _ Ho'), (edges_of_has _ _ Hi'). simpl.
  rewrite !push_unique_present by assumption.
  rewrite !set_same by (apply get_edge_list_has; assumption).
  destruct g; reflexivity.
Qed.

Lemma set_map_same s : _map s <> None -> set_map s (map s) = s.
Proof.
  destruct s as [[g|] e c n]; simpl; [reflexivity | congruence].
Qed.

Lemma hasNode_created s k : DepGraph.hasNode (map s) k = true -> _map s <> None.
Proof.
  destruct s as [[g|] e c n]; simpl; [discriminate | intros H; discriminate H].
Qed.

Lemma add_one_present s from to :
  consistent (map s) = true ->
  DepGraph.hasNode (map s) from = true -> DepGraph.hasNode (map s) to = true ->
  (from <> to -> In to (outs s from) /\ In from (ins s to)) ->
  add_one from s to = Ok s.
Proof.
  intros Hc Hf Ht He. unfold add_one, addNode_. rewrite Ht.
  destruct (name_eqb_spec from to) as [E|E]; simpl; [reflexivity|].
  destruct (He E) as [Ho Hi].
  rewrite addDependency_present by assumption. simpl.
  rewrite set_map_same; [reflexivity | eapply hasNode_created; eauto].
Qed.

Lemma add_loop_present s from l :
  consistent (map s) = true -> DepGraph.hasNode (map s) from = true ->
  (forall to, In to l -> DepGraph.hasNode (map s) to = true
                         /\ (from <> to -> In to (outs s from) /\ In from (ins s to))) ->
  forOf l (add_one from) s = Ok s.
Proof.
  intros Hc Hf. induction l as [|to l IH]; intros H; simpl; [reflexivity|].
  destruct (H to) as [Ht He]; [simpl; auto|].
  rewrite add_one_present by assumption. simpl. apply IH.
  intros to' Hto'. apply H. simpl. auto.
Qed.

End RepeatFacts.

Section EdgeProperties.
Import DepGraph DepGraphFacts GlobalDependencyMap GlobalDependencyMapFacts CollectionFacts.
Import Invariants WellFormed WellFormedFacts EdgeFacts RepeatFacts.
Context {host : Host}.

(** X12. What [addDependency] adds. On a well-formed state, for a [from]
    and an array that normalize, [addDependency(from, toArray)] returns;
    afterwards the nodes of the graph are those of before, [from] and the
    entries of the array, and its edges are those of before and the edges
    from [from] to every entry of the array other than [from] itself: no
    other edge is added, none is removed, and no node gets an edge to
    itself. *)
Theorem addDependency_adds_exactly_its_edges
    (s : GlobalDependencyMap.t) (from : jsval) (toArray : list jsval)
    (f : name) (ts : list name) :
  wellFormed (map s) = true ->
  normalizeNode from = Ok f -> mapM normalizeNode toArray = Ok ts ->
  exists s', addDependency s from toArray = Ok s'
    /\ (forall k, DepGraph.hasNode (map s') k = true
                  <-> DepGraph.hasNode (map s) k = true \/ k = f \/ In k ts)
    /\ (forall a b, DepGraph.has_edge (map s') a b = true
                    <-> DepGraph.has_edge (map s) a b = true
                        \/ (a = f /\ In b ts /\ b <> f)).
Proof.
  intros W Hf Hts. apply wellFormed_iff in W.
  destruct (addDependency__spec s f ts W) as (s' & E & X & W' & H & O & I).
  exists s'. split; [|split].
  - unfold addDependency. rewrite Hf, Hts. exact E.
  - intros k. rewrite H, !orb_true_iff, JsArrayFacts.includes_In.
    destruct (name_eqb_spec k f); intuition congruence.
  - intros a b. rewrite !has_edge_In.
    fold (outs s' a) (ins s' b) (outs s a) (ins s b). rewrite O, I.
    split.
    + intros [[Ho|Ho] [Hi|Hi]]; tauto.
    + intros [[Ho Hi]|(-> & Hb & Hne)]; split; auto.
Qed.

(** X13. Adding the same dependencies again changes nothing. On a
    well-formed state, the state that [addDependency(from, toArray)]
    returns is returned unchanged by a second [addDependency(from,
    toArray)]. *)
Theorem addDependency_twice
    (s : GlobalDependencyMap.t) (from : jsval) (toArray : list jsval)
    (f : name) (ts : list name) :
  wellFormed (map s) = true ->
  normalizeNode from = Ok f -> mapM normalizeNode toArray = Ok ts ->
  exists s', addDependency s from toArray = Ok s'
    /\ addDependency s' from toArray = Ok s'.
Proof.
  intros W Hf Hts. apply wellFormed_iff in W.
  destruct (addDependency__spec s f ts W) as (s' & E & X & W' & H & O & I).
  exists s'. unfold addDependency. rewrite Hf, Hts. cbn [bind]. split; [exact E|].
  assert (Hn : DepGraph.hasNode (map s') f = true).
  { rewrite H, name_eqb_refl, orb_true_r. reflexivity. }
  rewrite addDependency__unfold. unfold addNode_ at 1. rewrite Hn.
  apply add_loop_present; [apply W' | exact Hn|].
  intros to Hto. split.
  - rewrite H. apply JsArrayFacts.includes_In in Hto. rewrite Hto. apply orb_true_r.
  - intros Hne. split; [apply O | apply I]; right; auto.
Qed.

End EdgeProperties.

Module TagFacts.
Import GlobalDependencyMap Invariants.

Section Sets.
Context {A : Type} (eqb : A -> A -> bool).
Hypothesis eqb_eq : forall x y, eqb x y = true <-> x = y.

Lemma includes_iff (x : A) (l : list A) : JsArray.includes eqb x l = true <-> In x l.
Proof.
  unfold JsArray.includes. rewrite existsb_exists. split.
  - intros [y [Hy Hxy]]. apply eqb_eq in Hxy. congruence.
  - intros H. exists x. split; [assumption | apply eqb_eq; reflexivity].
Qed.

Lemma push_unique_iff (x y : A) (l : list A) :
  In x (JsArray.push_unique eqb y l) <-> In x l \/ x = y.
Proof.
  unfold JsArray.push_unique. destruct (JsArray.includes eqb y l) eqn:E.
  - apply includes_iff in E. split; [auto | intros [H| ->]; auto].
  - rewrite in_app_iff. simpl. intuition.
Qed.

Lemma push_unique_NoDup (y : A) (l : list A) :
  NoDup l -> NoDup (JsArray.push_unique eqb y l).
Proof.
  intros H. unfold JsArray.push_unique. destruct (JsArray.includes eqb y l) eqn:E;
    [assumption|].
  apply NoDup_app; [assumption | repeat constructor; simpl; tauto|].
  intros x Hx [<-|[]]. apply includes_iff in Hx. congruence.
Qed.

(** [new Set(l)] holds the elements of [l], each once. *)
Lemma to_set_spec (l : list A) :
  NoDup (JsArray.to_set eqb l) /\ forall x, In x (JsArray.to_set eqb l) <-> In x l.
Proof.
  unfold JsArray.to_set.
  assert (G : forall acc, NoDup acc ->
             NoDup (fold_left (fun acc x => JsArray.push_unique eqb x acc) l acc)
             /\ forall x, In x (fold_left (fun acc x => JsArray.push_unique eqb x acc) l acc)
                          <-> In x acc \/ In x l).
  { induction l as [|y l IH]; intros acc ND; simpl.
    - split; [exact ND | intros x; tauto].
    - destruct (IH (JsArray.push_unique eqb y acc) (push_unique_NoDup y acc ND)) as [H1 H2].
      split; [exact H1|]. intros x. rewrite H2, push_unique_iff. intuition. }
  destruct (G [] (NoDup_nil _)) as [H1 H2]. split; [exact H1|].
  intros x. rewrite H2. simpl. tauto.
Qed.

(** The loop of [findCollectionsRemovedFrom] keeps the elements of the set
    that the given names do not include. *)
Lemma deleted_spec (names set : list A) :
  let deleted :=
    fold_left (fun deleted dep =>
                 if negb (JsArray.includes eqb dep names)
                 then JsArray.push_unique eqb dep deleted
                 else deleted) set [] in
  NoDup deleted /\ forall x, In x deleted <-> In x set /\ ~ In x names.
Proof.
  assert (G : forall acc, NoDup acc ->
             let deleted :=
               fold_left (fun deleted dep =>
                            if negb (JsArray.includes eqb dep names)
                            then JsArray.push_unique eqb dep deleted
                            else deleted) set acc in
             NoDup deleted
             /\ forall x, In x deleted <-> In x acc \/ (In x set /\ ~ In x names)).
  { induction set as [|y set IH]; intros acc ND; simpl.
    - split; [exact ND | intros x; tauto].
    - destruct (JsArray.includes eqb y names) eqn:E; simpl.
      + destruct (IH acc ND) as [H1 H2]. split; [exact H1|].
        intros x. rewrite H2. apply includes_iff in E. intuition congruence.
      + destruct (IH _ (push_unique_NoDup y acc ND)) as [H1 H2]. split; [exact H1|].
        intros x. rewrite H2, push_unique_iff.
        assert (~ In y names) by (intros H; apply includes_iff in H; congruence).
        intuition congruence. }
  destruct (G [] (NoDup_nil _)) as [H1 H2]. split; [exact H1|].
  intros x. rewrite H2. simpl. tauto.
Qed.

End Sets.

Lemma substring_from_0 (s : string) : String.substring 0 (String.length s) s = s.
Proof. induction s as [|c s IH]; simpl; [reflexivity | rewrite IH; reflexivity]. Qed.

(** A string that starts with a prefix is the prefix followed by the rest
    of the string. *)
Lemma prefix_split (p e : string) :
  String.prefix p e = true -> e = String.append p (string_slice (String.length p) e).
Proof.
  revert e. induction p as [|a p IH]; intros e H.
  - unfold string_slice. simpl. rewrite Nat.sub_0_r, substring_from_0. reflexivity.
  - destruct e as [|b e]; simpl in H; [discriminate|].
    destruct (Ascii.ascii_dec a b) as [->|]; [|discriminate].
    simpl. f_equal. rewrite (IH e H) at 1. reflexivity.
Qed.

(** The tag name of an entry is [c] exactly when the entry is the key of
    the collection [c]. *)
Lemma getTagName_Some (e c : string) :
  getTagName (Some e) = Ok (Some c) <-> e = getCollectionKeyForEntry c.
Proof.
  split.
  - unfold getTagName, isTag. cbn [bind name_to_string].
    destruct (String.prefix COLLECTION_PREFIX e) eqn:Hp; [|discriminate].
    intros [= <-]. apply prefix_split, Hp.
  - intros ->. unfold getTagName, isTag, getCollectionKeyForEntry, string_slice. simpl.
    replace (String.prefix "" c) with true by (destruct c; reflexivity).
    rewrite Nat.sub_0_r, substring_from_0. reflexivity.
Qed.

Lemma getTagName_total (e : string) : exists tag, getTagName (Some e) = Ok tag.
Proof.
  unfold getTagName, isTag. cbn [bind]. destruct (String.prefix COLLECTION_PREFIX e); eauto.
Qed.

Lemma mapM_getTagName (l : list name) :
  forallb Queries.is_some l = true ->
  exists tags, mapM getTagName l = Ok tags
    /\ forall c, In (Some c) tags <-> In (Some (getCollectionKeyForEntry c)) l.
Proof.
  induction l as [|[e|] l IH]; intros H; simpl in H; [| |discriminate].
  - exists []. split; [reflexivity|]. intros c. simpl. tauto.
  - destruct (IH H) as (tags & E & Ht). destruct (getTagName_total e) as [tag Etag].
    exists (tag :: tags). split.
    + cbn [mapM]. rewrite Etag. cbn [bind]. rewrite E. reflexivity.
    + intros c. simpl. rewrite Ht. split.
      * intros [->|Hc]; [|auto]. left. f_equal.
        apply (proj1 (getTagName_Some e c)) in Etag. congruence.
      * intros [[= ->]|Hc]; [|auto]. left.
        assert (getTagName (Some (getCollectionKeyForEntry c)) = Ok (Some c))
          by (apply getTagName_Some; reflexivity).
        congruence.
Qed.

End TagFacts.

Section CollectionProperties.
Import DepGraphFacts GlobalDependencyMap GlobalDependencyMapFacts Invariants Queries TagFacts.
Context {host : Host}.

(** X14. Tag names and collection keys. [getTagName] inverts
    [getCollectionKeyForEntry]: the key of every collection name is a tag,
    and its tag name is the collection name. *)
Theorem getTagName_of_getCollectionKeyForEntry (c : string) :
  isTag (Some (getCollectionKeyForEntry c)) = Ok true
  /\ getTagName (Some (getCollectionKeyForEntry c)) = Ok (Some c).
Proof.
  split.
  - unfold isTag. rewrite prefix_collectionKey. reflexivity.
  - apply getTagName_Some. reflexivity.
Qed.

(** X15. The collections a node has left. On a consistent state, for a
    node of the graph that normalizes to a string and whose direct
    dependants are strings, [findCollectionsRemovedFrom(node, names)]
    returns a set that holds exactly the non-empty collection names that
    are not in [names] and whose entry is among the direct dependants of
    the node. *)
Theorem findCollectionsRemovedFrom_lists_left_collections
    (s : GlobalDependencyMap.t) (node : jsval) (n : string) (collectionNames : list string) :
  DepGraph.consistent (map s) = true ->
  normalizeNode node = Ok (Some n) ->
  DepGraph.hasNode (map s) (Some n) = true ->
  forallb is_some (DepGraph.edge_list (DepGraph.incomingEdges (map s)) (Some n)) = true ->
  exists deleted,
    findCollectionsRemovedFrom s node collectionNames = Ok deleted
    /\ NoDup deleted
    /\ forall c, In c deleted
                 <-> c <> "" /\ ~ In c collectionNames
                     /\ In (Some (getCollectionKeyForEntry c))
                           (DepGraph.edge_list (DepGraph.incomingEdges (map s)) (Some n)).
Proof.
  intros Hc Hnorm Hn Hsome.
  unfold findCollectionsRemovedFrom, hasNode, getDependantsFor.
  rewrite Hnorm. cbn [bind]. rewrite Hn. cbn [negb].
  rewrite (normalizeNode_truthy node n Hnorm). cbn [negb bind]. unfold DepGraph.directDependantsOf. rewrite Hn.
  rewrite edges_of_has by (rewrite has_incoming; assumption). cbn [bind].
  destruct (mapM_getTagName _ Hsome) as (tags & Et & Htags). rewrite Et. cbn [bind].
  match goal with
  | |- context [JsArray.to_set String.eqb ?l] => set (prevDeps := l)
  end.
  destruct (to_set_spec String.eqb String.eqb_eq prevDeps) as [ND Hset].
  destruct (deleted_spec String.eqb String.eqb_eq collectionNames
              (JsArray.to_set String.eqb prevDeps)) as [NDd Hd].
  eexists. split; [reflexivity|]. split; [exact NDd|].
  intros c. rewrite Hd, Hset, <- Htags. unfold prevDeps. rewrite in_flat_map. split.
  - intros [(tag & Htag & Hc') Hnot]. destruct tag as [nm|]; [|destruct Hc'].
    destruct (String.eqb_spec nm ""); [destruct Hc'|].
    destruct Hc' as [<-|[]]. auto.
  - intros (Hne & Hnot & Hin). split; [|exact Hnot].
    exists (Some c). split; [exact Hin|].
    destruct (String.eqb_spec c ""); [contradiction | simpl; auto].
Qed.

End CollectionProperties.

Section MoreEdgeProperties.
Import DepGraph DepGraphFacts GlobalDependencyMap GlobalDependencyMapFacts CollectionFacts.
Import Invariants WellFormed WellFormedFacts EdgeFacts RepeatFacts.
Context {host : Host}.

Lemma normalizeNode_falsy (v : jsval) : truthy v = false -> normalizeNode v = Ok None.
Proof. intros H. unfold normalizeNode. rewrite H. reflexivity. Qed.

Lemma normalizeNode_collectionKey (c : string) :
  normalizeNode (JSString (getCollectionKeyForEntry c))
  = Ok (Some (fullNormalization (getCollectionKeyForEntry c))).
Proof. reflexivity. Qed.

(** X16. Consuming a configuration-API collection without a template. On
    a consistent state that has no node [undefined],
    [addDependencyConsumesCollection(from, name)] with a falsy [from] and
    the name of a configuration-API collection throws a [TypeError]: the
    node [undefined] it has created carries no data that the consumer mark
    could be merged into. *)
Theorem addDependencyConsumesCollection_of_a_falsy_template
    (s : GlobalDependencyMap.t) (from : jsval) (names : list string)
    (collectionName : string) :
  DepGraph.consistent (map s) = true ->
  userConfigurationCollectionApiNames s = Ok names ->
  JsArray.includes String.eqb collectionName names = true ->
  truthy from = false ->
  DepGraph.hasNode (map s) None = false ->
  addDependencyConsumesCollection s from collectionName
  = Throw (TypeError "Cannot convert undefined or null to object").
Proof.
  intros Hc Hnames Hin Hfalsy Hnone. unfold addDependencyConsumesCollection.
  rewrite (normalizeNode_falsy from Hfalsy). cbn [bind].
  destruct (addDependency__single s None (Some (getCollectionKeyForEntry collectionName)) Hc)
    as (s1 & E1 & A1).
  rewrite E1. cbn [bind].
  pose proof (add_extends _ _ _ _ A1) as X1.
  rewrite (isUserConfigCollectionName_ok s1 names collectionName)
    by (rewrite (names_of_config s s1 (ext_config _ _ X1)); exact Hnames).
  rewrite Hin. cbn [bind].
  assert (Hn1 : DepGraph.hasNode (map s1) None = true).
  { rewrite (add_has _ _ _ _ A1), name_eqb_refl, orb_true_r. reflexivity. }
  unfold mergeNodeData_, getNodeData. rewrite Hn1.
  rewrite (ext_new _ _ X1 None Hnone Hn1). reflexivity.
Qed.

(** [addDependency] on a well-formed state, for arguments that normalize. *)
Lemma addDependency_spec (s : GlobalDependencyMap.t) (from : jsval) (toArray : list jsval)
      (f : name) (ts : list name) :
  WF (map s) -> normalizeNode from = Ok f -> mapM normalizeNode toArray = Ok ts ->
  exists s', addDependency s from toArray = Ok s'
    /\ WF (map s')
    /\ (forall a b, DepGraph.has_edge (map s') a b = true
                    <-> DepGraph.has_edge (map s) a b = true
                        \/ (a = f /\ In b ts /\ b <> f)).
Proof.
  intros W Hf Hts.
  destruct (addDependency__spec s f ts W) as (s' & E & X & W' & H & O & I).
  exists s'. split; [|split; [exact W'|]].
  - unfold addDependency. rewrite Hf, Hts. exact E.
  - intros a b. rewrite !has_edge_In.
    fold (outs s' a) (ins s' b) (outs s a) (ins s b). rewrite O, I. split.
    + intros [[Ho|Ho] [Hi|Hi]]; tauto.
    + intros [[Ho Hi]|(-> & Hb & Hne)]; split; auto.
Qed.

(** X17. The collections of the configuration API depend on "all". On a
    well-formed state, [addCollectionApiNames(names)] returns, and
    afterwards the graph holds, for every name of the array, the edge from
    the normalized key of that collection to the normalized key of the
    collection "all", unless the two are the same node. *)
Theorem addCollectionApiNames_links_every_collection_to_all
    (s : GlobalDependencyMap.t) (names : list string) :
  wellFormed (map s) = true ->
  exists s', addCollectionApiNames s names = Ok s'
    /\ forall nm,
         In nm names ->
         fullNormalization (getCollectionKeyForEntry nm)
         <> fullNormalization (getCollectionKeyForEntry SPECIAL_ALL_COLLECTION_NAME) ->
         DepGraph.has_edge (map s')
           (Some (fullNormalization (getCollectionKeyForEntry nm)))
           (Some (fullNormalization (getCollectionKeyForEntry SPECIAL_ALL_COLLECTION_NAME)))
         = true.
Proof.
  intros W. apply wellFormed_iff in W.
  assert (G : forall l s0, WF (map s0) ->
    exists s', forOf l
                 (fun s1 nm =>
                    addDependency s1 (JSString (getCollectionKeyForEntry nm))
                      [JSString (getCollectionKeyForEntry SPECIAL_ALL_COLLECTION_NAME)]) s0
               = Ok s'
      /\ (forall a b, DepGraph.has_edge (map s0) a b = true ->
                      DepGraph.has_edge (map s') a b = true)
      /\ forall nm,
           In nm l ->
           fullNormalization (getCollectionKeyForEntry nm)
           <> fullNormalization (getCollectionKeyForEntry SPECIAL_ALL_COLLECTION_NAME) ->
           DepGraph.has_edge (map s')
             (Some (fullNormalization (getCollectionKeyForEntry nm)))
             (Some (fullNormalization (getCollectionKeyForEntry SPECIAL_ALL_COLLECTION_NAME)))
           = true).
  { induction l as [|nm l IH]; intros s0 W0; cbn [forOf].
    - exists s0. split; [reflexivity|]. split; [auto|]. intros nm [].
    - destruct (addDependency_spec s0 (JSString (getCollectionKeyForEntry nm))
                  [JSString (getCollectionKeyForEntry SPECIAL_ALL_COLLECTION_NAME)]
                  (Some (fullNormalization (getCollectionKeyForEntry nm)))
                  [Some (fullNormalization
                           (getCollectionKeyForEntry SPECIAL_ALL_COLLECTION_NAME))] W0)
        as (s1 & E1 & W1 & H1); [reflexivity | reflexivity |].
      rewrite E1. cbn [bind].
      destruct (IH s1 W1) as (s' & E & Hmono & Hl).
      exists s'. split; [exact E|]. split.
      + intros a b Hab. apply Hmono, H1. auto.
      + intros nm' [<-|Hin] Hne; [|auto].
        apply Hmono, H1. right. split; [reflexivity|]. split; [simpl; auto|].
        congruence. }
  unfold addCollectionApiNames. destruct names as [|nm names].
  - exists s. split; [reflexivity|]. intros nm [].
  - destruct (G (nm :: names) s W) as (s' & E & _ & H). exists s'. auto.
Qed.

End MoreEdgeProperties.

Module LookupFacts.
Import GlobalDependencyMap Invariants Queries JsObjectFacts.



(** The keys of [relevantLookup] after the nodes of an array were marked. *)
Lemma keys_marked (paths : list name) :
  forall (relevantLookup : list (string * bool)) (x : string),
    In x (JsObject.keys (fold_left relevantLookup_set paths relevantLookup))
    <-> In x (JsObject.keys relevantLookup)
        \/ (x <> "__proto__" /\ exists node, In node paths /\ name_to_string node = x).
Proof.
  induction paths as [|p paths IH]; intros o x; simpl.
  - split; [auto | intros [H|(_ & node & [] & _)]; exact H].
  - rewrite IH. unfold relevantLookup_set.
    destruct (String.eqb_spec (name_to_string p) "__proto__") as [E|E].
    + split.
      * intros [H|(Hx & node & Hn & <-)]; [auto|]. right. split; [exact Hx|]. eauto.
      * intros [H|(Hx & node & [<-|Hn] & <-)]; [auto| congruence |].
        right. split; [exact Hx|]. eauto.
    + rewrite keys_object_set. split.
      * intros [[->|H]|(Hx & node & Hn & <-)]; auto.
        -- right. split; [exact E|]. eauto.
        -- right. split; [exact Hx|]. eauto.
      * intros [H|(Hx & node & [<-|Hn] & <-)]; auto.
        right. split; [exact Hx|]. eauto.
Qed.

Lemma relevantLookup_truthy_iff (relevantLookup : list (string * bool)) (x : name) :
  relevantLookup_truthy relevantLookup x = true
  <-> In (name_to_string x) (JsObject.keys relevantLookup)
      \/ In (name_to_string x) JsObject.prototype_keys.
Proof.
  unfold relevantLookup_truthy. rewrite orb_true_iff, object_has_keys, existsb_exists.
  split; intros [H|H]; auto.
  - destruct H as (k & Hk & E). apply String.eqb_eq in E. subst. auto.
  - right. exists (name_to_string x). split; [exact H | apply String.eqb_refl].
Qed.

Lemma filterOutCollections_spec (l : list name) :
  forallb is_some l = true -> filterOutCollections l = Ok (filter plain_node l).
Proof.
  induction l as [|[e|] l IH]; intros H; simpl in H; [reflexivity| |discriminate].
  cbn [filterOutCollections isTag bind]. rewrite (IH H). cbn [bind filter plain_node].
  destruct (String.prefix COLLECTION_PREFIX e); reflexivity.
Qed.

End LookupFacts.

Section RelevanceProperties.
Import DepGraph DepGraphFacts GlobalDependencyMap GlobalDependencyMapFacts.
Import Invariants Reachability ReachabilityFacts WellFormed WellFormedFacts EdgeFacts.
Import Queries OrderFacts LookupFacts.
Context {host : Host}.

Lemma nodes_are_some g (l : list name) :
  DepGraph.hasNode g None = false -> (forall x, In x l -> DepGraph.hasNode g x = true) ->
  forallb is_some l = true.
Proof.
  intros Hnone H. apply forallb_forall. intros [e|] Hx; [reflexivity|].
  apply H in Hx. congruence.
Qed.

(** X18. The templates relevant to a list of templates. On a well-formed
    state whose graph allows cycles and has no node [undefined], for paths
    that [stripLeadingDotSlash] and [normalizeNode] accept,
    [getTemplatesRelevantToTemplateList(templatePaths)] returns, without
    repetition, exactly the nodes of the graph that are neither layouts nor
    collection entries and that one of the given templates reaches along
    dependency edges; a node of the graph that has the name of a member of
    [Object.prototype] is returned as well. *)
Theorem getTemplatesRelevantToTemplateList_lists_dependencies
    (stripLeadingDotSlash : jsval -> result jsval)
    (s : GlobalDependencyMap.t) (templatePaths : list jsval) (ns : list name) :
  wellFormed (map s) = true -> circular (map s) = true ->
  DepGraph.hasNode (map s) None = false ->
  mapM (fun inputPath => inputPath <- stripLeadingDotSlash inputPath ;;
                         normalizeNode inputPath) templatePaths = Ok ns ->
  exists l,
    getTemplatesRelevantToTemplateList stripLeadingDotSlash s templatePaths = Ok l
    /\ NoDup l
    /\ forall x, In x l
                 <-> DepGraph.hasNode (map s) x = true
                     /\ plain_node x = true /\ layout_node (map s) x = false
                     /\ (In (name_to_string x) JsObject.prototype_keys
                         \/ exists n, In n ns /\ x <> n
                                      /\ reaches (outgoingEdges (map s)) n x).
Proof.
  intros W Hcirc Hnone Hpaths. apply wellFormed_iff in W.
  destruct (overallOrder_spec (map s) W Hcirc) as (order & Eo & NDo & Ho & _).
  unfold getTemplatesRelevantToTemplateList. rewrite Eo. cbn [bind].
  rewrite filterOutLayouts_spec by (intros x Hx; apply Ho, Hx). cbn [bind].
  rewrite filterOutCollections_spec.
  2:{ apply (nodes_are_some (map s)); [exact Hnone|].
      intros x Hx. apply filter_In in Hx. apply Ho, Hx. }
  cbn [bind].
  assert (G : forall paths ns0 acc,
    mapM (fun inputPath => inputPath <- stripLeadingDotSlash inputPath ;;
                           normalizeNode inputPath) paths = Ok ns0 ->
    exists lookup,
      forOf paths
        (fun relevantLookup inputPath =>
           inputPath <- stripLeadingDotSlash inputPath ;;
           deps <- getDependencies s inputPath false ;;
           match deps with
           | None => Ok relevantLookup
           | Some deps =>
               paths <- filterOutCollections deps ;;
               Ok (fold_left relevantLookup_set paths relevantLookup)
           end) acc = Ok lookup
      /\ forall k, In k (JsObject.keys lookup)
                   <-> In k (JsObject.keys acc)
                       \/ (k <> "__proto__"
                           /\ exists n x, In n ns0 /\ x <> n
                                          /\ reaches (outgoingEdges (map s)) n x
                                          /\ layout_node (map s) x = false
                                          /\ plain_node x = true
                                          /\ name_to_string x = k)).
  { induction paths as [|p paths IH]; intros ns0 acc Hm; cbn [forOf mapM] in *.
    - injection Hm as <-. exists acc. split; [reflexivity|].
      intros k. split; [auto | intros [H|(_ & n & x & [] & _)]; exact H].
    - apply bind_Ok in Hm. destruct Hm as (n & Hn & Hm).
      apply bind_Ok in Hm. destruct Hm as (ns1 & Hns1 & Hm). injection Hm as <-.
      apply bind_Ok in Hn. destruct Hn as (p' & Hp' & Hn).
      rewrite Hp'. cbn [bind].
      destruct (DepGraph.hasNode (map s) n) eqn:Hnode.
      + destruct (getDependencies_spec s p' n false W Hcirc Hn Hnode) as (deps & Ed & _ & Hd).
        rewrite Ed. cbn [bind].
        rewrite filterOutCollections_spec.
        2:{ apply (nodes_are_some (map s)); [exact Hnone|].
            intros x Hx. apply Hd in Hx. destruct Hx as (_ & Hr & _).
            exact (proj2 (reaches_nodes _ _ _ W Hr)). }
        cbn [bind].
        destruct (IH ns1 (fold_left relevantLookup_set (filter plain_node deps) acc) Hns1)
          as (lookup & El & Hl).
        exists lookup. split; [exact El|].
        intros k. rewrite Hl, keys_marked. split.
        * intros [[H|(Hk & x & Hx & <-)]|(Hk & n' & x & Hn' & H)]; auto.
          -- right. split; [exact Hk|]. apply filter_In in Hx. destruct Hx as [Hx Hplain].
             apply Hd in Hx. destruct Hx as (Hne & Hr & Hlay). simpl in Hlay.
             apply negb_true_iff in Hlay.
             exists n, x. simpl. auto 10.
          -- right. split; [exact Hk|]. exists n', x. simpl. tauto.
        * intros [H|(Hk & n' & x & [<-|Hn'] & Hne & Hr & Hlay & Hplain & <-)]; auto.
          -- left. right. split; [exact Hk|]. exists x. split; [|reflexivity].
             apply filter_In. split; [|exact Hplain]. apply Hd. simpl.
             rewrite Hlay. auto.
          -- right. split; [exact Hk|]. exists n', x. auto 10.
      + rewrite (getDependencies_unknown s p' n false Hn Hnode). cbn [bind].
        destruct (IH ns1 acc Hns1) as (lookup & El & Hl).
        exists lookup. split; [exact El|].
        intros k. rewrite Hl. split.
        * intros [H|(Hk & n' & x & Hn' & H)]; auto.
          right. split; [exact Hk|]. exists n', x. simpl. tauto.
        * intros [H|(Hk & n' & x & [<-|Hn'] & Hne & Hr & H)]; auto.
          -- apply (reaches_nodes _ _ _ W) in Hr. destruct Hr. congruence.
          -- right. split; [exact Hk|]. exists n', x. auto. }
  destruct (G templatePaths ns [] Hpaths) as (lookup & El & Hl).
  rewrite El. cbn [bind]. eexists. split; [reflexivity|]. split.
  - apply NoDup_filter, NoDup_filter, NoDup_filter, NDo.
  - intros x. rewrite !filter_In, Ho, relevantLookup_truthy_iff, Hl, negb_true_iff. simpl.
    split.
    + intros [[[Hx Hlay] Hplain] [[[]|(Hk & n & x' & Hn & Hne & Hr & _ & Hp' & E)]|Hproto]];
        repeat split; auto.
      right. exists n.
      assert (x' = x).
      { destruct x' as [a|], x as [b|]; simpl in *; try discriminate; congruence. }
      subst x'. auto.
    + intros (Hx & Hplain & Hlay & [Hproto|(n & Hn & Hne & Hr)]); repeat split; auto.
      destruct (String.eqb_spec (name_to_string x) "__proto__") as [E|E].
      * right. rewrite E. simpl. auto 15.
      * left. right. split; [exact E|]. exists n, x. auto 10.
Qed.

End RelevanceProperties.

Section LayoutFacts.
Import DepGraph DepGraphFacts GlobalDependencyMap GlobalDependencyMapFacts CollectionFacts.
Import Invariants WellFormed WellFormedFacts EdgeFacts MutationFacts Queries OrderFacts.
Context {host : Host}.

Lemma hasNode_removeNode g a y :
  WF g -> DepGraph.hasNode (removeNode g a) y = DepGraph.hasNode g y && negb (name_eqb y a).
Proof.
  intros W. unfold removeNode. destruct (DepGraph.hasNode g a) eqn:Ha.
  - unfold DepGraph.hasNode, JsMap.has. simpl. rewrite get_delete by apply W.
    destruct (name_eqb y a); [rewrite andb_false_r | rewrite andb_true_r]; reflexivity.
  - name_cases y a; [rewrite Ha | rewrite andb_true_r]; reflexivity.
Qed.

Lemma get_removeNode g a y :
  WF g -> y <> a -> JsMap.get y (nodes (removeNode g a)) = JsMap.get y (nodes g).
Proof.
  intros W Hy. unfold removeNode. destruct (DepGraph.hasNode g a); [|reflexivity].
  simpl. rewrite get_delete by apply W. rewrite name_eqb_neq by exact Hy. reflexivity.
Qed.

Lemma layout_node_get g g' y :
  JsMap.get y (nodes g') = JsMap.get y (nodes g) -> layout_node g' y = layout_node g y.
Proof. unfold layout_node. intros ->. reflexivity. Qed.

Lemma layout_node_hasNode g y : layout_node g y = true -> DepGraph.hasNode g y = true.
Proof.
  unfold layout_node, DepGraph.hasNode, JsMap.has.
  destruct (JsMap.get y (nodes g)); [reflexivity | discriminate].
Qed.

(** The loop of [removeLayoutNodes] over nodes that are listed once. *)
Lemma remove_loop_spec (normalizedLayouts : list (string * list name)) (l : list name) :
  NoDup l ->
  forall g g',
    WF g ->
    forOf l (fun g node =>
               data <- DepGraph.getNodeData g node ;;
               if negb (is_layout_data data) then Ok g
               else if negb (layouts_lookup_truthy normalizedLayouts node)
                    then Ok (DepGraph.removeNode g node)
                    else Ok g) g = Ok g' ->
    WF g' /\ circular g' = circular g
    /\ (forall y, DepGraph.hasNode g' y = true
                  <-> DepGraph.hasNode g y = true
                      /\ ~ (In y l /\ layout_node g y = true
                            /\ layouts_lookup_truthy normalizedLayouts y = false))
    /\ (forall y, DepGraph.hasNode g' y = true ->
                  JsMap.get y (nodes g') = JsMap.get y (nodes g)).
Proof.
  induction l as [|a l IH]; intros ND g g' W E; cbn [forOf] in E.
  - injection E as <-. split; [exact W|]. split; [reflexivity|]. split; [|auto].
    intros y. simpl. tauto.
  - inversion ND as [|? ? Ha ND']; subst.
    apply bind_Ok in E. destruct E as (g1 & E1 & E).
    apply bind_Ok in E1. destruct E1 as (data & Ed & E1).
    assert (Hdata : JsMap.get a (nodes g) = Some data).
    { unfold getNodeData in Ed. destruct (JsMap.get a (nodes g)); [congruence | discriminate]. }
    assert (Hlay : layout_node g a = is_layout_data data).
    { unfold layout_node. rewrite Hdata. reflexivity. }
    assert (Hna : DepGraph.hasNode g a = true) by (apply hasNode_get; eauto).
    destruct (is_layout_data data) eqn:Hl; cbn [negb] in E1.
    + destruct (layouts_lookup_truthy normalizedLayouts a) eqn:Hk; cbn [negb] in E1;
        injection E1 as <-.
      * destruct (IH ND' g g' W E) as (W' & Ci & H & D).
        split; [exact W'|]. split; [exact Ci|]. split; [|exact D].
        intros y. rewrite H. simpl. split.
        -- intros [Hy Hn]. split; [exact Hy|]. intros [[<-|Hin] [H1 H2]]; [congruence|tauto].
        -- intros [Hy Hn]. split; [exact Hy|]. tauto.
      * destruct (IH ND' _ g' (WF_removeNode g a W) E) as (W' & Ci & H & D).
        split; [exact W'|]. split; [rewrite Ci; unfold removeNode; rewrite Hna; reflexivity|].
        split.
        -- intros y. rewrite H, hasNode_removeNode by exact W.
           rewrite andb_true_iff, negb_true_iff. split.
           ++ intros [[Hy Hne] Hn]. split; [exact Hy|].
              intros [[<-|Hin] [H1 H2]]; [rewrite name_eqb_refl in Hne; discriminate|].
              apply Hn. split; [exact Hin|]. split; [|exact H2].
              rewrite (layout_node_get g); [exact H1|]. apply get_removeNode; [exact W|].
              intros ->. rewrite name_eqb_refl in Hne. discriminate.
           ++ intros [Hy Hn]. destruct (name_eqb_spec y a) as [->|Hne].
              ** exfalso. apply Hn. simpl. auto.
              ** split; [auto|]. intros [Hin [H1 H2]]. apply Hn. simpl.
                 split; [auto|]. split; [|exact H2].
                 rewrite <- (layout_node_get g (removeNode g a)); [exact H1|].
                 apply get_removeNode; assumption.
        -- intros y Hy. rewrite (D y Hy). apply get_removeNode; [exact W|].
           intros ->. apply H in Hy. destruct Hy as [Hy _].
           rewrite hasNode_removeNode, name_eqb_refl, andb_false_r in Hy by exact W.
           discriminate.
    + injection E1 as <-.
      destruct (IH ND' g g' W E) as (W' & Ci & H & D).
      split; [exact W'|]. split; [exact Ci|]. split; [|exact D].
      intros y. rewrite H. simpl. split.
      * intros [Hy Hn]. split; [exact Hy|]. intros [[<-|Hin] [H1 H2]]; [congruence|tauto].
      * intros [Hy Hn]. split; [exact Hy|]. tauto.
Qed.

(** [removeLayoutNodes] on a well-formed state whose graph allows cycles:
    the layouts that the given object does not name leave the graph, every
    other node stays as it is. *)
Lemma removeLayoutNodes_spec s normalizedLayouts s' :
  WF (map s) -> circular (map s) = true ->
  removeLayoutNodes s normalizedLayouts = Ok s' ->
  WF (map s') /\ circular (map s') = true
  /\ (forall y, DepGraph.hasNode (map s') y = true
                <-> DepGraph.hasNode (map s) y = true
                    /\ ~ (layout_node (map s) y = true
                          /\ layouts_lookup_truthy normalizedLayouts y = false))
  /\ (forall y, DepGraph.hasNode (map s') y = true ->
                JsMap.get y (nodes (map s')) = JsMap.get y (nodes (map s))).
Proof.
  intros W Hcirc E. unfold removeLayoutNodes in E.
  destruct (overallOrder_spec (map s) W Hcirc) as (order & Eo & ND & Ho & _).
  rewrite Eo in E. cbn [bind] in E.
  apply bind_Ok in E. destruct E as (g' & Eg & E). injection E as <-.
  rewrite map_set_map.
  destruct (remove_loop_spec normalizedLayouts order ND (map s) g' W Eg) as (W' & Ci & H & D).
  split; [exact W'|]. split; [congruence|]. split; [|exact D].
  intros y. rewrite H, Ho. split.
  - intros [Hy Hn]. split; [exact Hy|]. tauto.
  - intros [Hy Hn]. split; [exact Hy|]. tauto.
Qed.

Lemma layout_node_addNode g n d y :
  DepGraph.hasNode g y = true ->
  layout_node (DepGraph.addNode g n d) y = layout_node g y.
Proof.
  intros Hy. apply hasNode_get in Hy. destruct Hy as [x Hx].
  unfold layout_node. rewrite Hx, (nodes_addNode g n d y x Hx). reflexivity.
Qed.

Lemma not_layout_extends s s' x :
  extends s s' -> layout_node (map s) x = false -> layout_node (map s') x = false.
Proof.
  intros X Hx. destruct (DepGraph.hasNode (map s) x) eqn:Hn.
  - rewrite (layout_node_extends s s' x X Hn). exact Hx.
  - destruct (DepGraph.hasNode (map s') x) eqn:Hn'.
    + unfold layout_node. rewrite (ext_new _ _ X x Hn Hn'). destruct x; reflexivity.
    + unfold layout_node. unfold DepGraph.hasNode, JsMap.has in Hn'.
      destruct (JsMap.get x (nodes (map s'))); [discriminate | reflexivity].
Qed.

Lemma layout_extends s s' x :
  extends s s' -> layout_node (map s) x = true -> layout_node (map s') x = true.
Proof.
  intros X Hx. rewrite (layout_node_extends s s' x X); [exact Hx|].
  apply layout_node_hasNode, Hx.
Qed.

(** A loop of steps that return, keep the graph well-formed and extend the
    state returns, and keeps the nodes, the layouts and the nodes that are
    no layouts. *)
Lemma extending_loop {A : Type}
      (f : GlobalDependencyMap.t -> A -> result GlobalDependencyMap.t) (l : list A) :
  (forall s a, WF (map s) -> exists s', f s a = Ok s' /\ WF (map s') /\ extends s s') ->
  forall s,
    WF (map s) ->
    exists s', forOf l f s = Ok s'
      /\ WF (map s') /\ extends s s'.
Proof.
  intros Hf. induction l as [|x l IH]; intros s W; cbn [forOf].
  - exists s. split; [reflexivity|]. split; [exact W|]. apply extends_refl, W.
  - destruct (Hf s x W) as (s1 & E1 & W1 & X1). rewrite E1. cbn [bind].
    destruct (IH s1 W1) as (s' & E & W' & X).
    exists s'. split; [exact E|]. split; [exact W'|]. eapply extends_trans; eauto.
Qed.

Lemma normalizeNode_string_total (p : string) : exists n, normalizeNode (JSString p) = Ok n.
Proof. unfold normalizeNode. destruct (truthy (JSString p)); simpl; eauto. Qed.

Lemma normalizeNode_of_name_total (n : name) : exists n', normalizeNode (of_name n) = Ok n'.
Proof. destruct n as [p|]; [apply normalizeNode_string_total | exists None; reflexivity]. Qed.

Lemma mapM_normalizeNode_strings (l : list jsval) :
  forallb is_string l = true -> exists ns, mapM normalizeNode l = Ok ns.
Proof.
  induction l as [|v l IH]; intros H; simpl in H; [exists []; reflexivity|].
  apply andb_true_iff in H. destruct H as [Hv Hl]. destruct (IH Hl) as [ns E].
  destruct v; try discriminate. cbn [mapM]. rewrite E.
  destruct (normalizeNode_string_total s) as [n ->]. simpl. eauto.
Qed.

Lemma addDependency_returns (s : GlobalDependencyMap.t) (from : jsval) (toArray : list jsval) :
  WF (map s) ->
  (exists f, normalizeNode from = Ok f) -> (exists ts, mapM normalizeNode toArray = Ok ts) ->
  exists s', addDependency s from toArray = Ok s' /\ WF (map s') /\ extends s s'.
Proof.
  intros W [f Hf] [ts Hts].
  destruct (addDependency__spec s f ts W) as (s' & E & X & W' & _).
  exists s'. split; [|auto]. unfold addDependency. rewrite Hf, Hts. exact E.
Qed.

(** One iteration of the loop of [addLayoutsToMap]: the layout is marked,
    and nothing else becomes or ceases to be a layout. *)
Lemma layout_iteration s (kv : string * list name) :
  WF (map s) ->
  (forall files esm, forallb is_string (JavaScriptDependencies_getDependencies files esm) = true) ->
  exists s',
    (let '(layout, pageTemplates) := kv in
     let data := DObject [("type", LAYOUT_KEY)] in
     g <- (if negb (DepGraph.hasNode (map s) (Some layout))
           then Ok (DepGraph.addNode (map s) (Some layout) (Some data))
           else DepGraph.setNodeData (map s) (Some layout) data) ;;
     s <- forOf pageTemplates
            (fun s pageTemplate => addDependency s (of_name pageTemplate) [JSString layout])
            (set_map s g) ;;
     if spidersJavaScriptDependencies s
     then addDependency s (JSString layout)
            (JavaScriptDependencies_getDependencies [layout] (isEsm s))
     else Ok s) = Ok s'
    /\ WF (map s') /\ config s' = config s
    /\ circular (map s') = circular (map s)
    /\ layout_node (map s') (Some (fst kv)) = true
    /\ (forall y, DepGraph.hasNode (map s) y = true -> DepGraph.hasNode (map s') y = true)
    /\ (forall y, layout_node (map s) y = true -> layout_node (map s') y = true)
    /\ (forall y, y <> Some (fst kv) -> layout_node (map s) y = false ->
                  layout_node (map s') y = false).
Proof.
  intros W Hspider. destruct kv as [layout pageTemplates]. cbv zeta. cbn [fst].
  set (data := DObject [("type", LAYOUT_KEY)]).
  assert (G : exists g,
             (if negb (DepGraph.hasNode (map s) (Some layout))
              then Ok (DepGraph.addNode (map s) (Some layout) (Some data))
              else DepGraph.setNodeData (map s) (Some layout) data) = Ok g
             /\ WF g /\ circular g = circular (map s)
             /\ JsMap.get (Some layout) (nodes g) = Some data
             /\ (forall y, DepGraph.hasNode (map s) y = true -> DepGraph.hasNode g y = true)
             /\ (forall y, y <> Some layout ->
                           JsMap.get y (nodes g) = JsMap.get y (nodes (map s)))).
  { destruct (DepGraph.hasNode (map s) (Some layout)) eqn:Hn; cbn [negb].
    - destruct (setNodeData_ok (map s) (Some layout) data (wf_consistent _ W) Hn)
        as (g & Eg & C & O & I & Ci & H & N & R); [discriminate|].
      exists g. split; [exact Eg|].
      apply WF_setNodeData in Eg; [|exact W | discriminate].
      split; [apply Eg|]. split; [exact Ci|]. split; [exact N|].
      split; [intros y Hy; rewrite H; exact Hy | exact R].
    - eexists. split; [reflexivity|].
      split; [apply WF_addNode; [exact W | reflexivity]|].
      split; [apply circular_addNode|]. split; [|split].
      + unfold DepGraph.addNode. rewrite Hn. simpl. apply JsMapFacts.get_set_same.
      + intros y Hy. rewrite hasNode_addNode, Hy. reflexivity.
      + intros y Hy. unfold DepGraph.addNode. rewrite Hn. simpl.
        apply JsMapFacts.get_set_other. exact Hy. }
  destruct G as (g & Eg & Wg & Cg & Ng & Hg & Rg). rewrite Eg. cbn [bind].
  destruct (extending_loop
              (fun s pageTemplate => addDependency s (of_name pageTemplate) [JSString layout])
              pageTemplates) with (s := set_map s g) as (s1 & E1 & W1 & X1).
  { intros s0 pt W0. apply addDependency_returns; [exact W0 | |].
    - apply normalizeNode_of_name_total.
    - destruct (normalizeNode_string_total layout) as [n Hn].
      exists [n]. cbn [mapM]. rewrite Hn. reflexivity. }
  { exact Wg. }
  rewrite E1. cbn [bind].
  assert (G2 : exists s',
             (if spidersJavaScriptDependencies s1
              then addDependency s1 (JSString layout)
                     (JavaScriptDependencies_getDependencies [layout] (isEsm s1))
              else Ok s1) = Ok s'
             /\ WF (map s') /\ extends s1 s').
  { destruct (spidersJavaScriptDependencies s1).
    - apply addDependency_returns; [exact W1 | apply normalizeNode_string_total|].
      apply mapM_normalizeNode_strings, Hspider.
    - exists s1. split; [reflexivity|]. split; [exact W1|]. apply extends_refl, W1. }
  destruct G2 as (s' & E' & W' & X'). rewrite E'.
  exists s'. split; [reflexivity|]. split; [exact W'|].
  pose proof (extends_trans _ _ _ X1 X') as X.
  split; [rewrite (ext_config _ _ X); apply config_set_map|].
  split; [rewrite (ext_circular _ _ X); exact Cg|].
  assert (Hlg : forall y, y <> Some layout ->
                          layout_node g y = layout_node (map s) y).
  { intros y Hy. apply layout_node_get, Rg, Hy. }
  assert (Hlay : layout_node g (Some layout) = true).
  { unfold layout_node. rewrite Ng. reflexivity. }
  split; [|split; [|split]].
  - apply (layout_extends _ _ _ X). exact Hlay.
  - intros y Hy. apply (ext_nodes _ _ X). apply Hg, Hy.
  - intros y Hy. apply (layout_extends _ _ _ X).
    change (layout_node g y = true).
    destruct (name_eqb_spec y (Some layout)) as [->|Hne]; [exact Hlay|].
    rewrite Hlg by exact Hne. exact Hy.
  - intros y Hne Hy. apply (not_layout_extends _ _ _ X).
    change (layout_node g y = false). rewrite Hlg by exact Hne. exact Hy.
Qed.

(** The loop of [addLayoutsToMap]. *)
Lemma layouts_loop_spec (normalizedLayouts : list (string * list name)) :
  (forall files esm, forallb is_string (JavaScriptDependencies_getDependencies files esm) = true) ->
  forall s,
    WF (map s) ->
    exists s',
      forOf normalizedLayouts
        (fun s kv =>
           let '(layout, pageTemplates) := kv in
           let data := DObject [("type", LAYOUT_KEY)] in
           g <- (if negb (DepGraph.hasNode (map s) (Some layout))
                 then Ok (DepGraph.addNode (map s) (Some layout) (Some data))
                 else DepGraph.setNodeData (map s) (Some layout) data) ;;
           s <- forOf pageTemplates
                  (fun s pageTemplate =>
                     addDependency s (of_name pageTemplate) [JSString layout])
                  (set_map s g) ;;
           if spidersJavaScriptDependencies s
           then addDependency s (JSString layout)
                  (JavaScriptDependencies_getDependencies [layout] (isEsm s))
           else Ok s) s = Ok s'
      /\ WF (map s') /\ config s' = config s
      /\ circular (map s') = circular (map s)
      /\ (forall layout, In layout (JsObject.keys normalizedLayouts) ->
                         layout_node (map s') (Some layout) = true)
      /\ (forall y, DepGraph.hasNode (map s) y = true -> DepGraph.hasNode (map s') y = true)
      /\ (forall y, layout_node (map s) y = true -> layout_node (map s') y = true)
      /\ (forall y, (forall layout, In layout (JsObject.keys normalizedLayouts) ->
                                    y <> Some layout) ->
                    layout_node (map s) y = false -> layout_node (map s') y = false).
Proof.
  intros Hspider. induction normalizedLayouts as [|kv nl IH]; intros s W.
  - exists s. split; [reflexivity|]. split; [exact W|]. split; [reflexivity|].
    split; [reflexivity|]. split; [intros layout []|]. auto.
  - destruct (layout_iteration s kv W Hspider) as (s1 & E1 & W1 & C1 & Ci1 & L1 & H1 & K1 & N1).
    match goal with
    | |- context [forOf (kv :: nl) ?f0 s] => set (f := f0) in *
    end.
    assert (E1' : f s kv = Ok s1) by exact E1.
    cbn [forOf]. rewrite E1'. cbn [bind].
    destruct (IH s1 W1) as (s' & E & W' & C & Ci & L & H & K & N).
    exists s'. split; [exact E|]. split; [exact W'|]. split; [congruence|].
    split; [congruence|]. split; [|split; [|split]].
    + intros layout [<-|Hin]; [apply K, L1 | apply L, Hin].
    + intros y Hy. apply H, H1, Hy.
    + intros y Hy. apply K, K1, Hy.
    + intros y Hy Hl. apply N.
      * intros layout Hin. apply Hy. simpl. auto.
      * apply N1; [apply Hy; simpl; auto | exact Hl].
Qed.

(** The loop of [removeLayoutNodes] returns when the nodes it is given are
    nodes of the graph, each listed once. *)
Lemma remove_loop_returns (normalizedLayouts : list (string * list name)) (l : list name) :
  NoDup l ->
  forall g,
    WF g -> (forall y, In y l -> DepGraph.hasNode g y = true) ->
    exists g',
      forOf l (fun g node =>
                 data <- DepGraph.getNodeData g node ;;
                 if negb (is_layout_data data) then Ok g
                 else if negb (layouts_lookup_truthy normalizedLayouts node)
                      then Ok (DepGraph.removeNode g node)
                      else Ok g) g = Ok g'.
Proof.
  induction l as [|a l IH]; intros ND g W H; cbn [forOf]; [eauto|].
  inversion ND as [|? ? Ha ND']; subst.
  destruct (getNodeData_layout g a) as (d & Ed & _); [apply H; simpl; auto|].
  rewrite Ed. cbn [bind].
  assert (Hl : forall y, In y l -> DepGraph.hasNode g y = true) by (intros; apply H; simpl; auto).
  destruct (negb (is_layout_data d)); cbn [bind]; [apply IH; auto|].
  destruct (negb (layouts_lookup_truthy normalizedLayouts a)); cbn [bind]; [|apply IH; auto].
  apply IH; [exact ND' | apply WF_removeNode, W|].
  intros y Hy. rewrite hasNode_removeNode by exact W. rewrite (Hl y Hy).
  rewrite name_eqb_neq; [reflexivity|]. intros ->. contradiction.
Qed.

End LayoutFacts.

Section LayoutProperties.
Import DepGraph DepGraphFacts GlobalDependencyMap GlobalDependencyMapFacts.
Import Invariants WellFormed WellFormedFacts EdgeFacts MutationFacts Queries OrderFacts JsObjectFacts LookupFacts.
Context {host : Host}.

(** X19. The layouts after [addLayoutsToMap]. On a well-formed state whose
    graph allows cycles, when the import spider returns strings and the
    layouts object normalizes, [addLayoutsToMap(layouts)] returns, and
    afterwards: every key of the normalized object is a node of type
    "layout"; a layout of before that the object names (or that has the
    name of a member of [Object.prototype]) is still a layout; a layout of
    before that it does not name is no layout any more; and every node of
    before that was no layout is still a node. *)
Theorem addLayoutsToMap_updates_the_layouts
    (s : GlobalDependencyMap.t) (layouts : list (string * list jsval))
    (normalizedLayouts : list (string * list name)) :
  wellFormed (map s) = true -> circular (map s) = true ->
  (forall files esm,
      forallb is_string (JavaScriptDependencies_getDependencies files esm) = true) ->
  normalizeLayoutsObject layouts = Ok normalizedLayouts ->
  exists s', addLayoutsToMap s layouts = Ok s'
    /\ (forall layout, In layout (JsObject.keys normalizedLayouts) ->
                       layout_node (map s') (Some layout) = true)
    /\ (forall y, layout_node (map s) y = true ->
                  layouts_lookup_truthy normalizedLayouts y = true ->
                  layout_node (map s') y = true)
    /\ (forall y, layout_node (map s) y = true ->
                  layouts_lookup_truthy normalizedLayouts y = false ->
                  layout_node (map s') y = false)
    /\ (forall y, DepGraph.hasNode (map s) y = true -> layout_node (map s) y = false ->
                  DepGraph.hasNode (map s') y = true).
Proof.
  intros W Hcirc Hspider Hnl. apply wellFormed_iff in W.
  unfold addLayoutsToMap. rewrite Hnl. cbn [bind].
  assert (R : exists s1, removeLayoutNodes s normalizedLayouts = Ok s1).
  { unfold removeLayoutNodes.
    destruct (overallOrder_spec (map s) W Hcirc) as (order & Eo & ND & Ho & _).
    rewrite Eo. cbn [bind].
    destruct (remove_loop_returns normalizedLayouts order ND (map s) W) as [g' Eg].
    { intros y Hy. apply Ho, Hy. }
    rewrite Eg. cbn [bind]. eauto. }
  destruct R as [s1 E1]. rewrite E1. cbn [bind].
  destruct (removeLayoutNodes_spec s normalizedLayouts s1 W Hcirc E1) as (W1 & C1 & H1 & D1).
  destruct (layouts_loop_spec normalizedLayouts Hspider s1 W1)
    as (s' & E & W' & C & Ci & L & H & K & N).
  exists s'. split; [exact E|]. split; [exact L|]. split; [|split].
  - intros y Hy Hk. apply K.
    assert (Hn1 : DepGraph.hasNode (map s1) y = true).
    { apply H1. split; [apply layout_node_hasNode, Hy|]. intros [_ Hf]. congruence. }
    rewrite (layout_node_get (map s)); [exact Hy | apply D1, Hn1].
  - intros y Hy Hk. apply N.
    + intros layout Hin ->.
      unfold layouts_lookup_truthy in Hk. apply orb_false_iff in Hk. destruct Hk as [Hk _].
      apply object_has_keys in Hin. simpl in Hk. congruence.
    + destruct (DepGraph.hasNode (map s1) y) eqn:Hn1.
      * apply H1 in Hn1. destruct Hn1 as [_ Hn1]. exfalso. auto.
      * unfold layout_node. unfold DepGraph.hasNode, JsMap.has in Hn1.
        destruct (JsMap.get y (nodes (map s1))); [discriminate | reflexivity].
  - intros y Hy Hl. apply H, H1. split; [exact Hy|]. intros [Hf _]. congruence.
Qed.

End LayoutProperties.

Section ResetFacts.
Import DepGraph DepGraphFacts GlobalDependencyMap GlobalDependencyMapFacts CollectionFacts.
Import Invariants ReachabilityFacts WellFormed WellFormedFacts EdgeFacts MutationFacts.
Context {host : Host}.

(** The loop of [resetNode], edge by edge. *)
Lemma reset_loop_exact (n : name) (l : list name) :
  forall s,
    WF (map s) -> DepGraph.hasNode (map s) n = true ->
    exists s', forOf l (remove_one n) s = Ok s'
      /\ WF (map s')
      /\ nodes (map s') = nodes (map s)
      /\ (forall k, outs s' k
                    = if name_eqb k n
                      then fold_left (fun m b => JsArray.remove_first name_eqb b m) l (outs s n)
                      else outs s k)
      /\ (forall k x, In x (ins s' k) <-> In x (ins s k) /\ ~ (x = n /\ In k l)).
Proof.
  induction l as [|dep l IH]; intros s W Hn; cbn [forOf fold_left].
  - exists s. split; [reflexivity|]. split; [exact W|]. split; [reflexivity|]. split.
    + intros k. name_cases k n; reflexivity.
    + intros k x. simpl. tauto.
  - unfold remove_one at 1.
    destruct (removeDependency_spec (map s) n dep (wf_consistent _ W) Hn)
      as (g' & Eg & C & N & Ci & O & I).
    destruct (WF_removeDependency (map s) n dep W Hn) as (g'' & Eg' & W' & _).
    assert (g'' = g') by congruence. subst g''.
    rewrite Eg. cbn [bind].
    destruct (IH (set_map s g')) as (s' & E & W2 & N2 & O2 & I2).
    + exact W'.
    + rewrite map_set_map. unfold DepGraph.hasNode. rewrite N. exact Hn.
    + exists s'. split; [exact E|]. split; [exact W2|].
      split; [rewrite N2, map_set_map; exact N|]. split.
      * intros k. rewrite O2. unfold outs. rewrite map_set_map, !O, name_eqb_refl.
        destruct (name_eqb k n); reflexivity.
      * intros k x. rewrite I2. unfold ins. rewrite map_set_map, I.
        destruct (name_eqb_spec k dep) as [->|Hk].
        -- rewrite In_remove_first_NoDup by apply W. simpl. intuition congruence.
        -- simpl. intuition congruence.
Qed.

End ResetFacts.

Section LifecycleProperties.
Import DepGraph DepGraphFacts GlobalDependencyMap GlobalDependencyMapFacts CollectionFacts.
Import NodeDataFacts Invariants ReachabilityFacts WellFormed WellFormedFacts EdgeFacts MutationFacts.
Context {host : Host}.

(** X20. What [resetNode] removes. On a well-formed state, for a node of
    the graph, [resetNode(node)] returns; afterwards the graph has the
    nodes and the node data of before, and its edges are those of before
    that do not start at the node: every dependency of the node is gone,
    in both directions, and no other edge is touched. *)
Theorem resetNode_removes_exactly_the_outgoing_edges
    (s : GlobalDependencyMap.t) (node : jsval) (n : name) :
  wellFormed (map s) = true ->
  normalizeNode node = Ok n -> DepGraph.hasNode (map s) n = true ->
  exists s', resetNode s node = Ok s'
    /\ nodes (map s') = nodes (map s)
    /\ forall a b, DepGraph.has_edge (map s') a b = true
                   <-> DepGraph.has_edge (map s) a b = true /\ a <> n.
Proof.
  intros W Hnorm Hn. apply wellFormed_iff in W.
  unfold resetNode. rewrite Hnorm. cbn [bind]. rewrite Hn. cbn [negb].
  unfold DepGraph.directDependenciesOf. rewrite Hn.
  rewrite edges_of_has by (rewrite has_outgoing; [exact Hn | apply W]). cbn [bind].
  destruct (reset_loop_exact n (outs s n) s W Hn) as (s' & E & W' & N & O & I).
  exists s'. split; [exact E|]. split; [exact N|].
  intros a b. rewrite !has_edge_In.
  fold (outs s' a) (ins s' b) (outs s a) (ins s b). rewrite O, I.
  pose proof (wf_mirror _ W a b) as M. fold (outs s a) (ins s b) in M.
  destruct (name_eqb_spec a n) as [->|Ha].
  - rewrite JsArrayFacts.remove_each. simpl. tauto.
  - tauto.
Qed.

(** X21. Registering edges to collections needs the collection names. On
    a consistent state that was given neither a template configuration nor
    collection names, [addDependencyConsumesCollection] and
    [addDependencyPublishesToCollection] throw a [TypeError] for every
    [from] that normalizes. *)
Theorem collection_edges_need_the_collection_names
    (s : GlobalDependencyMap.t) (from : jsval) (n : name) (collectionName : string) :
  DepGraph.consistent (map s) = true ->
  templateConfig s = None -> cachedUserConfigurationCollectionApiNames s = None ->
  normalizeNode from = Ok n ->
  addDependencyConsumesCollection s from collectionName
  = Throw (TypeError "Cannot read properties of undefined (reading 'userConfig')")
  /\ addDependencyPublishesToCollection s from collectionName
     = Throw (TypeError "Cannot read properties of undefined (reading 'userConfig')").
Proof.
  intros Hc Ht Hn Hnorm.
  assert (Hnames : forall s', config s' = config s ->
             isUserConfigCollectionName s' collectionName
             = Throw (TypeError "Cannot read properties of undefined (reading 'userConfig')")).
  { intros s' Hs'. unfold isUserConfigCollectionName.
    rewrite (names_of_config s s' Hs'). unfold userConfigurationCollectionApiNames.
    rewrite Hn, Ht. reflexivity. }
  split.
  - unfold addDependencyConsumesCollection. rewrite Hnorm. cbn [bind].
    destruct (addDependency__single s n (Some (getCollectionKeyForEntry collectionName)) Hc)
      as (s1 & E1 & A1).
    rewrite E1. cbn [bind]. rewrite Hnames by apply A1. reflexivity.
  - unfold addDependencyPublishesToCollection. rewrite Hnorm. cbn [bind].
    destruct (addDependency__single s (Some (getCollectionKeyForEntry collectionName)) n Hc)
      as (s1 & E1 & A1).
    destruct (isConfigurationApiConsumer_total s n) as [consumer Econs].
    cbv zeta.
    destruct (String.eqb collectionName SPECIAL_ALL_COLLECTION_NAME).
    + rewrite Econs. cbn [bind]. destruct consumer; cbn [bind].
      * rewrite Hnames by reflexivity. reflexivity.
      * rewrite E1. cbn [bind]. rewrite Hnames by apply A1. reflexivity.
    + rewrite E1. cbn [bind]. rewrite Hnames by apply A1. reflexivity.
Qed.

(** X22. [findCollectionsRemovedFrom] of a falsy node. For a falsy node
    the operation returns the empty set when the graph has no node
    [undefined], and throws a [TypeError] when it has one: the dependants
    are then a [Set], which has no [map]. *)
Theorem findCollectionsRemovedFrom_of_a_falsy_node
    (s : GlobalDependencyMap.t) (node : jsval) (collectionNames : list string) :
  truthy node = false ->
  if DepGraph.hasNode (map s) None
  then exists msg, findCollectionsRemovedFrom s node collectionNames = Throw (TypeError msg)
  else findCollectionsRemovedFrom s node collectionNames = Ok [].
Proof.
  intros Hfalsy. unfold findCollectionsRemovedFrom, hasNode, getDependantsFor.
  unfold normalizeNode. rewrite Hfalsy. cbn [negb bind].
  destruct (DepGraph.hasNode (map s) None); [eexists|]; reflexivity.
Qed.

Lemma get_replace_same (k v : string) (props : list (string * string)) :
  JsObject.has k props = true -> JsObject.get k (JsObject.replace k v props) = Some v.
Proof.
  unfold JsObject.has. induction props as [|[k' x] props IH]; cbn [JsObject.get JsObject.replace].
  - discriminate.
  - destruct (String.eqb_spec k k') as [<-|E]; cbn [JsObject.get].
    + rewrite String.eqb_refl. reflexivity.
    + rewrite (proj2 (String.eqb_neq _ _) E). exact IH.
Qed.

Lemma get_app_same (k v : string) (props : list (string * string)) :
  JsObject.has k props = false -> JsObject.get k (props ++ [(k, v)]) = Some v.
Proof.
  unfold JsObject.has. induction props as [|[k' x] props IH]; cbn [JsObject.get app].
  - rewrite String.eqb_refl. reflexivity.
  - destruct (String.eqb k k'); [discriminate | exact IH].
Qed.

Lemma Object_assign_consumes (d d' : nodedata) (v : string) :
  Object_assign d [("consumes", v)] = Ok d' -> data_prop "consumes" d' = Some v.
Proof.
  assert (G : forall props, JsObject.get "consumes" (JsObject.set "consumes" v props) = Some v).
  { intros props. unfold JsObject.set.
    destruct (JsObject.has "consumes" props) eqn:Hh.
    - apply get_replace_same, Hh.
    - apply get_app_same, Hh. }
  destruct d; simpl; intros [= <-]; simpl; first [reflexivity | apply G].
Qed.

(** X23. The consumer mark at work. On a consistent state, after
    [addDependencyConsumesCollection(from, name)] for a configuration-API
    collection, [from] is a recorded configuration-API consumer, and a
    following [addDependencyPublishesToCollection(from, "all")] adds no
    edge from the entry of "all" to [from]. *)
Theorem consuming_then_publishing_to_all
    (s : GlobalDependencyMap.t) (from : jsval) (n : string) (names : list string)
    (collectionName : string) :
  DepGraph.consistent (map s) = true ->
  userConfigurationCollectionApiNames s = Ok names ->
  JsArray.includes String.eqb collectionName names = true ->
  normalizeNode from = Ok (Some n) ->
  exists s1,
    addDependencyConsumesCollection s from collectionName = Ok s1
    /\ isConfigurationApiConsumer s1 (Some n) = Ok true
    /\ exists s2,
         addDependencyPublishesToCollection s1 from SPECIAL_ALL_COLLECTION_NAME = Ok s2
         /\ DepGraph.has_edge (map s2)
              (Some (getCollectionKeyForEntry SPECIAL_ALL_COLLECTION_NAME)) (Some n)
            = DepGraph.has_edge (map s1)
                (Some (getCollectionKeyForEntry SPECIAL_ALL_COLLECTION_NAME)) (Some n).
Proof.
  intros Hc Hnames Hin Hnorm.
  assert (G : exists s1,
             addDependencyConsumesCollection s from collectionName = Ok s1
             /\ DepGraph.consistent (map s1) = true
             /\ config s1 = config s
             /\ isConfigurationApiConsumer s1 (Some n) = Ok true).
  { unfold addDependencyConsumesCollection. rewrite Hnorm. cbn [bind].
    destruct (addDependency__single s (Some n)
                (Some (getCollectionKeyForEntry collectionName)) Hc) as (sa & Ea & Aa).
    rewrite Ea. cbn [bind].
    pose proof (add_extends _ _ _ _ Aa) as Xa.
    assert (Na : userConfigurationCollectionApiNames sa = Ok names).
    { rewrite (names_of_config s sa (ext_config _ _ Xa)). exact Hnames. }
    rewrite (isUserConfigCollectionName_ok sa names collectionName Na), Hin. cbn [bind].
    assert (Hna : DepGraph.hasNode (map sa) (Some n) = true).
    { rewrite (add_has _ _ _ _ Aa), name_eqb_refl. apply orb_true_iff. left.
      apply orb_true_r. }
    apply hasNode_get in Hna. destruct Hna as [d Hd].
    destruct (mergeNodeData__ok sa n d [("consumes", CONFIGAPI_DATA_KEY)]
                (ext_consistent _ _ Xa) Hd) as (d' & sb & Ed' & Eb & Mb).
    rewrite Eb. cbn [bind].
    assert (Cb : isConfigurationApiConsumer sb (Some n) = Ok true).
    { unfold isConfigurationApiConsumer, getNodeData.
      rewrite (mrg_has _ _ _ _ _ Mb), (proj2 (hasNode_get _ _) (ex_intro _ d Hd)).
      cbn [negb]. rewrite (mrg_node _ _ _ _ _ Mb). cbn [bind].
      rewrite (Object_assign_consumes _ _ _ Ed'), String.eqb_refl. reflexivity. }
    assert (Nb : userConfigurationCollectionApiNames sb = Ok names).
    { rewrite (names_of_config sa sb (mrg_config _ _ _ _ _ Mb)). exact Na. }
    assert (K : forall a b,
               exists s1, addDependency_ sb a [b] = Ok s1
                 /\ DepGraph.consistent (map s1) = true
                 /\ config s1 = config s
                 /\ isConfigurationApiConsumer s1 (Some n) = Ok true).
    { intros a b.
      destruct (addDependency__single sb a b (mrg_consistent _ _ _ _ _ Mb)) as (sc & Ec & Ac).
      pose proof (add_extends _ _ _ _ Ac) as Xc.
      exists sc. split; [exact Ec|]. split; [apply Xc|]. split.
      - rewrite (ext_config _ _ Xc), (mrg_config _ _ _ _ _ Mb). apply Xa.
      - rewrite (consumer_extends sb sc (Some n) Xc). exact Cb. }
    destruct (String.eqb collectionName SPECIAL_KEYS_COLLECTION_NAME); [apply K|].
    destruct (String.eqb collectionName SPECIAL_ALL_COLLECTION_NAME); [apply K|].
    rewrite (isUserConfigCollectionName_ok sb names collectionName Nb), Hin. cbn [bind].
    apply K. }
  destruct G as (s1 & E1 & C1 & Cf1 & Cons1).
  exists s1. split; [exact E1|]. split; [exact Cons1|].
  assert (N1 : userConfigurationCollectionApiNames s1 = Ok names).
  { rewrite (names_of_config s s1 Cf1). exact Hnames. }
  destruct (publishes_spec s1 from (Some n) names SPECIAL_ALL_COLLECTION_NAME true
              C1 N1 Hnorm Cons1) as (s2 & E2 & _ & _ & _ & P2 & _).
  exists s2. split; [exact E2|]. apply P2. reflexivity.
Qed.

End LifecycleProperties.

(** ** The further properties at concrete inputs *)

Section FurtherWitnesses.
Import DepGraph GlobalDependencyMap Examples MoreExamples.
Import Invariants Reachability WellFormed Queries Persisted.

(** X1 at the template a.md of the linked graph. *)
Lemma getDependencies_lists_reached_nodes_witness :
  wellFormed (map linked) = true
  /\ circular (map linked) = true
  /\ @normalizeNode exampleHost (JSString "a.md") = Ok (Some "a.md")
  /\ DepGraph.hasNode (map linked) (Some "a.md") = true
  /\ exists l, @getDependencies exampleHost linked (JSString "a.md") true = Ok (Some l)
       /\ NoDup l
       /\ forall x, In x l <-> x <> Some "a.md"
                               /\ reaches (outgoingEdges (map linked)) (Some "a.md") x
                               /\ kept_dependency (map linked) true x = true.
Proof.
  split; [reflexivity|]. split; [reflexivity|]. split; [reflexivity|]. split; [reflexivity|].
  apply (@getDependencies_lists_reached_nodes exampleHost linked (JSString "a.md")
           (Some "a.md") true); reflexivity.
Defined.

(** X2 at [addDependency("a.md", ["b.md"])] on a fresh map. *)
Lemma hasDependency_after_addDependency_witness :
  wellFormed (map noApiNames) = true
  /\ circular (map noApiNames) = true
  /\ @normalizeNode exampleHost (JSString "a.md") = Ok (Some "a.md")
  /\ mapM (@normalizeNode exampleHost) [JSString "b.md"] = Ok [Some "b.md"]
  /\ exists s', @addDependency exampleHost noApiNames (JSString "a.md") [JSString "b.md"]
                = Ok s'
       /\ forall to t includeLayouts,
            In to [JSString "b.md"] -> @normalizeNode exampleHost to = Ok t ->
            t <> Some "a.md" -> name_truthy t = true -> includeLayouts <> Some false ->
            @hasDependency exampleHost s' (JSString "a.md") to includeLayouts = Ok true.
Proof.
  split; [reflexivity|]. split; [reflexivity|]. split; [reflexivity|]. split; [reflexivity|].
  apply (@hasDependency_after_addDependency exampleHost noApiNames (JSString "a.md")
           [JSString "b.md"] (Some "a.md") [Some "b.md"]); reflexivity.
Defined.

(** X3 at [addDependency("b.md", ["c.md"])] on the linked graph. *)
Lemma addDependency_keeps_dependencies_witness :
  wellFormed (map linked) = true
  /\ circular (map linked) = true
  /\ @normalizeNode exampleHost (JSString "b.md") = Ok (Some "b.md")
  /\ mapM (@normalizeNode exampleHost) [JSString "c.md"] = Ok [Some "c.md"]
  /\ exists s', @addDependency exampleHost linked (JSString "b.md") [JSString "c.md"] = Ok s'
       /\ forall a b includeLayouts,
            @hasDependency exampleHost linked a b includeLayouts = Ok true ->
            @hasDependency exampleHost s' a b includeLayouts = Ok true.
Proof.
  split; [reflexivity|]. split; [reflexivity|]. split; [reflexivity|]. split; [reflexivity|].
  apply (@addDependency_keeps_dependencies exampleHost linked (JSString "b.md")
           [JSString "c.md"] (Some "b.md") [Some "c.md"]); reflexivity.
Defined.

(** X4 at the paths a.md, b.md and c.md on the linked graph. *)
Lemma isFileRelevantTo_is_a_preorder_witness :
  wellFormed (map linked) = true
  /\ circular (map linked) = true
  /\ @normalizeNode exampleHost (JSString "a.md") = Ok (Some "a.md")
  /\ @normalizeNode exampleHost (JSString "b.md") = Ok (Some "b.md")
  /\ @normalizeNode exampleHost (JSString "c.md") = Ok (Some "c.md")
  /\ @isFileRelevantTo exampleHost linked (JSString "a.md") (JSString "a.md") None = Ok true
  /\ (@isFileRelevantTo exampleHost linked (JSString "a.md") (JSString "b.md") None = Ok true ->
      @isFileRelevantTo exampleHost linked (JSString "b.md") (JSString "c.md") None = Ok true ->
      @isFileRelevantTo exampleHost linked (JSString "a.md") (JSString "c.md") None = Ok true).
Proof.
  split; [reflexivity|]. split; [reflexivity|]. split; [reflexivity|]. split; [reflexivity|].
  split; [reflexivity|].
  apply (@isFileRelevantTo_is_a_preorder exampleHost linked "a.md" "b.md" "c.md" None);
    reflexivity.
Defined.

(** X5 at the linked graph. *)
Lemma getTemplateOrder_lists_the_nodes_witness :
  wellFormed (map linked) = true
  /\ circular (map linked) = true
  /\ DepGraph.hasNode (map linked) (Some "__collection:all,__collection:[keys]") = false
  /\ exists init,
       @getTemplateOrder linked
       = Ok (init ++ [Some (getCollectionKeyForEntry SPECIAL_ALL_COLLECTION_NAME)])
       /\ (forall k, DepGraph.hasNode (map linked) k = true ->
                     k <> Some (getCollectionKeyForEntry SPECIAL_KEYS_COLLECTION_NAME) ->
                     In k (init ++ [Some (getCollectionKeyForEntry SPECIAL_ALL_COLLECTION_NAME)]))
       /\ (forall k, In k (init ++ [Some (getCollectionKeyForEntry SPECIAL_ALL_COLLECTION_NAME)]) ->
                     DepGraph.hasNode (map linked) k = true
                     \/ k = Some (getCollectionKeyForEntry SPECIAL_ALL_COLLECTION_NAME)).
Proof.
  split; [reflexivity|]. split; [reflexivity|]. split; [reflexivity|].
  apply (getTemplateOrder_lists_the_nodes linked); reflexivity.
Defined.

(** X6 at the linked graph. *)
Lemma getTemplateOrder_puts_dependencies_first_witness :
  wellFormed (map linked) = true
  /\ circular (map linked) = true
  /\ exists order,
       @getTemplateOrder linked = Ok order
       /\ forall before n after m,
            order = before ++ n :: after ->
            has_edge (map linked) n m = true ->
            ~ reaches (outgoingEdges (map linked)) m n ->
            In m before.
Proof.
  split; [reflexivity|]. split; [reflexivity|].
  apply (getTemplateOrder_puts_dependencies_first linked); reflexivity.
Defined.

(** X7 at the layout base.html. *)
Lemma getLayoutsUsedBy_lists_dependant_layouts_witness :
  wellFormed (map withLayout) = true
  /\ circular (map withLayout) = true
  /\ @normalizeNode exampleHost (JSString "base.html") = Ok (Some "base.html")
  /\ DepGraph.hasNode (map withLayout) (Some "base.html") = true
  /\ exists l, @getLayoutsUsedBy exampleHost withLayout (JSString "base.html") = Ok l
       /\ NoDup l
       /\ forall x, In x l <-> layout_node (map withLayout) x = true
                               /\ (x = Some "base.html"
                                   \/ reaches (outgoingEdges (map withLayout)) x
                                        (Some "base.html")).
Proof.
  split; [reflexivity|]. split; [reflexivity|]. split; [reflexivity|]. split; [reflexivity|].
  apply (@getLayoutsUsedBy_lists_dependant_layouts exampleHost withLayout
           (JSString "base.html") (Some "base.html")); reflexivity.
Defined.

(** X8 at the linked graph and the collection "posts". *)
Lemma getTemplatesThatConsumeCollections_lists_consumers_witness :
  wellFormed (map linked) = true
  /\ circular (map linked) = true
  /\ DepGraph.hasNode (map linked) None = false
  /\ exists l, getTemplatesThatConsumeCollections linked ["posts"] = Ok l
       /\ NoDup l
       /\ forall x, In x l
                    <-> plain_node x = true /\ layout_node (map linked) x = false
                        /\ exists c, In c ["posts"]
                                     /\ reaches (outgoingEdges (map linked)) x
                                          (Some (getCollectionKeyForEntry c)).
Proof.
  split; [reflexivity|]. split; [reflexivity|]. split; [reflexivity|].
  apply (getTemplatesThatConsumeCollections_lists_consumers linked ["posts"]); reflexivity.
Defined.

(** X9 at the linked graph. *)
Lemma edge_creation_keeps_the_graph_well_formed_witness :
  wellFormed (map linked) = true
  /\ ((forall from toArray s',
          @addDependency exampleHost linked from toArray = Ok s' ->
          wellFormed (map s') = true)
      /\ (forall from collectionName s',
          @addDependencyConsumesCollection exampleHost linked from collectionName = Ok s' ->
          wellFormed (map s') = true)
      /\ (forall from collectionName s',
          @addDependencyPublishesToCollection exampleHost linked from collectionName = Ok s' ->
          wellFormed (map s') = true)
      /\ (forall names s',
          @addCollectionApiNames exampleHost linked names = Ok s' ->
          wellFormed (map s') = true)).
Proof.
  split; [reflexivity|].
  apply (@edge_creation_keeps_the_graph_well_formed exampleHost linked); reflexivity.
Defined.

(** X10 at the linked graph. *)
Lemma removal_keeps_the_graph_well_formed_witness :
  wellFormed (map linked) = true
  /\ ((forall node s', @resetNode exampleHost linked node = Ok s' ->
                       wellFormed (map s') = true)
      /\ (forall normalizedLayouts s',
          removeLayoutNodes linked normalizedLayouts = Ok s' -> wellFormed (map s') = true)
      /\ (forall layouts s',
          @addLayoutsToMap exampleHost linked layouts = Ok s' -> wellFormed (map s') = true)).
Proof.
  split; [reflexivity|].
  apply (@removal_keeps_the_graph_well_formed exampleHost linked); reflexivity.
Defined.

(** X11 at the linked graph, restored into a new instance. *)
Lemma restore_of_stringify_round_trip_witness :
  DepGraph.consistent (map linked) = true
  /\ persistable (map linked) = true
  /\ exists doc, stringify linked = Ok doc
       /\ exists s', restore create doc = Ok s' /\ map s' = map linked.
Proof.
  split; [reflexivity|]. split; [reflexivity|].
  apply (restore_of_stringify_round_trip create linked); reflexivity.
Defined.

(** X12 at [addDependency("a.md", ["b.md", "a.md"])] on a fresh map. *)
Lemma addDependency_adds_exactly_its_edges_witness :
  wellFormed (map noApiNames) = true
  /\ @normalizeNode exampleHost (JSString "a.md") = Ok (Some "a.md")
  /\ mapM (@normalizeNode exampleHost) [JSString "b.md"; JSString "a.md"]
     = Ok [Some "b.md"; Some "a.md"]
  /\ exists s', @addDependency exampleHost noApiNames (JSString "a.md")
                  [JSString "b.md"; JSString "a.md"] = Ok s'
       /\ (forall k, DepGraph.hasNode (map s') k = true
                     <-> DepGraph.hasNode (map noApiNames) k = true
                         \/ k = Some "a.md" \/ In k [Some "b.md"; Some "a.md"])
       /\ (forall a b, DepGraph.has_edge (map s') a b = true
                       <-> DepGraph.has_edge (map noApiNames) a b = true
                           \/ (a = Some "a.md" /\ In b [Some "b.md"; Some "a.md"]
                               /\ b <> Some "a.md")).
Proof.
  split; [reflexivity|]. split; [reflexivity|]. split; [reflexivity|].
  apply (@addDependency_adds_exactly_its_edges exampleHost noApiNames (JSString "a.md")
           [JSString "b.md"; JSString "a.md"] (Some "a.md") [Some "b.md"; Some "a.md"]);
    reflexivity.
Defined.

(** X13 at [addDependency("a.md", ["b.md"])] on a fresh map. *)
Lemma addDependency_twice_witness :
  wellFormed (map noApiNames) = true
  /\ @normalizeNode exampleHost (JSString "a.md") = Ok (Some "a.md")
  /\ mapM (@normalizeNode exampleHost) [JSString "b.md"] = Ok [Some "b.md"]
  /\ exists s', @addDependency exampleHost noApiNames (JSString "a.md") [JSString "b.md"]
                = Ok s'
       /\ @addDependency exampleHost s' (JSString "a.md") [JSString "b.md"] = Ok s'.
Proof.
  split; [reflexivity|]. split; [reflexivity|]. split; [reflexivity|].
  apply (@addDependency_twice exampleHost noApiNames (JSString "a.md") [JSString "b.md"]
           (Some "a.md") [Some "b.md"]); reflexivity.
Defined.

(** X15 at the template b.md of the linked graph. *)
Lemma findCollectionsRemovedFrom_lists_left_collections_witness :
  DepGraph.consistent (map linked) = true
  /\ @normalizeNode exampleHost (JSString "b.md") = Ok (Some "b.md")
  /\ DepGraph.hasNode (map linked) (Some "b.md") = true
  /\ forallb is_some (DepGraph.edge_list (DepGraph.incomingEdges (map linked)) (Some "b.md"))
     = true
  /\ exists deleted,
       @findCollectionsRemovedFrom exampleHost linked (JSString "b.md") ["posts"] = Ok deleted
       /\ NoDup deleted
       /\ forall c, In c deleted
                    <-> c <> "" /\ ~ In c ["posts"]
                        /\ In (Some (getCollectionKeyForEntry c))
                              (DepGraph.edge_list (DepGraph.incomingEdges (map linked))
                                 (Some "b.md")).
Proof.
  split; [reflexivity|]. split; [reflexivity|]. split; [reflexivity|]. split; [reflexivity|].
  apply (@findCollectionsRemovedFrom_lists_left_collections exampleHost linked
           (JSString "b.md") "b.md" ["posts"]); reflexivity.
Defined.

(** X16 at [addDependencyConsumesCollection(undefined, "posts")]. *)
Lemma addDependencyConsumesCollection_of_a_falsy_template_witness :
  DepGraph.consistent (map withPosts) = true
  /\ userConfigurationCollectionApiNames withPosts = Ok ["posts"]
  /\ JsArray.includes String.eqb "posts" ["posts"] = true
  /\ truthy JSUndefined = false
  /\ DepGraph.hasNode (map withPosts) None = false
  /\ @addDependencyConsumesCollection exampleHost withPosts JSUndefined "posts"
     = Throw (TypeError "Cannot convert undefined or null to object").
Proof.
  split; [reflexivity|]. split; [reflexivity|]. split; [reflexivity|]. split; [reflexivity|].
  split; [reflexivity|].
  apply (@addDependencyConsumesCollection_of_a_falsy_template exampleHost withPosts
           JSUndefined ["posts"] "posts"); reflexivity.
Defined.

(** X17 at the collection "posts" on a fresh map. *)
Lemma addCollectionApiNames_links_every_collection_to_all_witness :
  wellFormed (map withPosts) = true
  /\ exists s', @addCollectionApiNames exampleHost withPosts ["posts"] = Ok s'
       /\ forall nm,
            In nm ["posts"] ->
            @fullNormalization exampleHost (getCollectionKeyForEntry nm)
            <> @fullNormalization exampleHost
                 (getCollectionKeyForEntry SPECIAL_ALL_COLLECTION_NAME) ->
            DepGraph.has_edge (map s')
              (Some (@fullNormalization exampleHost (getCollectionKeyForEntry nm)))
              (Some (@fullNormalization exampleHost
                       (getCollectionKeyForEntry SPECIAL_ALL_COLLECTION_NAME)))
            = true.
Proof.
  split; [reflexivity|].
  apply (@addCollectionApiNames_links_every_collection_to_all exampleHost withPosts ["posts"]);
    reflexivity.
Defined.

(** X18 at the template a.md of the linked graph. *)
Lemma getTemplatesRelevantToTemplateList_lists_dependencies_witness :
  wellFormed (map linked) = true
  /\ circular (map linked) = true
  /\ DepGraph.hasNode (map linked) None = false
  /\ mapM (fun inputPath => inputPath <- keepPath inputPath ;;
                            @normalizeNode exampleHost inputPath) [JSString "a.md"]
     = Ok [Some "a.md"]
  /\ exists l,
       @getTemplatesRelevantToTemplateList exampleHost keepPath linked [JSString "a.md"] = Ok l
       /\ NoDup l
       /\ forall x, In x l
                    <-> DepGraph.hasNode (map linked) x = true
                        /\ plain_node x = true /\ layout_node (map linked) x = false
                        /\ (In (name_to_string x) JsObject.prototype_keys
                            \/ exists n, In n [Some "a.md"] /\ x <> n
                                         /\ reaches (outgoingEdges (map linked)) n x).
Proof.
  split; [reflexivity|]. split; [reflexivity|]. split; [reflexivity|]. split; [reflexivity|].
  apply (@getTemplatesRelevantToTemplateList_lists_dependencies exampleHost keepPath linked
           [JSString "a.md"] [Some "a.md"]); reflexivity.
Defined.

(** X19 at the layout base.html used by a.md, on the linked graph. *)
Lemma addLayoutsToMap_updates_the_layouts_witness :
  wellFormed (map linked) = true
  /\ circular (map linked) = true
  /\ (forall files esm,
         forallb is_string (@JavaScriptDependencies_getDependencies exampleHost files esm)
         = true)
  /\ @normalizeLayoutsObject exampleHost [("base.html", [JSString "a.md"])]
     = Ok [("base.html", [Some "a.md"])]
  /\ exists s', @addLayoutsToMap exampleHost linked [("base.html", [JSString "a.md"])] = Ok s'
       /\ (forall layout, In layout (JsObject.keys [("base.html", [Some "a.md"])]) ->
                          layout_node (map s') (Some layout) = true)
       /\ (forall y, layout_node (map linked) y = true ->
                     layouts_lookup_truthy [("base.html", [Some "a.md"])] y = true ->
                     layout_node (map s') y = true)
       /\ (forall y, layout_node (map linked) y = true ->
                     layouts_lookup_truthy [("base.html", [Some "a.md"])] y = false ->
                     layout_node (map s') y = false)
       /\ (forall y, DepGraph.hasNode (map linked) y = true ->
                     layout_node (map linked) y = false ->
                     DepGraph.hasNode (map s') y = true).
Proof.
  split; [reflexivity|]. split; [reflexivity|]. split; [intros files esm; reflexivity|].
  split; [reflexivity|].
  apply (@addLayoutsToMap_updates_the_layouts exampleHost linked
           [("base.html", [JSString "a.md"])] [("base.html", [Some "a.md"])]);
    reflexivity.
Defined.

(** X20 at the template a.md of the linked graph. *)
Lemma resetNode_removes_exactly_the_outgoing_edges_witness :
  wellFormed (map linked) = true
  /\ @normalizeNode exampleHost (JSString "a.md") = Ok (Some "a.md")
  /\ DepGraph.hasNode (map linked) (Some "a.md") = true
  /\ exists s', @resetNode exampleHost linked (JSString "a.md") = Ok s'
       /\ nodes (map s') = nodes (map linked)
       /\ forall a b, DepGraph.has_edge (map s') a b = true
                      <-> DepGraph.has_edge (map linked) a b = true /\ a <> Some "a.md".
Proof.
  split; [reflexivity|]. split; [reflexivity|]. split; [reflexivity|].
  apply (@resetNode_removes_exactly_the_outgoing_edges exampleHost linked (JSString "a.md")
           (Some "a.md")); reflexivity.
Defined.

(** X21 at a new instance. *)
Lemma collection_edges_need_the_collection_names_witness :
  DepGraph.consistent (map create) = true
  /\ templateConfig create = None
  /\ cachedUserConfigurationCollectionApiNames create = None
  /\ @normalizeNode exampleHost (JSString "index.md") = Ok (Some "index.md")
  /\ @addDependencyConsumesCollection exampleHost create (JSString "index.md") "posts"
     = Throw (TypeError "Cannot read properties of undefined (reading 'userConfig')")
  /\ @addDependencyPublishesToCollection exampleHost create (JSString "index.md") "posts"
     = Throw (TypeError "Cannot read properties of undefined (reading 'userConfig')").
Proof.
  split; [reflexivity|]. split; [reflexivity|]. split; [reflexivity|]. split; [reflexivity|].
  apply (@collection_edges_need_the_collection_names exampleHost create (JSString "index.md")
           (Some "index.md") "posts"); reflexivity.
Defined.

(** X22 at [undefined] on the linked graph. *)
Lemma findCollectionsRemovedFrom_of_a_falsy_node_witness :
  truthy JSUndefined = false
  /\ if DepGraph.hasNode (map linked) None
     then exists msg,
         @findCollectionsRemovedFrom exampleHost linked JSUndefined ["posts"]
         = Throw (TypeError msg)
     else @findCollectionsRemovedFrom exampleHost linked JSUndefined ["posts"] = Ok [].
Proof.
  split; [reflexivity|].
  apply (@findCollectionsRemovedFrom_of_a_falsy_node exampleHost linked JSUndefined ["posts"]);
    reflexivity.
Defined.

(** X23 at the template index.md and the collection "posts". *)
Lemma consuming_then_publishing_to_all_witness :
  DepGraph.consistent (map withPosts) = true
  /\ userConfigurationCollectionApiNames withPosts = Ok ["posts"]
  /\ JsArray.includes String.eqb "posts" ["posts"] = true
  /\ @normalizeNode exampleHost (JSString "index.md") = Ok (Some "index.md")
  /\ exists s1,
       @addDependencyConsumesCollection exampleHost withPosts (JSString "index.md") "posts"
       = Ok s1
       /\ isConfigurationApiConsumer s1 (Some "index.md") = Ok true
       /\ exists s2,
            @addDependencyPublishesToCollection exampleHost s1 (JSString "index.md")
              SPECIAL_ALL_COLLECTION_NAME = Ok s2
            /\ DepGraph.has_edge (map s2)
                 (Some (getCollectionKeyForEntry SPECIAL_ALL_COLLECTION_NAME))
                 (Some "index.md")
               = DepGraph.has_edge (map s1)
                   (Some (getCollectionKeyForEntry SPECIAL_ALL_COLLECTION_NAME))
                   (Some "index.md").
Proof.
  split; [reflexivity|]. split; [reflexivity|]. split; [reflexivity|]. split; [reflexivity|].
  apply (@consuming_then_publishing_to_all exampleHost withPosts (JSString "index.md")
           "index.md" ["posts"] "posts"); reflexivity.
Defined.

End FurtherWitnesses.
